(** * Instalaz: content rotation and publish orchestration

    A shallow embedding of the rotation and publishing core of the
    repository ([runner.py], [sync.py] and the scheduler and publish
    endpoint of [app.py]) together with the properties of its
    specification.

    Conventions of the embedding:
    - Python [int] is [Z]; [%] is [Z.modulo] (both take the sign of the
      divisor) and a zero divisor raises [ZeroDivisionError].
    - Python [str] is [string], read as the UTF-8 bytes of the text.
    - A configuration dict is a record of optional fields; an absent key is
      [None].
    - Local files are a [gmap] from path to content; the remote mirror, the
      HTTP endpoints, the random generator and the process environment are
      an oracle indexed by the number of external calls made so far.
    - An exception is a value of [exn]; a computation returns
      [outcome A * world], the world being kept when an exception is
      raised.
    - Reading and writing a local file does not fail for a reason of the
      file system. *)

From Stdlib Require Import ZArith Ascii String List Lia Bool.
From Stdlib Require Import Decimal DecimalString DecimalZ DecimalPos.
From stdpp Require Import gmap strings list.

Local Open Scope Z_scope.

(* ===================================================================== *)
(** * Python string primitives *)
(* ===================================================================== *)

Module PyStr.

(** [str(n)] for an [int]: decimal digits with a leading [-] below zero. *)
Definition str_of_uint (d : uint) : string := NilZero.string_of_uint d.

Definition str_Z (n : Z) : string := NilZero.string_of_int (Z.to_int n).

(** [c in s] for a one-character [c]. *)
Fixpoint mem_char (c : ascii) (s : string) : bool :=
  match s with
  | EmptyString => false
  | String d r => if Ascii.eqb c d then true else mem_char c r
  end.

Definition is_digit (c : ascii) : bool :=
  let n := nat_of_ascii c in ((48 <=? n) && (n <=? 57))%nat.

Definition is_upper (c : ascii) : bool :=
  let n := nat_of_ascii c in ((65 <=? n) && (n <=? 90))%nat.

Definition is_lower (c : ascii) : bool :=
  let n := nat_of_ascii c in ((97 <=? n) && (n <=? 122))%nat.

(** The characters [urllib.parse.quote] never escapes: ASCII letters,
    digits and [_.-~]. *)
Definition always_safe (c : ascii) : bool :=
  is_digit c || is_upper c || is_lower c || mem_char c "_.-~".

Definition hex_digit (n : nat) : ascii :=
  match String.get n "0123456789ABCDEF" with
  | Some c => c
  | None => "0"%char
  end.

Definition pct_encode (c : ascii) : string :=
  let n := nat_of_ascii c in
  String "%" (String (hex_digit (n / 16)) (String (hex_digit (n mod 16)) EmptyString)).

(** [urllib.parse.quote(s, safe=safe)]: every byte of the UTF-8 text that
    is neither always safe nor listed in [safe] becomes [%XX]. *)
Fixpoint quote (safe : string) (s : string) : string :=
  match s with
  | EmptyString => EmptyString
  | String c r =>
      (if always_safe c || mem_char c safe
       then String c EmptyString else pct_encode c) +:+ quote safe r
  end.

(** [s.rstrip("/")]. *)
Fixpoint rstrip_slash (s : string) : string :=
  match s with
  | EmptyString => EmptyString
  | String c r =>
      match rstrip_slash r with
      | EmptyString => if Ascii.eqb c "/" then EmptyString else String c EmptyString
      | r' => String c r'
      end
  end.

(** [s.lower()]. Exact on the ASCII letters; the bytes of every other
    character are left as they are. Python gives such a character a lower
    case outside ASCII, but for the Kelvin sign ([k]) and the dotted
    capital I ([i] and a combining dot): the one use below looks for the
    word [ruthless], which holds neither letter. *)
Definition lower_char (c : ascii) : ascii :=
  if is_upper c then ascii_of_nat (nat_of_ascii c + 32) else c.

Fixpoint lower (s : string) : string :=
  match s with
  | EmptyString => EmptyString
  | String c r => String (lower_char c) (lower r)
  end.

Definition upper_char (c : ascii) : ascii :=
  if is_lower c then ascii_of_nat (nat_of_ascii c - 32) else c.

(** The characters outside ASCII whose upper case is made of ASCII
    letters only: sharp s, dotless i, long s and the Latin ligatures
    [ff fi fl ffi ffl st st], by their UTF-8 bytes. *)
Definition upper_special (s : string) : option (string * string) :=
  match s with
  | String "195" (String "159" r) => Some ("SS", r)
  | String "196" (String "177" r) => Some ("I", r)
  | String "197" (String "191" r) => Some ("S", r)
  | String "239" (String "172" (String "128" r)) => Some ("FF", r)
  | String "239" (String "172" (String "129" r)) => Some ("FI", r)
  | String "239" (String "172" (String "130" r)) => Some ("FL", r)
  | String "239" (String "172" (String "131" r)) => Some ("FFI", r)
  | String "239" (String "172" (String "132" r)) => Some ("FFL", r)
  | String "239" (String "172" (String "133" r)) => Some ("ST", r)
  | String "239" (String "172" (String "134" r)) => Some ("ST", r)
  | _ => None
  end.

(** [s.upper()]. Exact on every text whose upper case is ASCII: the ASCII
    letters and the characters of [upper_special]. The bytes of every
    other character are left as they are; Python gives such a character an
    upper case that holds a character outside ASCII, so a comparison of
    the result with an ASCII word comes out as in Python. *)
Fixpoint upper_fuel (fuel : nat) (s : string) : string :=
  match fuel with
  | O => EmptyString
  | S n =>
      match upper_special s with
      | Some (u, r) => u +:+ upper_fuel n r
      | None =>
          match s with
          | EmptyString => EmptyString
          | String c r => String (upper_char c) (upper_fuel n r)
          end
      end
  end.

Definition upper (s : string) : string := upper_fuel (String.length s) s.

(** [needle in s]. *)
Fixpoint contains (needle s : string) : bool :=
  if String.prefix needle s then true
  else match s with
       | EmptyString => false
       | String _ r => contains needle r
       end.

(** [s.split("/")[-1]]: the text after the last slash. *)
Fixpoint last_segment (s : string) : string :=
  match s with
  | EmptyString => EmptyString
  | String c r =>
      if mem_char "/" r then last_segment r
      else if Ascii.eqb c "/" then r else String c r
  end.

(** The longest prefix of decimal digits and what follows it. *)
Fixpoint span_digits (s : string) : string * string :=
  match s with
  | EmptyString => (EmptyString, EmptyString)
  | String c r =>
      if is_digit c
      then let '(d, rest) := span_digits r in (String c d, rest)
      else (EmptyString, s)
  end.

(** [re.search(r"\((\d+)\)", s)]: group 1 of the leftmost match, if any. *)
Fixpoint search_paren_digits (s : string) : option string :=
  match s with
  | EmptyString => None
  | String c r =>
      if Ascii.eqb c "("
      then match span_digits r with
           | (String d ds, String e _) =>
               if Ascii.eqb e ")" then Some (String d ds)
               else search_paren_digits r
           | _ => search_paren_digits r
           end
      else search_paren_digits r
  end.

(** [int(s)] for a string of decimal digits. *)
Definition int_of_digits (s : string) : option Z :=
  Z.of_uint <$> NilEmpty.uint_of_string s.

(** The first character of a UTF-8 text, as its code point, and what
    follows it; [None] at the end of the text and on bytes that are not
    UTF-8. *)
Definition is_cont (b : N) : bool := ((128 <=? b) && (b <=? 191))%N.

Definition decode1 (s : string) : option (N * string) :=
  match s with
  | EmptyString => None
  | String c0 r0 =>
      let b0 := N_of_ascii c0 in
      if (b0 <? 128)%N then Some (b0, r0)
      else
        match r0 with
        | EmptyString => None
        | String c1 r1 =>
            let b1 := N_of_ascii c1 in
            if negb (is_cont b1) then None
            else if ((194 <=? b0) && (b0 <=? 223))%N
            then Some (((b0 - 192) * 64 + (b1 - 128))%N, r1)
            else
              match r1 with
              | EmptyString => None
              | String c2 r2 =>
                  let b2 := N_of_ascii c2 in
                  if negb (is_cont b2) then None
                  else if ((224 <=? b0) && (b0 <=? 239))%N
                  then Some (((b0 - 224) * 4096 + (b1 - 128) * 64 + (b2 - 128))%N, r2)
                  else
                    match r2 with
                    | EmptyString => None
                    | String c3 r3 =>
                        let b3 := N_of_ascii c3 in
                        if is_cont b3 && ((240 <=? b0) && (b0 <=? 244))%N
                        then Some (((b0 - 240) * 262144 + (b1 - 128) * 4096
                                    + (b2 - 128) * 64 + (b3 - 128))%N, r3)
                        else None
                    end
              end
        end
  end.

(** The white space of [int()]: the ASCII characters tab, line feed,
    vertical tab, form feed, carriage return and space, and the white
    space outside ASCII. *)
Definition is_int_space (cp : N) : bool :=
  (((9 <=? cp) && (cp <=? 13)) || (cp =? 32) || (cp =? 133) || (cp =? 160)
   || (cp =? 5760) || ((8192 <=? cp) && (cp <=? 8202)) || (cp =? 8232)
   || (cp =? 8233) || (cp =? 8239) || (cp =? 8287) || (cp =? 12288))%N.

(** [str.isspace()] of one character, what [str.strip()] removes: the
    same and the four separators [0x1c .. 0x1f]. *)
Definition is_space (cp : N) : bool :=
  (is_int_space cp || ((28 <=? cp) && (cp <=? 31)))%N.

Fixpoint lstrip_fuel (fuel : nat) (s : string) : string :=
  match fuel with
  | O => s
  | S n =>
      match decode1 s with
      | Some (cp, r) => if is_space cp then lstrip_fuel n r else s
      | None => s
      end
  end.

Definition lstrip (s : string) : string := lstrip_fuel (String.length s) s.

(** A text that is one white space character. *)
Definition one_space (s : string) : bool :=
  match decode1 s with
  | Some (cp, EmptyString) => is_space cp
  | _ => false
  end.

Fixpoint rstrip (s : string) : string :=
  match s with
  | EmptyString => EmptyString
  | String c r =>
      let r' := rstrip r in
      if one_space (String c r') then EmptyString else String c r'
  end.

(** [s.strip()]. *)
Definition strip (s : string) : string := rstrip (lstrip s).

(** [s.split(sep)] for a one-character separator. *)
Fixpoint split_on (sep : ascii) (s : string) : list string :=
  match s with
  | EmptyString => [EmptyString]
  | String c r =>
      let parts := split_on sep r in
      if Ascii.eqb c sep then EmptyString :: parts
      else match parts with
           | p :: ps => String c p :: ps
           | [] => [String c EmptyString]
           end
  end.

(** The digits of an integer literal, single underscores between digits
    dropped; [None] when the text is not of that shape. *)
Fixpoint literal_digits (after_digit : bool) (s : string) : option string :=
  match s with
  | EmptyString => if after_digit then Some EmptyString else None
  | String c r =>
      if is_digit c then String c <$> literal_digits true r
      else if Ascii.eqb c "_" && after_digit then literal_digits false r
      else None
  end.

(** The code points of the digit zero of every decimal digit script of
    Unicode 14 (the data of CPython 3.11); the nine digits that follow
    each are its digits one to nine. *)
Definition decimal_zeros : list N :=
  [48; 1632; 1776; 1984; 2406; 2534; 2662; 2790; 2918; 3046;
   3174; 3302; 3430; 3558; 3664; 3792; 3872; 4160; 4240; 6112;
   6160; 6470; 6608; 6784; 6800; 6992; 7088; 7232; 7248; 42528;
   43216; 43264; 43472; 43504; 43600; 44016; 65296; 66720; 68912; 69734;
   69872; 69942; 70096; 70384; 70736; 70864; 71248; 71360; 71472; 71904;
   72016; 72784; 73040; 73120; 92768; 92864; 93008; 120782; 120792; 120802;
   120812; 120822; 123200; 123632; 125264; 130032]%N.

(** The value of a decimal digit, ASCII or not. *)
Definition decimal_value (cp : N) : option N :=
  (fun z => (cp - z)%N) <$> find (fun z => ((z <=? cp) && (cp <? z + 10))%N) decimal_zeros.

(** What [int()] makes of a text before it reads it: an ASCII character
    stays, a decimal digit outside ASCII becomes its ASCII digit, white
    space outside ASCII becomes a space; any other character makes the
    text unreadable. *)
Definition to_ascii_char (cp : N) : option ascii :=
  if (cp <? 128)%N then Some (ascii_of_N cp)
  else match decimal_value cp with
       | Some d => Some (ascii_of_N (48 + d))
       | None => if is_int_space cp then Some " "%char else None
       end.

Fixpoint to_ascii_fuel (fuel : nat) (s : string) : option string :=
  match fuel with
  | O => Some EmptyString
  | S n =>
      match s with
      | EmptyString => Some EmptyString
      | _ =>
          match decode1 s with
          | Some (cp, r) =>
              match to_ascii_char cp with
              | Some c => String c <$> to_ascii_fuel n r
              | None => None
              end
          | None => None
          end
      end
  end.

Definition to_ascii (s : string) : option string := to_ascii_fuel (String.length s) s.

(** [s.lstrip] and [s.rstrip] over the bytes that satisfy [p]. *)
Fixpoint lstrip_by (p : ascii -> bool) (s : string) : string :=
  match s with
  | EmptyString => EmptyString
  | String c r => if p c then lstrip_by p r else s
  end.

Fixpoint rstrip_by (p : ascii -> bool) (s : string) : string :=
  match s with
  | EmptyString => EmptyString
  | String c r =>
      match rstrip_by p r with
      | EmptyString => if p c then EmptyString else String c EmptyString
      | r' => String c r'
      end
  end.

(** The default of [sys.get_int_max_str_digits()]. *)
Definition int_max_str_digits : nat := 4300.

(** The digits, underscores dropped, as a number; a literal of more than
    [int_max_str_digits] digits is refused. *)
Definition int_of_literal (s : string) : option Z :=
  match literal_digits false s with
  | Some ds =>
      if (String.length ds <=? int_max_str_digits)%nat then int_of_digits ds else None
  | None => None
  end.

(** [int(s)]: white space around, an optional sign, decimal digits.
    [None] stands for [ValueError]. *)
Definition py_int (s : string) : option Z :=
  match to_ascii s with
  | None => None
  | Some t =>
      let is_ws c := is_int_space (N_of_ascii c) in
      match rstrip_by is_ws (lstrip_by is_ws t) with
      | String "+" r => int_of_literal r
      | String "-" r => Z.opp <$> int_of_literal r
      | u => int_of_literal u
      end
  end.

End PyStr.

(* ===================================================================== *)
(** * Virtual file names and URL encoding *)
(* ===================================================================== *)

(** [_image_name_for]: [f"img ({base_index}).jpg"]. *)
Definition _image_name_for (base_index : Z) : string :=
  "img (" +:+ PyStr.str_Z base_index +:+ ").jpg".

(** [f"vid ({i}).mp4"]. *)
Definition video_name_for (i : Z) : string :=
  "vid (" +:+ PyStr.str_Z i +:+ ").mp4".

(** [_norm_base]: [(url or "").rstrip("/")]. *)
Definition _norm_base (url : option string) : string :=
  PyStr.rstrip_slash (default EmptyString url).

(** The per-host quirk test ["ruthless" in prefix.lower()]. *)
Definition is_ruthless (prefix : string) : bool :=
  PyStr.contains "ruthless" (PyStr.lower prefix).

(** The hand-built encoding of the quirk branch: [f"img%20({n}).jpg"]. *)
Definition quirk_encoding (n : Z) : string :=
  "img%20(" +:+ PyStr.str_Z n +:+ ").jpg".

(** The generic branch: [quote(fn, safe="()")]. *)
Definition generic_encoding (fn : string) : string := PyStr.quote "()" fn.

(** URL encoding of one slide in [next_images]. *)
Definition encode_next_image (prefix : string) (img_index : Z) : string :=
  if is_ruthless prefix then quirk_encoding img_index
  else generic_encoding (_image_name_for img_index).

(** URL encoding of the drawn file name in [get_random_candidate]
    ([kind == "image"]). *)
Definition encode_random_image (prefix : string) (selected_filename : string) : string :=
  if is_ruthless prefix
  then let idx := match PyStr.search_paren_digits selected_filename with
                  | Some g => default 1 (PyStr.int_of_digits g)
                  | None => 1
                  end in
       quirk_encoding idx
  else generic_encoding selected_filename.

(** URL encoding in the preview ([image_candidates]). *)
Definition encode_preview_image (filename : string) : string :=
  generic_encoding filename.

(* ===================================================================== *)
(** * Configuration, exceptions and the world *)
(* ===================================================================== *)

(** One entry of [accounts.json]; a key that is absent is [None]. The
    entries modelled are those that have a [state_prefix]: [runner.py]
    reads it as [cfg["state_prefix"]] before anything else and raises
    [KeyError] on an entry without it. *)
Record config := Config {
  cfg_name : option string;
  cfg_state_prefix : string;
  cfg_type : option string;
  cfg_base_url : option string;
  cfg_video_base_url : option string;
  cfg_caption_url : option string;
  cfg_slides_per_post : option Z;
  cfg_max_images : option Z;
  cfg_access_token_env : option string;
  cfg_ig_user_id_env : option string;
  cfg_schedule_enabled : option string;
  cfg_schedule_times : option string
}.

(** The exceptions the modelled code raises. [UpstreamError] stands for
    whatever [requests] or the platform raise ([raise_for_status], a
    missing ["id"], a transport failure); an oracle that answers
    [Raise e] says that the call raised [e]. *)
Inductive exn : Type :=
| RuntimeError (msg : string)
| KeyError (key : string)
| NameError (name : string)
| ZeroDivisionError
| AttributeError (msg : string)
| UpstreamError (detail : string).

(** [str(e)]. The text of [ZeroDivisionError] depends on the interpreter
    version; nothing below depends on it. *)
Definition exn_str (e : exn) : string :=
  match e with
  | RuntimeError msg => msg
  | KeyError key => "'" +:+ key +:+ "'"
  | NameError name => "name '" +:+ name +:+ "' is not defined"
  | ZeroDivisionError => "integer modulo by zero"
  | AttributeError msg => msg
  | UpstreamError detail => detail
  end.

(** The [AttributeError] of an attribute a value does not have. *)
Definition no_attribute (ty attr : string) : exn :=
  AttributeError ("'" +:+ ty +:+ "' object has no attribute '" +:+ attr +:+ "'").

Inductive outcome (A : Type) : Type :=
| Ok (a : A)
| Raise (e : exn).
Arguments Ok {A} a.
Arguments Raise {A} e.

(** Content of a local JSON file. [FCorrupt] is a file [json.load]
    rejects. The time stamp of a status file is left out. *)
Inductive file : Type :=
| FUsed (used : list string)
| FIndex (last_index : Z)
| FStatus (status message : string)
| FCorrupt.

(** One entry of the remote mirror: a dict whose four keys may each be
    absent. *)
Record remote_state := RemoteState {
  r_video_used : option (list string);
  r_image_used : option (list string);
  r_caption_idx : option Z;
  r_image_idx : option Z
}.

(** The JSON body of a container status poll when it is an object whose
    two status fields are strings or falsy: a field that is absent,
    [null] or another falsy value is [None]. *)
Record poll_resp := PollResp {
  pr_status_code : option string;
  pr_status : option string;
  pr_repr : string
}.

(** What a poll comes back with. [PollFailed]: the request or the
    decoding of its body raised. [PollAnswer]: an object as above.
    [PollIllTyped ty attr]: a JSON value the status line cannot read, either
    a value of Python type [ty] that is not an object ([attr] is [get]) or
    an object whose first truthy status field is of type [ty], not a
    string ([attr] is [upper]). *)
Inductive poll_outcome : Type :=
| PollFailed (err : string)
| PollAnswer (resp : poll_resp)
| PollIllTyped (ty attr : string).

(** The outside world as an oracle: every answer may depend on the number
    of external calls made before it. *)
Record env := Env {
  e_remote : nat -> string -> option remote_state;
  e_lines : nat -> string -> string + list string;
  e_head : nat -> string -> bool;
  e_choice : nat -> nat;
  e_getenv : string -> option string;
  e_upload_image : nat -> string -> outcome string;
  e_upload_reel : nat -> option string -> string -> bool -> outcome string;
  e_poll : nat -> string -> poll_outcome;
  e_create_carousel : nat -> list string -> string -> bool -> outcome (option string * string);
  e_publish : nat -> string -> outcome (option string * string);
  e_permalink : nat -> string -> string
}.

(** What the process has done so far: the local files, the background
    mirror pushes it started (by prefix), the URLs it probed, the
    containers it polled, the seconds it slept, the notifications it sent
    and the number of external calls. *)
Record world := World {
  files : gmap string file;
  pushes : list string;
  heads : list string;
  polls : list string;
  slept : Z;
  notified : list string;
  clock : nat
}.

Definition M (A : Type) : Type := world -> outcome A * world.

Definition ret {A} (a : A) : M A := fun w => (Ok a, w).
Definition raise {A} (e : exn) : M A := fun w => (Raise e, w).
Definition bind {A B} (m : M A) (f : A -> M B) : M B :=
  fun w => match m w with
           | (Ok a, w') => f a w'
           | (Raise e, w') => (Raise e, w')
           end.

(** [try: m except Exception as e: h e]. *)
Definition try_except {A} (m : M A) (h : exn -> M A) : M A :=
  fun w => match m w with
           | (Ok a, w') => (Ok a, w')
           | (Raise e, w') => h e w'
           end.

#[global] Instance M_ret : MRet M := @ret.
#[global] Instance M_bind : MBind M := fun A B f m => bind m f.

(** A [for] loop that collects one result per element. *)
Fixpoint mapM {A B} (f : A -> M B) (l : list A) : M (list B) :=
  match l with
  | [] => ret []
  | x :: r => y ← f x; ys ← mapM f r; ret (y :: ys)
  end.

(** [range(a, b)]. *)
Definition py_range (a b : Z) : list Z :=
  map (fun k => a + Z.of_nat k) (seq 0 (Z.to_nat (b - a))).

(** [a % b]. *)
Definition py_mod (a b : Z) : M Z :=
  if b =? 0 then raise ZeroDivisionError else ret (a mod b).

(** [cfg[key]] for a key that may be absent. *)
Definition require {A} (key : string) (v : option A) : M A :=
  match v with
  | Some a => ret a
  | None => raise (KeyError key)
  end.

Definition set_files (f : gmap string file -> gmap string file) (w : world) : world :=
  World (f (files w)) (pushes w) (heads w) (polls w) (slept w) (notified w) (clock w).

Definition write_file (path : string) (c : file) : M unit :=
  fun w => (Ok tt, set_files (insert path c) w).

Definition exists_file (path : string) : M bool :=
  fun w => (Ok (bool_decide (is_Some (files w !! path))), w).

Definition read_file (path : string) : M (option file) :=
  fun w => (Ok (files w !! path), w).

(** An external call: ask the oracle and advance the call counter. *)
Definition ext {A} (q : env -> nat -> A) (E : env) : M A :=
  fun w => (Ok (q E (clock w)),
            World (files w) (pushes w) (heads w) (polls w) (slept w) (notified w)
                  (S (clock w))).

(** [threading.Thread(target=push_state_bg, args=(prefix,)).start()]. *)
Definition start_push (prefix : string) : M unit :=
  fun w => (Ok tt, World (files w) (prefix :: pushes w) (heads w) (polls w)
                         (slept w) (notified w) (clock w)).

(** [sleep(delay)]. *)
Definition sleep (delay : Z) : M unit :=
  fun w => (Ok tt, World (files w) (pushes w) (heads w) (polls w)
                         (slept w + delay) (notified w) (clock w)).

Definition log_head (url : string) : M unit :=
  fun w => (Ok tt, World (files w) (pushes w) (url :: heads w) (polls w)
                         (slept w) (notified w) (clock w)).

Definition log_poll (cid : string) : M unit :=
  fun w => (Ok tt, World (files w) (pushes w) (heads w) (cid :: polls w)
                         (slept w) (notified w) (clock w)).

Definition log_notify (msg : string) : M unit :=
  fun w => (Ok tt, World (files w) (pushes w) (heads w) (polls w)
                         (slept w) (msg :: notified w) (clock w)).

(** [l[start:end]] with Python's treatment of negative and overlong bounds. *)
Definition py_slice {A} (l : list A) (start stop : Z) : list A :=
  let len := Z.of_nat (length l) in
  let norm i := if i <? 0 then Z.max 0 (i + len) else Z.min i len in
  let s := norm start in
  let e := norm stop in
  take (Z.to_nat (e - s)) (drop (Z.to_nat s) l).

(** [list(dict.fromkeys(l))]: the first occurrence of every element. *)
Fixpoint dedup_from (seen l : list string) : list string :=
  match l with
  | [] => []
  | x :: r => if bool_decide (x ∈ seen) then dedup_from seen r
              else x :: dedup_from (x :: seen) r
  end.

Definition dedup_first (l : list string) : list string := dedup_from [] l.

(** [l.remove(x)]: drop the first occurrence. *)
Fixpoint remove_first (x : string) (l : list string) : list string :=
  match l with
  | [] => []
  | y :: r => if String.eqb x y then r else y :: remove_first x r
  end.

(** Truth value of a string that may be [None]. *)
Definition truthy_str (o : option string) : bool :=
  match o with
  | Some s => negb (String.eqb s "")
  | None => false
  end.

(* ===================================================================== *)
(** * Paths of the local artifacts *)
(* ===================================================================== *)

Definition status_path (prefix : string) : string := prefix +:+ "_status.json".
Definition index_path (prefix key : string) : string := prefix +:+ "_" +:+ key +:+ ".json".
Definition video_used_path (prefix : string) : string := prefix +:+ "_video_used.json".
Definition image_used_path (prefix : string) : string := prefix +:+ "_image_used.json".

(** What [json.load(open(p)).get("last_index", 0)] yields, [0] when the
    file is absent, unreadable or lacks the key. *)
Definition index_of_file (f : option file) : Z :=
  match f with
  | Some (FIndex n) => n
  | _ => 0
  end.

(** What [json.load(open(p)).get("used", [])] yields, likewise. *)
Definition used_of_file (f : option file) : list string :=
  match f with
  | Some (FUsed l) => l
  | _ => []
  end.

(** [get_full_local_state]: the snapshot a mirror push would send. *)
Definition get_full_local_state (fs : gmap string file) (prefix : string) : remote_state :=
  RemoteState (Some (used_of_file (fs !! video_used_path prefix)))
              (Some (used_of_file (fs !! image_used_path prefix)))
              (Some (index_of_file (fs !! index_path prefix "caption")))
              (Some (index_of_file (fs !! index_path prefix "image"))).

(** The two content kinds [get_random_candidate] is called with. *)
Inductive kind : Type := Image | Video.

#[global] Instance kind_eq_dec : EqDecision kind.
Proof. solve_decision. Defined.

Record candidate := Candidate { cand_url : string; cand_filename : string }.

(** One entry of a preview page. *)
Record item := Item { item_url : string; item_filename : string; item_used : bool }.

Record listing := Listing { ls_items : list item; ls_has_more : bool; ls_total_items : option Z }.

(** The result of a successful run. *)
Record published := Published { media_id : string; permalink : string }.

(* ===================================================================== *)
(** * runner.py *)
(* ===================================================================== *)

Section Runner.

Variable E : env.

(** ** Status tracker *)

Definition save_status (prefix status message : string) : M unit :=
  write_file (status_path prefix) (FStatus status message).

Definition load_status (prefix : string) : M (string * string) :=
  f ← read_file (status_path prefix);
  mret (match f with
        | Some (FStatus s m) => (s, m)
        | _ => ("never", "")
        end).

(** ** Utilities *)

Definition _cfg_token_igid (cfg : config) : M (string * string) :=
  if truthy_str (cfg_access_token_env cfg) && truthy_str (cfg_ig_user_id_env cfg)
  then
    let tok_env := default "" (cfg_access_token_env cfg) in
    let usr_env := default "" (cfg_ig_user_id_env cfg) in
    let token := e_getenv E tok_env in
    let ig_id := e_getenv E usr_env in
    if negb (truthy_str token)
    then raise (RuntimeError ("Missing environment var " +:+ tok_env))
    else if negb (truthy_str ig_id)
    then raise (RuntimeError ("Missing environment var " +:+ usr_env))
    else mret (default "" token, default "" ig_id)
  else raise (RuntimeError "Config missing 'access_token_env' or 'ig_user_id_env'.").

Definition fetch_lines (url : string) : M (list string) :=
  r ← ext (fun E n => e_lines E n url) E;
  match r with
  | inr lines => mret lines
  | inl err =>
      raise (RuntimeError ("Failed to fetch caption_url " +:+ url +:+ ": " +:+ err))
  end.

Definition check_content_exists (url : string) : M bool :=
  log_head url;; ext (fun E n => e_head E n url) E.

(** The status a poll answer carries:
    [(resp.get("status_code") or resp.get("status") or "").upper()]. *)
Definition poll_status (resp : poll_resp) : string :=
  PyStr.upper
    (if truthy_str (pr_status_code resp) then default "" (pr_status_code resp)
     else if truthy_str (pr_status resp) then default "" (pr_status resp)
     else "").

(** The [for i in range(max_attempts)] loop of [wait_until_ready]. The
    status line stands outside the [try]: what it raises leaves the loop.
    The statement after the loop reads [last_resp], a name that is bound
    nowhere. *)
Fixpoint wait_loop (creation_id : string) (delay : Z) (attempts : nat)
  : M (bool * poll_resp) :=
  match attempts with
  | O => raise (NameError "last_resp")
  | S k =>
      log_poll creation_id;;
      p ← ext (fun E n => e_poll E n creation_id) E;
      match p with
      | PollFailed _ => sleep delay;; wait_loop creation_id delay k
      | PollAnswer resp =>
          let status := poll_status resp in
          if String.eqb status "FINISHED" then mret (true, resp)
          else if String.eqb status "ERROR" then mret (false, resp)
          else sleep delay;; wait_loop creation_id delay k
      | PollIllTyped ty attr => raise (no_attribute ty attr)
      end
  end.

Definition wait_until_ready_with (creation_id token : string)
    (max_attempts delay : Z) : M (bool * poll_resp) :=
  wait_loop creation_id delay (Z.to_nat max_attempts).

(** [wait_until_ready(creation_id, token)] with its default arguments. *)
Definition wait_until_ready (creation_id token : string) : M (bool * poll_resp) :=
  wait_until_ready_with creation_id token 600 2.

Definition fetch_permalink (media_id token : string) : M string :=
  ext (fun E n => e_permalink E n media_id) E.

(** [post_comment] swallows every failure and touches no local state. *)
Definition post_comment (media_id message : string) (cfg : config) : M unit :=
  if String.eqb message "" then mret tt
  else try_except (_cfg_token_igid cfg;; ext (fun _ _ => tt) E)
                  (fun _ => mret tt).

Definition notify_publish_success (account_name media_type : string) : M unit :=
  log_notify (account_name +:+ ": " +:+ media_type +:+ " published").

Definition notify_publish_failure (account_name error : string) : M unit :=
  log_notify (account_name +:+ ": publish failed: " +:+ error).

(** ** State helpers *)

Definition load_remote_state (prefix : string) : M (option remote_state) :=
  ext (fun E n => e_remote E n prefix) E.

Definition save_last_index (prefix key : string) (idx : Z) (sync : bool) : M unit :=
  write_file (index_path prefix key) (FIndex idx);;
  if sync then start_push prefix else mret tt.

Definition save_used_list (prefix : string) (used : list string) (sync : bool) : M unit :=
  write_file (video_used_path prefix) (FUsed used);;
  if sync then start_push prefix else mret tt.

Definition save_image_used_list (prefix : string) (used : list string) (sync : bool)
  : M unit :=
  write_file (image_used_path prefix) (FUsed used);;
  if sync then start_push prefix else mret tt.

Definition when_present {A} (o : option A) (f : A -> M unit) : M unit :=
  match o with
  | Some a => f a
  | None => mret tt
  end.

(** An entry that is [None] covers an unconfigured mirror, a failed
    fetch, a missing key and an empty dict: the source returns in all of
    them. *)
Definition restore_from_remote_if_needed (prefix : string) : M unit :=
  v ← exists_file (video_used_path prefix);
  i ← exists_file (image_used_path prefix);
  if v || i then mret tt
  else
    remote ← load_remote_state prefix;
    match remote with
    | None => mret tt
    | Some r =>
        when_present (r_video_used r) (fun l => save_used_list prefix l false);;
        when_present (r_image_used r) (fun l => save_image_used_list prefix l false);;
        when_present (r_caption_idx r) (fun n => save_last_index prefix "caption" n false);;
        when_present (r_image_idx r) (fun n => save_last_index prefix "image" n false)
    end.

Definition restore_unless (present : bool) (prefix : string) : M unit :=
  if present then mret tt else restore_from_remote_if_needed prefix.

Definition load_last_index (prefix key : string) : M Z :=
  let fn := index_path prefix key in
  present ← exists_file fn;
  restore_unless present prefix;;
  f ← read_file fn;
  mret (index_of_file f).

Definition load_used_list (prefix : string) : M (list string) :=
  let fn := video_used_path prefix in
  present ← exists_file fn;
  restore_unless present prefix;;
  f ← read_file fn;
  mret (used_of_file f).

Definition image_used_list (prefix : string) : M (list string) :=
  let fn := image_used_path prefix in
  present ← exists_file fn;
  restore_unless present prefix;;
  f ← read_file fn;
  mret (used_of_file f).

(** ** Media logic *)

Definition next_caption (cfg : config) : M string :=
  url ← require "caption_url" (cfg_caption_url cfg);
  lines ← fetch_lines url;
  match lines with
  | [] => raise (RuntimeError "Caption list is empty.")
  | _ =>
      idx ← load_last_index (cfg_state_prefix cfg) "caption";
      let caption := nth (Z.to_nat (idx mod Z.of_nat (length lines))) lines "" in
      save_last_index (cfg_state_prefix cfg) "caption" (idx + 1) true;;
      mret caption
  end.

Definition next_images (cfg : config) : M (list string) :=
  let count := default 1 (cfg_slides_per_post cfg) in
  last ← load_last_index (cfg_state_prefix cfg) "image";
  let max_images := default 10000 (cfg_max_images cfg) in
  let base := _norm_base (cfg_base_url cfg) in
  if String.eqb base "" then raise (RuntimeError "Missing base_url for carousel.")
  else
    urls ← mapM (fun i =>
                   r ← py_mod (last + i - 1) max_images;
                   let img_index := r + 1 in
                   mret (base +:+ "/" +:+ encode_next_image (cfg_state_prefix cfg) img_index))
                (py_range 1 (count + 1));
    r ← py_mod (last + count - 1) max_images;
    save_last_index (cfg_state_prefix cfg) "image" (r + 1) true;;
    mret urls.

(** ** Upload and publish *)

Definition upload_image (url : string) (cfg : config) : M string :=
  _cfg_token_igid cfg;;
  r ← ext (fun E n => e_upload_image E n url) E;
  match r with
  | Ok id => mret id
  | Raise e => raise e
  end.

Definition upload_reel (url : option string) (cfg : config) (caption : string)
    (hide_likes : bool) : M string :=
  _cfg_token_igid cfg;;
  r ← ext (fun E n => e_upload_reel E n url caption hide_likes) E;
  match r with
  | Ok id => mret id
  | Raise e => raise e
  end.

Definition create_carousel (child_ids : list string) (caption : string)
    (cfg : config) (hide_likes : bool) : M (string * string) :=
  '(token, _) ← _cfg_token_igid cfg;
  r ← ext (fun E n => e_create_carousel E n child_ids caption hide_likes) E;
  match r with
  | Raise e => raise e
  | Ok (cid, repr) =>
      if truthy_str cid then mret (default "" cid, token)
      else raise (RuntimeError ("Carousel container creation error: " +:+ repr))
  end.

Definition publish_creation (creation_id : string) (cfg : config) : M (string * string) :=
  '(token, _) ← _cfg_token_igid cfg;
  pub ← ext (fun E n => e_publish E n creation_id) E;
  match pub with
  | Raise e => raise e
  | Ok (media_id, repr) =>
      if truthy_str media_id then mret (default "" media_id, token)
      else raise (RuntimeError ("media_publish error: " +:+ repr))
  end.

(** ** Preview and selective publish helpers *)

Definition peek_caption (cfg : config) : M string :=
  url ← require "caption_url" (cfg_caption_url cfg);
  lines ← fetch_lines url;
  idx ← load_last_index (cfg_state_prefix cfg) "caption";
  mret (match lines with
        | [] => ""
        | _ => nth (Z.to_nat (idx mod Z.of_nat (length lines))) lines ""
        end).

(** The body of the [for i in range(start_idx, end_idx + 1)] loop of
    [image_candidates]; the range is fixed when the loop starts, [end_idx]
    only feeds the [break] test. *)
Fixpoint image_candidates_loop (base : string) (used_set : gset string)
    (include_used : bool) (page_size start_idx : Z)
    (indices : list Z) (end_idx : Z) (items : list item) : list item :=
  match indices with
  | [] => items
  | i :: rest =>
      let filename := _image_name_for i in
      let used := bool_decide (filename ∈ used_set) in
      if used && negb include_used
      then
        let end_idx' := end_idx + 1 in
        if page_size * 3 <? end_idx' - start_idx then items
        else image_candidates_loop base used_set include_used page_size start_idx
                                   rest end_idx' items
      else
        let url := base +:+ "/" +:+ encode_preview_image filename in
        let items' := items ++ [Item url filename used] in
        if page_size <=? Z.of_nat (length items') then items'
        else image_candidates_loop base used_set include_used page_size start_idx
                                   rest end_idx items'
  end.

Definition image_candidates (cfg : config) (page page_size : Z) (include_used : bool)
  : M listing :=
  if negb (bool_decide (cfg_type cfg = Some "carousel")) then mret (Listing [] true None)
  else
    let base := _norm_base (cfg_base_url cfg) in
    if String.eqb base "" then mret (Listing [] true None)
    else
      last ← load_last_index (cfg_state_prefix cfg) "image";
      used ← image_used_list (cfg_state_prefix cfg);
      let used_set : gset string := list_to_set used in
      let max_images := default 10000 (cfg_max_images cfg) in
      let start_idx := last + 1 + (page - 1) * page_size in
      let end_idx := start_idx + page_size - 1 in
      let items := image_candidates_loop base used_set include_used page_size start_idx
                     (py_range start_idx (end_idx + 1)) end_idx [] in
      mret (Listing items (page_size <=? Z.of_nat (length items)) (Some max_images)).

(** The video catalog: [vid.mp4] and then [vid (1).mp4 .. vid (max).mp4]. *)
Definition video_catalog (max_items : Z) : list string :=
  "vid.mp4" :: map video_name_for (py_range 1 (max_items + 1)).

(** The image catalog: [img (1).jpg .. img (max).jpg]. *)
Definition image_catalog (max_items : Z) : list string :=
  map _image_name_for (py_range 1 (max_items + 1)).

Definition video_candidates (cfg : config) (page page_size : Z) (include_used : bool)
  : M listing :=
  if negb (bool_decide (cfg_type cfg = Some "reel")) then mret (Listing [] false None)
  else
    let base := _norm_base (cfg_video_base_url cfg) in
    if String.eqb base "" then mret (Listing [] false None)
    else
      let max_items := default 200 (cfg_max_images cfg) in
      used_l ← load_used_list (cfg_state_prefix cfg);
      let used : gset string := list_to_set used_l in
      let all_files := video_catalog max_items in
      let ordered := if include_used then all_files
                     else filter (fun f => f ∉ used) all_files in
      let total := Z.of_nat (length ordered) in
      if total =? 0 then mret (Listing [] false None)
      else
        let start := (page - 1) * page_size in
        let stop := Z.min (start + page_size) total in
        let page_files := py_slice ordered start stop in
        let items := map (fun fname =>
                            Item (base +:+ "/" +:+ PyStr.quote "()" fname) fname
                                 (bool_decide (fname ∈ used))) page_files in
        mret (Listing items (stop <? total) (Some total)).

(** [list(used)] for a Python set has no specified order; the model takes
    the order of [elements]. *)
Definition mark_video_used (cfg : config) (selected_filename : string) : M unit :=
  used_l ← load_used_list (cfg_state_prefix cfg);
  let used : gset string := list_to_set used_l in
  let fname := PyStr.last_segment selected_filename in
  save_used_list (cfg_state_prefix cfg) (elements (used ∪ {[fname]})) true.

Definition mark_images_used (cfg : config) (selected_urls : list string) : M unit :=
  used_l ← image_used_list (cfg_state_prefix cfg);
  let used : gset string := list_to_set used_l in
  let used' := foldl (fun acc u => acc ∪ {[PyStr.last_segment u]}) used selected_urls in
  save_image_used_list (cfg_state_prefix cfg) (elements used') true.

Definition peek_then_commit_caption (cfg : config) : M string :=
  url ← require "caption_url" (cfg_caption_url cfg);
  lines ← fetch_lines url;
  idx ← load_last_index (cfg_state_prefix cfg) "caption";
  let cap := match lines with
             | [] => ""
             | _ => nth (Z.to_nat (idx mod Z.of_nat (length lines))) lines ""
             end in
  save_last_index (cfg_state_prefix cfg) "caption" (idx + 1) true;;
  mret cap.

(** [enumerate(l, 1)]. *)
Definition enumerate1 {A} (l : list A) : list (Z * A) :=
  zip (py_range 1 (Z.of_nat (length l) + 1)) l.

Definition progress (what : string) (i total : Z) : string :=
  what +:+ " " +:+ PyStr.str_Z i +:+ "/" +:+ PyStr.str_Z total +:+ "...".

Definition success_message (what mode media_id permalink : string) : string :=
  what +:+ " (" +:+ mode +:+ ") published ✅
Media ID: " +:+ media_id +:+ "
Permalink: " +:+ (if String.eqb permalink "" then "(not available)" else permalink).

(** The options of a selective publish. *)
Record options := Options { opt_hide_likes : bool; opt_first_comment : string }.

(** One turn of the upload loop of [publish_selected_carousel]. *)
Definition upload_slide (prefix token : string) (total : Z) (iu : Z * string)
  : M string :=
  save_status prefix "running" (progress "Uploading slide" (fst iu) total);;
  r ← ext (fun E n => e_upload_image E n (snd iu)) E;
  cid ← match r with Ok id => mret id | Raise e => raise e end;
  save_status prefix "running" (progress "Verifying slide" (fst iu) total);;
  '(success, resp) ← wait_until_ready cid token;
  if success : bool then mret cid
  else raise (RuntimeError ("Media " +:+ cid +:+ " failed readiness. Info: "
                            +:+ pr_repr resp)).

Definition publish_selected_carousel (cfg : config) (selected_urls : list string)
    (caption : option string) (opts : options) : M published :=
  let prefix := cfg_state_prefix cfg in
  match selected_urls with
  | [] => raise (RuntimeError "No slides selected")
  | _ =>
      '(token, _) ← _cfg_token_igid cfg;
      let total := Z.of_nat (length selected_urls) in
      child_ids ← mapM (upload_slide prefix token total) (enumerate1 selected_urls);
      cap ← (if truthy_str caption then mret (default "" caption)
             else peek_then_commit_caption cfg);
      save_status prefix "running" "Creating carousel container...";;
      '(creation_id, token) ← create_carousel child_ids cap cfg (opt_hide_likes opts);
      save_status prefix "running" "Processing carousel...";;
      '(success, resp) ← wait_until_ready creation_id token;
      if negb success
      then raise (RuntimeError ("Carousel container " +:+ creation_id
                                +:+ " failed readiness. Info: " +:+ pr_repr resp))
      else
        save_status prefix "running" "Publishing to Instagram...";;
        '(media_id, token) ← publish_creation creation_id cfg;
        (if String.eqb (opt_first_comment opts) "" then mret tt
         else save_status prefix "running" "Posting first comment...";;
              post_comment media_id (opt_first_comment opts) cfg);;
        permalink ← fetch_permalink media_id token;
        mark_images_used cfg selected_urls;;
        save_status prefix "success"
          (success_message "Carousel" "manual" media_id permalink);;
        name ← require "name" (cfg_name cfg);
        notify_publish_success name "carousel";;
        mret (Published media_id permalink)
  end.

Definition publish_selected_reel (cfg : config) (selected_video_url : option string)
    (caption : option string) (opts : options) : M published :=
  let prefix := cfg_state_prefix cfg in
  _cfg_token_igid cfg;;
  cap ← (if truthy_str caption then mret (default "" caption)
         else peek_then_commit_caption cfg);
  save_status prefix "running" "Uploading video file...";;
  creation_id ← upload_reel selected_video_url cfg cap (opt_hide_likes opts);
  '(token, _) ← _cfg_token_igid cfg;
  save_status prefix "running" "Processing video (this may take a while)...";;
  '(success, resp) ← wait_until_ready creation_id token;
  if negb success
  then raise (RuntimeError ("Reel container " +:+ creation_id
                            +:+ " failed readiness. Info: " +:+ pr_repr resp))
  else
    save_status prefix "running" "Publishing reel...";;
    '(media_id, token) ← publish_creation creation_id cfg;
    (if String.eqb (opt_first_comment opts) "" then mret tt
     else save_status prefix "running" "Posting first comment...";;
          post_comment media_id (opt_first_comment opts) cfg);;
    permalink ← fetch_permalink media_id token;
    match selected_video_url with
    | Some u => mark_video_used cfg u
    | None => load_used_list (cfg_state_prefix cfg);;
              raise (no_attribute "NoneType" "split")
    end;;
    save_status prefix "success" (success_message "Reel" "manual" media_id permalink);;
    name ← require "name" (cfg_name cfg);
    notify_publish_success name "reel";;
    mret (Published media_id permalink).

(** ** Random selection for scheduled runs *)

Definition catalog (cfg : config) (k : kind) : list string :=
  match k with
  | Image => image_catalog (default 10000 (cfg_max_images cfg))
  | Video => video_catalog (default 200 (cfg_max_images cfg))
  end.

Definition used_path (k : kind) (prefix : string) : string :=
  match k with
  | Image => image_used_path prefix
  | Video => video_used_path prefix
  end.

Definition load_used (k : kind) (prefix : string) : M (list string) :=
  match k with
  | Image => image_used_list prefix
  | Video => load_used_list prefix
  end.

Definition save_used (k : kind) (prefix : string) (used : list string) (sync : bool)
  : M unit :=
  match k with
  | Image => save_image_used_list prefix used sync
  | Video => save_used_list prefix used sync
  end.

(** Step 5 of [get_random_candidate]: the URL of the drawn file name. *)
Definition candidate_url (cfg : config) (k : kind) (selected_filename : string) : string :=
  match k with
  | Image => _norm_base (cfg_base_url cfg) +:+ "/"
             +:+ encode_random_image (cfg_state_prefix cfg) selected_filename
  | Video => _norm_base (cfg_video_base_url cfg) +:+ "/"
             +:+ PyStr.quote "()" selected_filename
  end.

(** The [while attempts < max_check_attempts] loop; [budget] is what is
    left of the 50 attempts. *)
Fixpoint probe_loop (cfg : config) (k : kind) (budget : nat) (unused : list string)
  : M (option candidate) :=
  match budget with
  | O => mret None
  | S b =>
      match unused with
      | [] => mret None
      | _ =>
          n ← ext (fun E n => e_choice E n) E;
          let selected_filename := nth (n mod length unused)%nat unused "" in
          let url := candidate_url cfg k selected_filename in
          found ← check_content_exists url;
          if found : bool then mret (Some (Candidate url selected_filename))
          else probe_loop cfg k b (remove_first selected_filename unused)
      end
  end.

Definition max_check_attempts : nat := 50.

Definition get_random_candidate (cfg : config) (k : kind) : M (option candidate) :=
  let prefix := cfg_state_prefix cfg in
  let items := catalog cfg k in
  used_l ← load_used k prefix;
  let used_set : gset string := list_to_set used_l in
  let unused := filter (fun x => x ∉ used_set) items in
  unused ← match unused with
           | [] => require "name" (cfg_name cfg);;
                   save_used k prefix [] true;;
                   mret items
           | _ => mret unused
           end;
  match unused with
  | [] => mret None
  | _ => probe_loop cfg k max_check_attempts unused
  end.

(** ** Single account runner *)

Definition hide_likes : bool := true.
Definition first_comment : string := "Follow for more daily content! 🚀🔥".

(** What a run has selected. *)
Inductive selection : Type :=
| SelImages (imgs : list string)
| SelVideo (vid_cand : string).

(** A run that has published: its selection, the media id and the token. *)
Record staged := Staged { st_sel : selection; st_media_id : string; st_token : string }.

Definition select_random_images (cfg : config) : M (list string) :=
  let count := default 1 (cfg_slides_per_post cfg) in
  cands ← mapM (fun _ => get_random_candidate cfg Image) (py_range 0 count);
  let selected_urls := dedup_first (omap (fmap cand_url) cands) in
  match selected_urls with
  | [] => raise (RuntimeError "No random images available.")
  | _ => mret selected_urls
  end.

(** One turn of the upload loop of the carousel branch. *)
Definition upload_and_verify (cfg : config) (total : Z) (iu : Z * string) : M string :=
  let prefix := cfg_state_prefix cfg in
  save_status prefix "running" (progress "Uploading image" (fst iu) total);;
  cid ← upload_image (snd iu) cfg;
  '(token, _) ← _cfg_token_igid cfg;
  save_status prefix "running" (progress "Verifying image" (fst iu) total);;
  '(success, resp) ← wait_until_ready cid token;
  if success : bool then mret cid
  else raise (RuntimeError ("Media container " +:+ cid
                            +:+ " failed readiness. Info: " +:+ pr_repr resp)).

(** The carousel branch up to and including [publish_creation]. *)
Definition carousel_until_publish (cfg : config) (mode : string) : M staged :=
  let prefix := cfg_state_prefix cfg in
  imgs ← (if String.eqb mode "schedule" then select_random_images cfg
          else next_images cfg);
  cap ← next_caption cfg;
  child_ids ← mapM (upload_and_verify cfg (Z.of_nat (length imgs))) (enumerate1 imgs);
  save_status prefix "running" "Creating carousel...";;
  '(creation_id, _) ← create_carousel child_ids cap cfg hide_likes;
  save_status prefix "running" "Publishing carousel...";;
  '(media_id, token) ← publish_creation creation_id cfg;
  mret (Staged (SelImages imgs) media_id token).

Definition next_video_shim (cfg : config) : M (option string) :=
  res ← video_candidates cfg 1 1 false;
  mret (item_url <$> head (ls_items res)).

(** The reel branch up to and including [publish_creation]. *)
Definition reel_until_publish (cfg : config) (mode : string) : M staged :=
  let prefix := cfg_state_prefix cfg in
  save_status prefix "running" "Selecting video...";;
  vid_cand ← (if String.eqb mode "schedule"
              then cand ← get_random_candidate cfg Video; mret (cand_url <$> cand)
              else
                v ← next_video_shim cfg;
                match v with
                | Some _ => mret v
                | None => require "name" (cfg_name cfg);;
                          save_used_list prefix [] true;;
                          next_video_shim cfg
                end);
  match vid_cand with
  | None => raise (RuntimeError "No content available")
  | Some vid =>
      cap ← next_caption cfg;
      save_status prefix "running" "Uploading video...";;
      creation_id ← upload_reel (Some vid) cfg cap hide_likes;
      '(token, _) ← _cfg_token_igid cfg;
      save_status prefix "running" "Processing video...";;
      '(success, resp) ← wait_until_ready creation_id token;
      if negb success
      then raise (RuntimeError ("Reel container " +:+ creation_id
                                +:+ " failed readiness. Info: " +:+ pr_repr resp))
      else
        save_status prefix "running" "Publishing reel...";;
        '(media_id, token) ← publish_creation creation_id cfg;
        mret (Staged (SelVideo vid) media_id token)
  end.

(** Selection, upload, verification, assembly and publish: every step of
    the [try] block that comes before the comment. *)
Definition run_until_publish (cfg : config) (mode : string) : M staged :=
  ty ← require "type" (cfg_type cfg);
  if String.eqb ty "carousel" then carousel_until_publish cfg mode
  else reel_until_publish cfg mode.

(** The rest of the [try] block: comment, permalink, marking, final
    status and notification. *)
Definition run_after_publish (cfg : config) (mode : string) (st : staged)
  : M (option published) :=
  let prefix := cfg_state_prefix cfg in
  (if String.eqb first_comment "" then mret tt
   else post_comment (st_media_id st) first_comment cfg);;
  permalink ← fetch_permalink (st_media_id st) (st_token st);
  (if String.eqb mode "schedule"
   then match st_sel st with
        | SelImages imgs => mark_images_used cfg imgs
        | SelVideo vid_cand => mark_video_used cfg vid_cand
        end
   else mret tt);;
  let what := match st_sel st with SelImages _ => "Carousel" | SelVideo _ => "Reel" end in
  let media_type := match st_sel st with SelImages _ => "carousel" | SelVideo _ => "reel" end in
  save_status prefix "success" (success_message what mode (st_media_id st) permalink);;
  name ← require "name" (cfg_name cfg);
  notify_publish_success name media_type;;
  mret (Some (Published (st_media_id st) permalink)).

Definition run_account (cfg : config) (mode : string) : M (option published) :=
  let prefix := cfg_state_prefix cfg in
  save_status prefix "running" ("Starting automation (" +:+ mode +:+ ")...");;
  try_except (st ← run_until_publish cfg mode; run_after_publish cfg mode st)
    (fun e =>
       save_status prefix "error" (exn_str e);;
       notify_publish_failure (default "Unknown" (cfg_name cfg)) (exn_str e);;
       mret None).

End Runner.

(* ===================================================================== *)
(** * app.py: the publish endpoint *)
(* ===================================================================== *)

(** The JSON body of a publish request, its fields well typed; a key that
    is absent or [null] is [None]. *)
Record payload := Payload {
  p_images : option (list string);
  p_video : option string;
  p_caption : option string;
  p_hide_likes : bool;
  p_first_comment : option string
}.

(** [{}]. *)
Definition empty_payload : payload := Payload None None None false None.

(** A truthy JSON body: an object, or a value of another Python type
    ([list], [str], [int], [float], [bool]). *)
Inductive json_body : Type :=
| JObject (p : payload)
| JOther (ty : string).

(** [request.get_json(silent=True) or {}]: a request without a readable
    body, or with a falsy one, is [None] and gives the empty object. *)
Definition body_or_empty (json : option json_body) : json_body :=
  default (JObject empty_payload) json.

(** An HTTP answer: the status code and the ["error"] or ["status"] text
    of its JSON body. *)
Record reply := Reply { code : Z; body : string }.

Definition in_range (idx : Z) (accounts : list config) : bool :=
  (0 <=? idx) && (idx <? Z.of_nat (length accounts)).

(** [publish(idx)]: the answer and the background task it spawned, if
    any. An exception the view raises is the server's answer 500. *)
Definition publish (accounts : list config) (idx : Z) (json : option json_body)
  : outcome (reply * option (config * json_body)) :=
  match (if in_range idx accounts then accounts !! Z.to_nat idx else None) with
  | None => Ok (Reply 400 "Invalid account index", None)
  | Some acct =>
      let payload := body_or_empty json in
      if bool_decide (cfg_type acct = Some "reel")
      then match payload with
           | JObject p =>
               if negb (truthy_str (p_video p))
               then Ok (Reply 400 "Missing 'video'", None)
               else Ok (Reply 202 "accepted", Some (acct, payload))
           | JOther ty => Raise (no_attribute ty "get")
           end
      else Ok (Reply 202 "accepted", Some (acct, payload))
  end.

(** [background_publish_task]: the thread [publish] spawns. *)
Definition background_publish_task (E : env) (acct : config) (payload : json_body)
  : M unit :=
  let prefix := cfg_state_prefix acct in
  save_status prefix "running" "Processing in background...";;
  try_except
    (match payload with
     | JOther ty => raise (no_attribute ty "get")
     | JObject payload =>
         let opts := Options (p_hide_likes payload)
                             (default "" (p_first_comment payload)) in
         if bool_decide (cfg_type acct = Some "carousel")
         then publish_selected_carousel E acct (default [] (p_images payload))
                                        (p_caption payload) opts;; mret tt
         else publish_selected_reel E acct (p_video payload) (p_caption payload) opts;;
              mret tt
     end)
    (fun e =>
       save_status prefix "error" (exn_str e);;
       notify_publish_failure (default "None" (cfg_name acct)) (exn_str e)).

(* ===================================================================== *)
(** * app.py: the scheduler *)
(* ===================================================================== *)

(** A fire time, and also the wall clock reading of a tick. *)
Record hm := HM { hour : Z; minute : Z }.

(** [schedule_settings.json]. *)
Record schedule_settings := ScheduleSettings {
  enabled : bool;
  morning : option hm;
  afternoon : option hm;
  evening : option hm;
  night : option hm
}.

Definition get_global_times_list (conf : schedule_settings) : list hm :=
  if negb (enabled conf) then []
  else omap id [morning conf; afternoon conf; evening conf; night conf].

(** One comma-separated part of [parse_account_times], already stripped:
    the fire time it adds, if any. *)
Definition parse_part (p : string) : option hm :=
  if PyStr.mem_char ":" p
  then match PyStr.split_on ":" p with
       | [a; b] =>
           match PyStr.py_int a, PyStr.py_int b with
           | Some h, Some m =>
               if (0 <=? h) && (h <=? 23) && (0 <=? m) && (m <=? 59)
               then Some (HM h m) else None
           | _, _ => None
           end
       | _ => None
       end
  else None.

Definition parse_account_times (time_str : option string) : option (list hm) :=
  match time_str with
  | None => None
  | Some s =>
      if String.eqb (PyStr.strip s) "" then None
      else
        let times := omap (fun p => parse_part (PyStr.strip p)) (PyStr.split_on "," s) in
        match times with
        | [] => None
        | _ => Some times
        end
  end.

Definition effective_times (acct : config) (global_times : list hm) : list hm :=
  match parse_account_times (cfg_schedule_times acct) with
  | Some times => times
  | None => global_times
  end.

(** The [for t in effective_times] match test. *)
Definition should_run (times : list hm) (now : hm) : bool :=
  existsb (fun t => (hour t =? hour now) && (minute t =? minute now)) times.

Definition schedule_on (acct : config) : bool :=
  bool_decide (cfg_schedule_enabled acct = Some "on").

Definition account_name (acct : config) : string := default "Unknown" (cfg_name acct).

Definition current_minute_abs (now : hm) : Z := hour now * 60 + minute now.

(** The scheduler state: the runs launched so far, oldest first, and
    [last_triggers]. *)
Record sched := Sched { launched : list config; last_triggers : gmap string Z }.

(** The body of the [for acct in accounts] loop of [run_schedule_loop]. *)
Definition tick_account (global_times : list hm) (now : hm) (st : sched) (acct : config)
  : sched :=
  if negb (schedule_on acct) then st
  else
    let name := account_name acct in
    if should_run (effective_times acct global_times) now
    then
      if bool_decide (last_triggers st !! name ≠ Some (current_minute_abs now))
      then Sched (launched st ++ [acct])
                 (<[name := current_minute_abs now]> (last_triggers st))
      else st
    else st.

(** One turn of the [while True] loop: what it read ([accounts], the
    global settings, the clock) and the state it leaves. *)
Definition tick (accounts : list config) (global_times : list hm) (now : hm) (st : sched)
  : sched :=
  foldl (tick_account global_times now) st accounts.

(** What one turn of the loop reads. *)
Record tick_input := TickInput {
  ti_now : hm;
  ti_accounts : list config;
  ti_settings : schedule_settings
}.

(** [run_schedule_loop] over the turns it makes; [last_triggers] starts
    empty. *)
Definition run_ticks (inputs : list tick_input) (st : sched) : sched :=
  foldl (fun st i => tick (ti_accounts i) (get_global_times_list (ti_settings i))
                          (ti_now i) st) st inputs.

Definition run_schedule_loop (inputs : list tick_input) : sched :=
  run_ticks inputs (Sched [] ∅).

(** [trigger_scheduled_posts]: every enabled account, whatever the time. *)
Definition trigger_scheduled_posts (accounts : list config) : list config :=
  filter (fun acct => schedule_on acct = true) accounts.

(* ===================================================================== *)
(** * Repeated calls and concrete scenarios *)
(* ===================================================================== *)

(** [n] consecutive calls of [m], results in call order. *)
Fixpoint call_n {A} (m : M A) (n : nat) : M (list A) :=
  match n with
  | O => mret []
  | S k => x ← m; xs ← call_n m k; mret (x :: xs)
  end.

(** The stored rotation state of one account, read without recovery. *)
Definition stored_index (w : world) (prefix key : string) : Z :=
  index_of_file (files w !! index_path prefix key).

Definition stored_used (w : world) (k : kind) (prefix : string) : list string :=
  used_of_file (files w !! used_path k prefix).

(** The status a query of the tracker shows. *)
Definition shown_status (w : world) (prefix : string) : string * string :=
  match files w !! status_path prefix with
  | Some (FStatus s m) => (s, m)
  | _ => ("never", "")
  end.

(** The world after one more external call. *)
Definition ticked (w : world) : world :=
  World (files w) (pushes w) (heads w) (polls w) (slept w) (notified w) (S (clock w)).

(** The launches made under one account name. *)
Definition named (name : string) (l : list config) : list config :=
  filter (fun b => account_name b = name) l.

(** Whether one turn of the loop launches [acct] from the state [st]. *)
Definition fires (global_times : list hm) (now : hm) (st : sched) (acct : config) : bool :=
  schedule_on acct
  && should_run (effective_times acct global_times) now
  && bool_decide (last_triggers st !! account_name acct ≠ Some (current_minute_abs now)).

(** What a poll decides: success for [FINISHED], failure for [ERROR], an
    exception for an answer the status line cannot read, and [None], poll
    again, for a failed poll or any other status. *)
Definition poll_verdict (p : poll_outcome) : option (outcome bool) :=
  match p with
  | PollFailed _ => None
  | PollAnswer resp =>
      if String.eqb (poll_status resp) "FINISHED" then Some (Ok true)
      else if String.eqb (poll_status resp) "ERROR" then Some (Ok false)
      else None
  | PollIllTyped ty attr => Some (Raise (no_attribute ty attr))
  end.

(** The world after [n] more polls of [cid], [k] of them followed by a
    sleep of [delay] seconds. *)
Definition polled (w : world) (cid : string) (n k : nat) (delay : Z) : world :=
  World (files w) (pushes w) (heads w) (repeat cid n ++ polls w)
        (slept w + Z.of_nat k * delay) (notified w) (clock w + n)%nat.

(** Writing a mirror field that is present to its local file. *)
Definition put_if {A} (path : string) (mk : A -> file) (o : option A)
    (fs : gmap string file) : gmap string file :=
  match o with
  | Some a => <[path := mk a]> fs
  | None => fs
  end.

(** The local files after the four conditional writes of
    [restore_from_remote_if_needed]. *)
Definition materialize (r : remote_state) (prefix : string) (fs : gmap string file)
  : gmap string file :=
  put_if (index_path prefix "image") FIndex (r_image_idx r)
    (put_if (index_path prefix "caption") FIndex (r_caption_idx r)
       (put_if (image_used_path prefix) FUsed (r_image_used r)
          (put_if (video_used_path prefix) FUsed (r_video_used r) fs))).

(** The used list a mirror entry holds for a kind. *)
Definition remote_used (k : kind) (r : remote_state) : option (list string) :=
  match k with
  | Image => r_image_used r
  | Video => r_video_used r
  end.

(** [x] is an entry the mirror holds for a prefix whose used-set files are
    both absent from [w]: recovery may bring it in. *)
Definition hydrated (E : env) (prefix : string) (w : world) (k : kind) (x : string)
  : Prop :=
  files w !! video_used_path prefix = None /\
  files w !! image_used_path prefix = None /\
  exists n r, e_remote E n prefix = Some r /\ x ∈ default [] (remote_used k r).

(** From [w] to [w'] no used-set file of the prefix was removed and no
    entry was added to a used-set, recovery from the mirror apart. *)
Definition used_kept (E : env) (prefix : string) (w w' : world) : Prop :=
  (forall k, files w' !! used_path k prefix = None ->
             files w !! used_path k prefix = None) /\
  (forall k x, x ∈ stored_used w' k prefix ->
               x ∈ stored_used w k prefix \/ hydrated E prefix w k x).

(** A computation that keeps the used-sets of a prefix, whatever it
    returns or raises. *)
Definition keeps {A} (E : env) (prefix : string) (m : M A) : Prop :=
  forall w, used_kept E prefix w (snd (m w)).

Module Examples.

Definition carousel_cfg : config :=
  Config (Some "acct") "acct" (Some "carousel") (Some "http://h/imgs/") None
         (Some "http://h/cap.txt") (Some 2) (Some 10) (Some "TOK") (Some "UID")
         (Some "on") (Some "07:30").

Definition reel_cfg : config :=
  Config (Some "clips") "clips" (Some "reel") None (Some "http://h/vids")
         (Some "http://h/cap.txt") None (Some 1) (Some "TOK") (Some "UID")
         (Some "on") None.

Definition finished : poll_outcome :=
  PollAnswer (PollResp (Some "FINISHED") None "{'status_code': 'FINISHED'}").

Definition in_progress : poll_outcome :=
  PollAnswer (PollResp (Some "IN_PROGRESS") None "{'status_code': 'IN_PROGRESS'}").

(** A platform on which every call succeeds at once; no mirror; the
    random generator draws the last element of the pool. *)
Definition all_fine : env :=
  Env (fun _ _ => None)
      (fun _ _ => inr ["first caption"; "second caption"])
      (fun _ _ => true)
      (fun _ => 1%nat)
      (fun _ => Some "secret")
      (fun _ _ => Ok "17")
      (fun _ _ _ _ => Ok "18")
      (fun _ _ => finished)
      (fun _ _ _ _ => Ok (Some "19", "{'id': '19'}"))
      (fun _ _ => Ok (Some "20", "{'id': '20'}"))
      (fun _ _ => "https://example.invalid/p/20").

(** The same platform, refusing every image upload. *)
Definition upload_fails : env :=
  Env (e_remote all_fine) (e_lines all_fine) (e_head all_fine) (e_choice all_fine)
      (e_getenv all_fine)
      (fun _ _ => Raise (RuntimeError "Instagram API Error 400: {}"))
      (e_upload_reel all_fine) (e_poll all_fine) (e_create_carousel all_fine)
      (e_publish all_fine) (e_permalink all_fine).

(** The same platform with containers that never leave processing. *)
Definition never_ready : env :=
  Env (e_remote all_fine) (e_lines all_fine) (e_head all_fine) (e_choice all_fine)
      (e_getenv all_fine) (e_upload_image all_fine) (e_upload_reel all_fine)
      (fun _ _ => in_progress) (e_create_carousel all_fine)
      (e_publish all_fine) (e_permalink all_fine).

(** The same platform with no asset behind any URL. *)
Definition nothing_exists : env :=
  Env (e_remote all_fine) (e_lines all_fine) (fun _ _ => false) (e_choice all_fine)
      (e_getenv all_fine) (e_upload_image all_fine) (e_upload_reel all_fine)
      (e_poll all_fine) (e_create_carousel all_fine)
      (e_publish all_fine) (e_permalink all_fine).

Definition mirror_entry : remote_state :=
  RemoteState (Some ["vid.mp4"]) None (Some 4) (Some 6).

(** A platform whose mirror holds [mirror_entry] for every prefix. *)
Definition with_mirror : env :=
  Env (fun _ _ => Some mirror_entry) (e_lines all_fine) (e_head all_fine)
      (e_choice all_fine) (e_getenv all_fine) (e_upload_image all_fine)
      (e_upload_reel all_fine) (e_poll all_fine) (e_create_carousel all_fine)
      (e_publish all_fine) (e_permalink all_fine).

Definition world_of (fs : gmap string file) : world := World fs [] [] [] 0 [] 0.

Definition empty_world : world := world_of ∅.

(** Two enabled accounts that share their name and fire at 07:30. *)
Definition twin_a : config :=
  Config (Some "twin") "twin_a" (Some "reel") None (Some "http://h/a") None None None
         None None (Some "on") (Some "07:30").

Definition twin_b : config :=
  Config (Some "twin") "twin_b" (Some "reel") None (Some "http://h/b") None None None
         None None (Some "on") (Some "07:30").

Definition default_settings : schedule_settings :=
  ScheduleSettings true (Some (HM 7 30)) (Some (HM 15 0)) (Some (HM 18 30))
                   (Some (HM 23 0)).

Definition at_0730 (accounts : list config) : tick_input :=
  TickInput (HM 7 30) accounts default_settings.

End Examples.

(* ===================================================================== *)
(** * app.py: time helpers *)
(* ===================================================================== *)

(** [ist_to_utc]: subtract 5:30, wrapping below midnight. *)
Definition ist_to_utc (hour minute : Z) : Z * Z :=
  let total_minutes := hour * 60 + minute - 330 in
  let total_minutes := if total_minutes <? 0 then total_minutes + 1440
                       else total_minutes in
  (total_minutes / 60, total_minutes mod 60).

(** Every character of [s] satisfies [p]. *)
Fixpoint all_chars (p : ascii -> bool) (s : string) : bool :=
  match s with
  | EmptyString => true
  | String c r => p c && all_chars p r
  end.

(** An ASCII character that is no white space. *)
Definition plain (c : ascii) : bool :=
  (N_of_ascii c <? 128)%N && negb (PyStr.is_space (N_of_ascii c)).

(** A decimal numeral: one digit or more. *)
Definition numeral (s : string) : Prop :=
  s <> "" /\ all_chars PyStr.is_digit s = true.

(** A time of day as [parse_account_times] accepts it. *)
Definition valid_time (t : hm) : Prop :=
  0 <= hour t <= 23 /\ 0 <= minute t <= 59.

(** The text of the failure notification of a run. *)
Definition notify_text (cfg : config) (e : exn) : string :=
  default "Unknown" (cfg_name cfg) +:+ ": publish failed: " +:+ exn_str e.

(** What the probe loop of one call did with the pool it was given,
    from the world [w0] to the world [w'] and the result [r]. The file
    names [probed], in probing order, number at most 50; none is probed
    more often than the pool holds it; each probe but that of a returned
    candidate was answered with "no such asset"; and without a candidate
    the budget or the pool is used up. *)
Definition probed_pool (E : env) (cfg : config) (k : kind) (pool : list string)
    (w0 w' : world) (r : option candidate) : Prop :=
  exists probed,
    heads w' = rev (candidate_url cfg k <$> probed) ++ heads w0 /\
    (length probed <= 50)%nat /\
    probed ⊆+ pool /\
    match r with
    | Some c =>
        exists failed,
          probed = failed ++ [cand_filename c] /\
          cand_url c = candidate_url cfg k (cand_filename c) /\
          (forall f, f ∈ failed ->
                     exists n, e_head E n (candidate_url cfg k f) = false) /\
          (exists n, e_head E n (cand_url c) = true)
    | None =>
        (forall f, f ∈ probed ->
                   exists n, e_head E n (candidate_url cfg k f) = false) /\
        (length probed = 50%nat \/ probed ≡ₚ pool)
    end.

(* ===================================================================== *)
(** * The local files of an account *)
(* ===================================================================== *)

(** The five files the code keeps for a state prefix. *)
Definition artifact (prefix path : string) : Prop :=
  path = status_path prefix \/
  path = index_path prefix "caption" \/
  path = index_path prefix "image" \/
  path = video_used_path prefix \/
  path = image_used_path prefix.

(** From [w] to [w'] nothing happened outside the account of [prefix]:
    every path that is not one of its five files holds what it held, no
    file was removed, and every mirror push started is one for
    [prefix]. *)
Definition confined (prefix : string) (w w' : world) : Prop :=
  (forall path, ~ artifact prefix path -> files w' !! path = files w !! path) /\
  (forall path, is_Some (files w !! path) -> is_Some (files w' !! path)) /\
  (exists l, pushes w' = l ++ pushes w /\ Forall (eq prefix) l).

(** A computation that stays within the account of [prefix], whatever it
    returns or raises. *)
Definition within {A} (prefix : string) (m : M A) : Prop :=
  forall w, confined prefix w (snd (m w)).

(** A computation that leaves the video used-set file of [prefix] as it
    is, once the file exists. *)
Definition spares_video {A} (prefix : string) (m : M A) : Prop :=
  forall w, is_Some (files w !! video_used_path prefix) ->
            files (snd (m w)) !! video_used_path prefix
            = files w !! video_used_path prefix.

(* ===================================================================== *)
(** * sync.py: the remote mirror *)
(* ===================================================================== *)

Module Sync.

(** The record of the bin: one entry per state prefix. *)
Abbreviation bin := (gmap string remote_state).

(** What [requests.get] comes back with: an exception, or an answer with
    its status code and its body. The body is [None] when [r.json()]
    raises, and otherwise holds the ["record"] key, a dict of entries, when
    the key is there. *)
Inductive answer : Type :=
| Unreachable
| Answered (status_code : Z) (json : option (option bin)).

(** A [PUT] request: its URL and its JSON body. *)
Record put := Put { put_url : string; put_json : bin }.

Definition api : string := "https://api.jsonbin.io/v3/b/".

(** [get_remote_config]: [None] stands for the pair [(None, None)]. *)
Definition get_remote_config (getenv : string -> option string)
  : option (string * string) :=
  let key := getenv "JSONBIN_KEY" in
  let bin_id := getenv "JSONBIN_ID" in
  if negb (truthy_str key) || negb (truthy_str bin_id) then None
  else Some (default "" key, default "" bin_id).

(** [load_remote_state(prefix)], given what the [GET] of a URL answers. *)
Definition load_remote_state (getenv : string -> option string)
    (get : string -> answer) (prefix : string) : option remote_state :=
  match get_remote_config getenv with
  | None => None
  | Some (key, bin_id) =>
      match get (api +:+ bin_id) with
      | Unreachable => None
      | Answered status_code json =>
          if status_code =? 200
          then match json with
               | Some record => default ∅ record !! prefix
               | None => None
               end
          else None
      end
  end.

(** [save_remote_state(prefix, state_data)]: the [PUT] it sends, if it
    sends one. The answer to the [PUT] is only printed. *)
Definition save_remote_state (getenv : string -> option string)
    (get : string -> answer) (prefix : string) (state_data : remote_state)
  : option put :=
  match get_remote_config getenv with
  | None => None
  | Some (key, bin_id) =>
      match get (api +:+ bin_id +:+ "/latest") with
      | Unreachable => None
      | Answered status_code json =>
          let full_data :=
            if status_code =? 200
            then match json with
                 | Some record => Some (default ∅ record)
                 | None => None
                 end
            else Some ∅ in
          match full_data with
          | Some full_data => Some (Put (api +:+ bin_id) (<[prefix := state_data]> full_data))
          | None => None
          end
      end
  end.

(** [push_state_bg(prefix)] over the local files [fs]. *)
Definition push_state_bg (getenv : string -> option string) (get : string -> answer)
    (fs : gmap string file) (prefix : string) : option put :=
  save_remote_state getenv get prefix (get_full_local_state fs prefix).

(** A bin that answers every [GET] with the record [b]. *)
Definition serving (b : bin) : string -> answer :=
  fun _ => Answered 200 (Some (Some b)).

End Sync.

(* ===================================================================== *)
(** * Properties: the monad and the state store *)
(* ===================================================================== *)

Ltac munfold :=
  unfold mbind, M_bind, bind, mret, M_ret, ret, raise, try_except, write_file,
    read_file, exists_file, ext, start_push, sleep, log_head, log_poll,
    log_notify, set_files in *.

Lemma bind_ok {A B} (m : M A) (f : A -> M B) (w w' : world) (a : A) :
  m w = (Ok a, w') -> (x ← m; f x) w = f a w'.
Proof. intros H. unfold mbind, M_bind, bind. by rewrite H. Qed.

Lemma bind_raise {A B} (m : M A) (f : A -> M B) (w w' : world) (e : exn) :
  m w = (Raise e, w') -> (x ← m; f x) w = (Raise e, w').
Proof. intros H. unfold mbind, M_bind, bind. by rewrite H. Qed.

(** A stored pointer is read back without any recovery attempt. *)
Lemma load_last_index_present (E : env) (prefix key : string) (w : world) (n : Z) :
  files w !! index_path prefix key = Some (FIndex n) ->
  load_last_index E prefix key w = (Ok n, w).
Proof.
  intros H. unfold load_last_index, restore_unless. munfold. rewrite H.
  rewrite bool_decide_eq_true_2 by eauto. simpl. by rewrite H.
Qed.

Lemma save_last_index_sync (prefix key : string) (idx : Z) (w : world) :
  save_last_index prefix key idx true w
  = (Ok tt, World (<[index_path prefix key := FIndex idx]> (files w))
                  (prefix :: pushes w) (heads w) (polls w) (slept w)
                  (notified w) (clock w)).
Proof. reflexivity. Qed.

Lemma fetch_lines_ok (E : env) (url : string) (lines : list string) (w : world) :
  e_lines E (clock w) url = inr lines ->
  fetch_lines E url w = (Ok lines, ticked w).
Proof. intros H. unfold fetch_lines. munfold. by rewrite H. Qed.

(* ===================================================================== *)
(** * Properties: URL encoding *)
(* ===================================================================== *)

Lemma app_cons (x : ascii) (a b : string) : String x a +:+ b = String x (a +:+ b).
Proof. reflexivity. Qed.

Lemma app_nil (b : string) : "" +:+ b = b.
Proof. reflexivity. Qed.

Lemma append_assoc (a b c : string) : (a +:+ b) +:+ c = a +:+ (b +:+ c).
Proof. induction a as [|x a IH]; [done | by rewrite !app_cons, IH]. Qed.

Lemma quote_app safe (a b : string) :
  PyStr.quote safe (a +:+ b) = PyStr.quote safe a +:+ PyStr.quote safe b.
Proof.
  induction a as [|x a IH]; [done |].
  rewrite app_cons. simpl. by rewrite IH, append_assoc.
Qed.

Lemma quote_uint safe (d : uint) :
  PyStr.quote safe (NilEmpty.string_of_uint d) = NilEmpty.string_of_uint d.
Proof. induction d; simpl; try done; by rewrite IHd. Qed.

Lemma quote_str_Z safe (n : Z) : PyStr.quote safe (PyStr.str_Z n) = PyStr.str_Z n.
Proof.
  unfold PyStr.str_Z, NilZero.string_of_int, NilZero.string_of_uint.
  destruct (Z.to_int n) as [d | d]; destruct d; simpl; try done;
    by rewrite quote_uint.
Qed.

Lemma generic_is_quirk (n : Z) : generic_encoding (_image_name_for n) = quirk_encoding n.
Proof.
  unfold generic_encoding, _image_name_for, quirk_encoding.
  rewrite !quote_app, quote_str_Z. reflexivity.
Qed.

Lemma span_digits_uint (d : uint) (c : ascii) (rest : string) :
  PyStr.is_digit c = false ->
  PyStr.span_digits (NilEmpty.string_of_uint d +:+ String c rest)
  = (NilEmpty.string_of_uint d, String c rest).
Proof.
  intros Hc. induction d; simpl; rewrite ?app_cons, ?app_nil; simpl;
    try (rewrite IHd; reflexivity).
  by rewrite Hc.
Qed.

Lemma str_Z_pos (p : positive) :
  PyStr.str_Z (Z.pos p) = NilEmpty.string_of_uint (Pos.to_uint p).
Proof.
  unfold PyStr.str_Z, NilZero.string_of_int, NilZero.string_of_uint. simpl.
  pose proof (Unsigned.to_uint_nonnil p) as Hn.
  destruct (Pos.to_uint p); try done.
Qed.

Lemma search_image_name (p : positive) :
  PyStr.search_paren_digits (_image_name_for (Z.pos p)) = Some (PyStr.str_Z (Z.pos p)).
Proof.
  unfold _image_name_for. rewrite str_Z_pos.
  rewrite !app_cons, app_nil. simpl.
  rewrite span_digits_uint by reflexivity.
  pose proof (Unsigned.to_uint_nonnil p) as Hn.
  destruct (Pos.to_uint p); try done.
Qed.

Lemma int_of_digits_str_Z (p : positive) :
  PyStr.int_of_digits (PyStr.str_Z (Z.pos p)) = Some (Z.pos p).
Proof.
  rewrite str_Z_pos. unfold PyStr.int_of_digits.
  rewrite NilEmpty.usu. simpl. unfold Z.of_uint.
  by rewrite Unsigned.of_to.
Qed.

(** C10. For every image index [n >= 1] the hand-built encoding of the
    quirk branch, [img%20(n).jpg], is the generic percent-encoding
    [quote("img (n).jpg", safe="()")]; hence the two branches selected by
    the ["ruthless"] test build the same encoding in [next_images] and in
    [get_random_candidate], and both agree with the preview, which only
    has the generic branch. *)
Theorem encoding_branches_agree (prefix : string) (n : Z) :
  1 <= n ->
  quirk_encoding n = PyStr.quote "()" (_image_name_for n) /\
  encode_next_image prefix n = encode_preview_image (_image_name_for n) /\
  encode_random_image prefix (_image_name_for n) = encode_preview_image (_image_name_for n).
Proof.
  intros Hn. destruct n as [|p|p]; try lia.
  pose proof (generic_is_quirk (Z.pos p)) as Hg. unfold generic_encoding in Hg.
  unfold encode_next_image, encode_random_image, encode_preview_image, generic_encoding.
  rewrite search_image_name, int_of_digits_str_Z. simpl default.
  destruct (is_ruthless prefix); auto.
Qed.

Lemma encoding_branches_agree_witness :
  1 <= 12 /\ quirk_encoding 12 = "img%20(12).jpg" /\
  encode_random_image "Ruthless_b" (_image_name_for 12)
  = encode_preview_image (_image_name_for 12).
Proof.
  split; [lia |]. split; [reflexivity |].
  apply (encoding_branches_agree "Ruthless_b" 12). lia.
Defined.

(* ===================================================================== *)
(** * Properties: sequential selection *)
(* ===================================================================== *)

(** The URL [next_images] builds for the virtual index [n]. *)
Lemma next_image_url (prefix : string) (n : Z) :
  encode_next_image prefix n = PyStr.quote "()" (_image_name_for n).
Proof.
  unfold encode_next_image. destruct (is_ruthless prefix); [| done].
  symmetry. apply generic_is_quirk.
Qed.

(** C6. With [slides_per_post = 2], [max_images = 10] and the stored image
    pointer at 8, one call of [next_images] returns the URLs of the virtual
    indices 9 and 10, writes nothing but the image pointer, and leaves it
    at 10, which is 0 modulo 10; the following call returns the URLs of
    the indices 1 and 2. *)
Theorem next_images_wraps_after_ten (E : env) (cfg : config) (w : world) :
  let prefix := cfg_state_prefix cfg in
  let url n := _norm_base (cfg_base_url cfg) +:+ "/"
               +:+ PyStr.quote "()" (_image_name_for n) in
  cfg_slides_per_post cfg = Some 2 ->
  cfg_max_images cfg = Some 10 ->
  _norm_base (cfg_base_url cfg) <> "" ->
  files w !! index_path prefix "image" = Some (FIndex 8) ->
  exists w1 w2,
    next_images E cfg w = (Ok [url 9; url 10], w1) /\
    files w1 = <[index_path prefix "image" := FIndex 10]> (files w) /\
    stored_index w1 prefix "image" mod 10 = 10 mod 10 /\
    next_images E cfg w1 = (Ok [url 1; url 2], w2) /\
    stored_index w2 prefix "image" = 2.
Proof.
  intros prefix url Hs Hm Hb Hi.
  assert (Hbase : String.eqb (_norm_base (cfg_base_url cfg)) "" = false)
    by (by apply String.eqb_neq).
  eexists _, _. split; [| split; [| split; [| split]]].
  - unfold next_images. rewrite Hs, Hm. simpl default.
    erewrite bind_ok by (apply load_last_index_present; exact Hi).
    rewrite Hbase. change (py_range 1 (2 + 1)) with [1; 2].
    unfold mapM, py_mod. simpl Z.eqb. cbv iota.
    munfold. simpl. rewrite !next_image_url. reflexivity.
  - reflexivity.
  - unfold stored_index. simpl. by rewrite lookup_insert_eq.
  - unfold next_images. rewrite Hs, Hm. simpl default.
    erewrite bind_ok
      by (apply load_last_index_present; simpl; apply lookup_insert_eq).
    rewrite Hbase. change (py_range 1 (2 + 1)) with [1; 2].
    unfold mapM, py_mod. simpl Z.eqb. cbv iota.
    munfold. simpl. rewrite !next_image_url. reflexivity.
  - unfold stored_index. simpl. by rewrite lookup_insert_eq.
Qed.

Lemma next_images_wraps_after_ten_witness :
  exists w1 w2,
    next_images Examples.all_fine Examples.carousel_cfg
      (Examples.world_of {[ "acct_image.json" := FIndex 8 ]})
    = (Ok ["http://h/imgs/img%20(9).jpg"; "http://h/imgs/img%20(10).jpg"], w1) /\
    files w1 = <["acct_image.json" := FIndex 10]> {[ "acct_image.json" := FIndex 8 ]} /\
    stored_index w1 "acct" "image" mod 10 = 10 mod 10 /\
    next_images Examples.all_fine Examples.carousel_cfg w1
    = (Ok ["http://h/imgs/img%20(1).jpg"; "http://h/imgs/img%20(2).jpg"], w2) /\
    stored_index w2 "acct" "image" = 2.
Proof.
  exact (next_images_wraps_after_ten Examples.all_fine Examples.carousel_cfg
           (Examples.world_of {[ "acct_image.json" := FIndex 8 ]})
           eq_refl eq_refl ltac:(discriminate) eq_refl).
Defined.


(** One call of [next_caption] on a stored pointer: the caption at the
    pointer reduced modulo the list length, and the pointer plus one,
    unreduced, written back. *)
Lemma next_caption_step (E : env) (cfg : config) (url : string) (lines : list string)
    (start : Z) (w : world) :
  cfg_caption_url cfg = Some url ->
  e_lines E (clock w) url = inr lines ->
  lines <> [] ->
  files w !! index_path (cfg_state_prefix cfg) "caption" = Some (FIndex start) ->
  next_caption E cfg w
  = (Ok (nth (Z.to_nat (start mod Z.of_nat (length lines))) lines ""),
     World (<[index_path (cfg_state_prefix cfg) "caption" := FIndex (start + 1)]> (files w))
           (cfg_state_prefix cfg :: pushes w) (heads w) (polls w) (slept w)
           (notified w) (S (clock w))).
Proof.
  intros Hu Hl Hne Hi. unfold next_caption. rewrite Hu. simpl require.
  erewrite bind_ok by reflexivity.
  rewrite (bind_ok _ _ _ _ _ (fetch_lines_ok E url lines w Hl)).
  destruct lines as [| l0 ls]; [done |].
  erewrite bind_ok by (apply load_last_index_present; exact Hi).
  rewrite (bind_ok _ _ _ _ _ (save_last_index_sync _ _ _ _)).
  reflexivity.
Qed.

(** C5, as the code has it. For a caption list of [K > 0] lines and a stored
    caption pointer [start], [N] consecutive calls of [next_caption] return the
    captions at [start, start+1, ...], each taken modulo [K]; the pointer
    stored after them is [start + N] itself, not reduced: the reduction
    modulo [K] happens when the pointer is used, so the next caption is the
    one at [(start + N) mod K]. *)
Theorem next_caption_sequence (E : env) (cfg : config) (url : string)
    (lines : list string) (N : nat) (start : Z) (w : world) :
  let K := Z.of_nat (length lines) in
  let path := index_path (cfg_state_prefix cfg) "caption" in
  cfg_caption_url cfg = Some url ->
  (forall n, e_lines E n url = inr lines) ->
  lines <> [] ->
  files w !! path = Some (FIndex start) ->
  exists w',
    call_n (next_caption E cfg) N w
    = (Ok (map (fun i => nth (Z.to_nat ((start + Z.of_nat i) mod K)) lines "") (seq 0 N)),
       w') /\
    files w' !! path = Some (FIndex (start + Z.of_nat N)) /\
    stored_index w' (cfg_state_prefix cfg) "caption" mod K = (start + Z.of_nat N) mod K.
Proof.
  intros K path Hu Hl Hne. revert start w.
  induction N as [| N IH]; intros start w Hi.
  - exists w. simpl. rewrite Z.add_0_r. unfold stored_index. fold path.
    by rewrite Hi.
  - pose proof (next_caption_step E cfg url lines start w Hu (Hl _) Hne Hi) as Hstep.
    set (w1 := World _ _ _ _ _ _ _) in Hstep.
    destruct (IH (start + 1) w1) as (w' & Hrun & Hfile & Hmod).
    { simpl. apply lookup_insert_eq. }
    exists w'. split; [| split].
    + cbn [call_n]. rewrite (bind_ok _ _ _ _ _ Hstep).
      rewrite (bind_ok _ _ _ _ _ Hrun).
      unfold mret, M_ret, ret. f_equal. f_equal. cbn [seq map].
      f_equal.
      * by rewrite Z.add_0_r.
      * rewrite <- seq_shift, map_map. apply map_ext. intros i.
        do 3 f_equal. lia.
    + rewrite Hfile. do 2 f_equal. lia.
    + rewrite Hmod. f_equal. lia.
Qed.

Lemma next_caption_sequence_witness :
  exists w',
    call_n (next_caption Examples.all_fine Examples.carousel_cfg) 3
           (Examples.world_of {[ "acct_caption.json" := FIndex 1 ]})
    = (Ok ["second caption"; "first caption"; "second caption"], w') /\
    files w' !! "acct_caption.json" = Some (FIndex 4) /\
    stored_index w' "acct" "caption" mod 2 = (1 + 3) mod 2.
Proof.
  exact (next_caption_sequence Examples.all_fine Examples.carousel_cfg
           "http://h/cap.txt" ["first caption"; "second caption"] 3 1
           (Examples.world_of {[ "acct_caption.json" := FIndex 1 ]})
           eq_refl (fun _ => eq_refl) ltac:(discriminate) eq_refl).
Defined.

(** C5, as the specification words it, fails: from the pointer 1 over two
    captions, one call stores 2, which is not [(1 + 1) mod 2]. *)
Lemma next_caption_pointer_not_reduced :
  let w' := snd (call_n (next_caption Examples.all_fine Examples.carousel_cfg) 1
                        (Examples.world_of {[ "acct_caption.json" := FIndex 1 ]})) in
  stored_index w' "acct" "caption" = 2 /\
  stored_index w' "acct" "caption" <> (1 + 1) mod 2.
Proof. split; [reflexivity | discriminate]. Qed.

(* ===================================================================== *)
(** * Properties: readiness polling *)
(* ===================================================================== *)

Lemma polled_zero (w : world) (cid : string) (delay : Z) : polled w cid 0 0 delay = w.
Proof.
  unfold polled. destruct w. simpl. f_equal; [lia | apply Nat.add_0_r].
Qed.

(** One turn of the loop on a poll that decides nothing. *)
Lemma wait_loop_continue (E : env) (cid : string) (delay : Z) (n : nat) (w : world) :
  poll_verdict (e_poll E (clock w) cid) = None ->
  wait_loop E cid delay (S n) w
  = wait_loop E cid delay n
      (World (files w) (pushes w) (heads w) (cid :: polls w) (slept w + delay)
             (notified w) (S (clock w))).
Proof.
  intros Hv. cbn [wait_loop]. unfold poll_verdict in Hv. munfold. simpl.
  destruct (e_poll E (clock w) cid) as [err | resp | ty attr]; [done | | done].
  destruct (String.eqb (poll_status resp) "FINISHED"); [done |].
  destruct (String.eqb (poll_status resp) "ERROR"); [done |]. done.
Qed.

(** One turn of the loop on a poll that decides. *)
Lemma wait_loop_decide (E : env) (cid : string) (delay : Z) (n : nat) (w : world)
    (resp : poll_resp) (b : bool) :
  e_poll E (clock w) cid = PollAnswer resp ->
  poll_verdict (PollAnswer resp) = Some (Ok b) ->
  wait_loop E cid delay (S n) w
  = (Ok (b, resp),
     World (files w) (pushes w) (heads w) (cid :: polls w) (slept w)
           (notified w) (S (clock w))).
Proof.
  intros Hp Hv. cbn [wait_loop]. unfold poll_verdict in Hv. munfold. simpl.
  rewrite Hp.
  destruct (String.eqb (poll_status resp) "FINISHED"); [by inversion Hv |].
  destruct (String.eqb (poll_status resp) "ERROR"); [by inversion Hv | done].
Qed.

Lemma repeat_snoc_cons (cid : string) (n : nat) (l : list string) :
  repeat cid n ++ cid :: l = repeat cid (S n) ++ l.
Proof.
  induction n as [| n IH]; [done |]. simpl. by rewrite IH.
Qed.

(** The loop returns the first verdict, after as many polls as it took and
    a sleep of [delay] seconds after every earlier poll. *)
Lemma wait_loop_first_verdict (E : env) (cid : string) (delay : Z) (n k : nat)
    (w : world) (resp : poll_resp) (b : bool) :
  (k < n)%nat ->
  (forall j, (j < k)%nat -> poll_verdict (e_poll E (clock w + j) cid) = None) ->
  e_poll E (clock w + k) cid = PollAnswer resp ->
  poll_verdict (PollAnswer resp) = Some (Ok b) ->
  wait_loop E cid delay n w = (Ok (b, resp), polled w cid (S k) k delay).
Proof.
  revert n w. induction k as [| k IH]; intros n w Hk Hnone Hp Hv.
  - destruct n as [| n]; [lia |]. rewrite Nat.add_0_r in Hp.
    rewrite (wait_loop_decide E cid delay n w resp b Hp Hv).
    unfold polled. simpl. do 2 f_equal; [lia | lia].
  - destruct n as [| n]; [lia |].
    rewrite wait_loop_continue
      by (specialize (Hnone 0%nat); rewrite Nat.add_0_r in Hnone; apply Hnone; lia).
    rewrite (IH n _) ; cycle 1.
    + lia.
    + intros j Hj. simpl. specialize (Hnone (S j)).
      replace (S (clock w + j)) with (clock w + S j)%nat by lia. apply Hnone. lia.
    + simpl. by replace (S (clock w + k)) with (clock w + S k)%nat by lia.
    + done.
    + unfold polled. simpl. f_equal. f_equal.
      * by rewrite repeat_snoc_cons.
      * lia.
      * lia.
Qed.

(** When no poll decides within the budget, the loop ends and the
    statement after it raises [NameError]. *)
Lemma wait_loop_exhausted (E : env) (cid : string) (delay : Z) (n : nat) (w : world) :
  (forall j, (j < n)%nat -> poll_verdict (e_poll E (clock w + j) cid) = None) ->
  wait_loop E cid delay n w = (Raise (NameError "last_resp"), polled w cid n n delay).
Proof.
  revert w. induction n as [| n IH]; intros w Hnone.
  - simpl. unfold raise. by rewrite polled_zero.
  - rewrite wait_loop_continue
      by (specialize (Hnone 0%nat); rewrite Nat.add_0_r in Hnone; apply Hnone; lia).
    rewrite IH.
    + unfold polled. simpl. f_equal. f_equal.
      * by rewrite repeat_snoc_cons.
      * lia.
      * lia.
    + intros j Hj. simpl. specialize (Hnone (S j)).
      replace (S (clock w + j)) with (clock w + S j)%nat by lia. apply Hnone. lia.
Qed.

(** With the default arguments: the first verdict among the first 600
    polls is returned, [FINISHED] as success and [ERROR] as failure, each
    with its response, after a sleep of 2 seconds per earlier poll. *)
Lemma wait_until_ready_first_verdict (E : env) (cid token : string) (k : nat)
    (w : world) (resp : poll_resp) (b : bool) :
  (k < 600)%nat ->
  (forall j, (j < k)%nat -> poll_verdict (e_poll E (clock w + j) cid) = None) ->
  e_poll E (clock w + k) cid = PollAnswer resp ->
  poll_verdict (PollAnswer resp) = Some (Ok b) ->
  wait_until_ready E cid token w = (Ok (b, resp), polled w cid (S k) k 2).
Proof.
  intros Hk. unfold wait_until_ready, wait_until_ready_with.
  apply wait_loop_first_verdict. by change (Z.to_nat 600) with 600%nat.
Qed.

(** C2, where the code departs from the specification. A container that is
    still [IN_PROGRESS] at each of the 600 polls makes [wait_until_ready]
    raise [NameError] (the name [last_resp] is bound nowhere) after 600
    polls and 1200 seconds of sleep: it does not return a failure. *)
Theorem wait_until_ready_exhaustion_raises :
  wait_until_ready Examples.never_ready "17" "secret" Examples.empty_world
  = (Raise (NameError "last_resp"), polled Examples.empty_world "17" 600 600 2).
Proof.
  unfold wait_until_ready, wait_until_ready_with.
  apply wait_loop_exhausted. intros j _. reflexivity.
Qed.

(* ===================================================================== *)
(** * Properties: recovery from the mirror *)
(* ===================================================================== *)

Lemma index_path_caption (prefix : string) :
  index_path prefix "caption" = prefix +:+ "_caption.json".
Proof. reflexivity. Qed.

Lemma index_path_image (prefix : string) :
  index_path prefix "image" = prefix +:+ "_image.json".
Proof. reflexivity. Qed.

(** Two artifacts of one prefix with different suffixes are different
    files. *)
Lemma suffix_neq (prefix a b : string) : a <> b -> prefix +:+ a <> prefix +:+ b.
Proof. intros Hne Heq. apply Hne. by apply (inj (String.app prefix)). Qed.

Ltac paths :=
  unfold video_used_path, image_used_path, status_path;
  rewrite ?index_path_caption, ?index_path_image;
  apply suffix_neq; discriminate.

Lemma video_neq_image (p : string) : video_used_path p <> image_used_path p.
Proof. paths. Qed.
Lemma video_neq_caption (p : string) : video_used_path p <> index_path p "caption".
Proof. paths. Qed.
Lemma video_neq_index (p : string) : video_used_path p <> index_path p "image".
Proof. paths. Qed.
Lemma video_neq_status (p : string) : video_used_path p <> status_path p.
Proof. paths. Qed.
Lemma image_neq_caption (p : string) : image_used_path p <> index_path p "caption".
Proof. paths. Qed.
Lemma image_neq_index (p : string) : image_used_path p <> index_path p "image".
Proof. paths. Qed.
Lemma image_neq_status (p : string) : image_used_path p <> status_path p.
Proof. paths. Qed.
Lemma caption_neq_index (p : string) : index_path p "caption" <> index_path p "image".
Proof. paths. Qed.

Lemma lookup_put_if_ne {A} (path k : string) (mk : A -> file) (o : option A)
    (fs : gmap string file) :
  path <> k -> put_if path mk o fs !! k = fs !! k.
Proof. intros Hne. destruct o; simpl; [by rewrite lookup_insert_ne | done]. Qed.

Lemma lookup_put_if_eq {A} (path : string) (mk : A -> file) (o : option A)
    (fs : gmap string file) :
  put_if path mk o fs !! path = match o with Some a => Some (mk a) | None => fs !! path end.
Proof. destruct o; simpl; [by rewrite lookup_insert_eq | done]. Qed.

Lemma materialize_video (r : remote_state) (p : string) (fs : gmap string file) :
  materialize r p fs !! video_used_path p
  = match r_video_used r with Some l => Some (FUsed l) | None => fs !! video_used_path p end.
Proof.
  unfold materialize.
  rewrite !lookup_put_if_ne
    by (apply not_eq_sym; first [apply video_neq_index | apply video_neq_caption
                                 | apply video_neq_image]).
  apply lookup_put_if_eq.
Qed.

Lemma materialize_image (r : remote_state) (p : string) (fs : gmap string file) :
  materialize r p fs !! image_used_path p
  = match r_image_used r with Some l => Some (FUsed l) | None => fs !! image_used_path p end.
Proof.
  unfold materialize.
  rewrite !lookup_put_if_ne
    by (apply not_eq_sym; first [apply image_neq_index | apply image_neq_caption]).
  rewrite lookup_put_if_eq. destruct (r_image_used r); [done |].
  apply lookup_put_if_ne, video_neq_image.
Qed.

Lemma materialize_caption (r : remote_state) (p : string) (fs : gmap string file) :
  materialize r p fs !! index_path p "caption"
  = match r_caption_idx r with
    | Some n => Some (FIndex n)
    | None => fs !! index_path p "caption"
    end.
Proof.
  unfold materialize.
  rewrite lookup_put_if_ne by (apply not_eq_sym, caption_neq_index).
  rewrite lookup_put_if_eq. destruct (r_caption_idx r); [done |].
  rewrite !lookup_put_if_ne; [done | apply video_neq_caption | apply image_neq_caption].
Qed.

Lemma materialize_index (r : remote_state) (p : string) (fs : gmap string file) :
  materialize r p fs !! index_path p "image"
  = match r_image_idx r with
    | Some n => Some (FIndex n)
    | None => fs !! index_path p "image"
    end.
Proof.
  unfold materialize.
  rewrite lookup_put_if_eq. destruct (r_image_idx r); [done |].
  rewrite !lookup_put_if_ne;
    [done | apply video_neq_index | apply image_neq_index | apply caption_neq_index].
Qed.

Lemma materialize_other (r : remote_state) (p k : string) (fs : gmap string file) :
  k <> video_used_path p -> k <> image_used_path p ->
  k <> index_path p "caption" -> k <> index_path p "image" ->
  materialize r p fs !! k = fs !! k.
Proof.
  intros H1 H2 H3 H4. unfold materialize. by rewrite !lookup_put_if_ne.
Qed.

(** Materializing the same entry again changes nothing. *)
Lemma materialize_idem (r : remote_state) (p : string) (fs : gmap string file) :
  materialize r p (materialize r p fs) = materialize r p fs.
Proof.
  apply map_eq. intros k.
  destruct (decide (k = video_used_path p)) as [-> | H1].
  { rewrite !materialize_video. by destruct (r_video_used r). }
  destruct (decide (k = image_used_path p)) as [-> | H2].
  { rewrite !materialize_image. by destruct (r_image_used r). }
  destruct (decide (k = index_path p "caption")) as [-> | H3].
  { rewrite !materialize_caption. by destruct (r_caption_idx r). }
  destruct (decide (k = index_path p "image")) as [-> | H4].
  { rewrite !materialize_index. by destruct (r_image_idx r). }
  by rewrite !materialize_other.
Qed.

(** Recovery does nothing once a used-set file exists. *)
Lemma restore_present (E : env) (prefix : string) (w : world) :
  is_Some (files w !! video_used_path prefix) \/
  is_Some (files w !! image_used_path prefix) ->
  restore_from_remote_if_needed E prefix w = (Ok tt, w).
Proof.
  intros H. unfold restore_from_remote_if_needed. munfold.
  destruct H as [H | H]; rewrite (bool_decide_eq_true_2 _ H); simpl; [done |].
  by rewrite orb_true_r.
Qed.

(** With both used-set files absent and an entry on the mirror, recovery
    writes the fields the entry has and starts no push. *)
Lemma restore_absent (E : env) (prefix : string) (w : world) (r : remote_state) :
  files w !! video_used_path prefix = None ->
  files w !! image_used_path prefix = None ->
  e_remote E (clock w) prefix = Some r ->
  restore_from_remote_if_needed E prefix w
  = (Ok tt, World (materialize r prefix (files w)) (pushes w) (heads w) (polls w)
                  (slept w) (notified w) (S (clock w))).
Proof.
  intros Hv Hi Hr. unfold restore_from_remote_if_needed, load_remote_state. munfold.
  rewrite Hv, Hi.
  rewrite !bool_decide_eq_false_2 by (intros [? ?]; discriminate). simpl.
  rewrite Hr. unfold materialize, when_present, save_used_list, save_image_used_list,
    save_last_index. munfold.
  by destruct r as [[?|] [?|] [?|] [?|]].
Qed.

(** With both used-set files absent and no entry to be had, recovery
    changes no file. *)
Lemma restore_unavailable (E : env) (prefix : string) (w : world) :
  files w !! video_used_path prefix = None ->
  files w !! image_used_path prefix = None ->
  e_remote E (clock w) prefix = None ->
  restore_from_remote_if_needed E prefix w = (Ok tt, ticked w).
Proof.
  intros Hv Hi Hr. unfold restore_from_remote_if_needed, load_remote_state. munfold.
  rewrite Hv, Hi.
  rewrite !bool_decide_eq_false_2 by (intros [? ?]; discriminate). simpl.
  by rewrite Hr.
Qed.

(** C7. With the local artifacts of a prefix absent and an entry on the
    mirror, [restore_from_remote_if_needed] materializes exactly the fields
    of the entry; running it a second time leaves the same local files;
    and neither run starts a push to the mirror. *)
Theorem restore_idempotent (E : env) (prefix : string) (r : remote_state) (w : world) :
  let w1 := snd (restore_from_remote_if_needed E prefix w) in
  let w2 := snd (restore_from_remote_if_needed E prefix w1) in
  files w !! video_used_path prefix = None ->
  files w !! image_used_path prefix = None ->
  files w !! index_path prefix "caption" = None ->
  files w !! index_path prefix "image" = None ->
  (forall n, e_remote E n prefix = Some r) ->
  files w2 = files w1 /\
  pushes w1 = pushes w /\ pushes w2 = pushes w /\
  files w1 !! video_used_path prefix = FUsed <$> r_video_used r /\
  files w1 !! image_used_path prefix = FUsed <$> r_image_used r /\
  files w1 !! index_path prefix "caption" = FIndex <$> r_caption_idx r /\
  files w1 !! index_path prefix "image" = FIndex <$> r_image_idx r.
Proof.
  intros w1 w2 Hv Hi Hc Hx Hr.
  assert (H1 : restore_from_remote_if_needed E prefix w
               = (Ok tt, World (materialize r prefix (files w)) (pushes w) (heads w)
                               (polls w) (slept w) (notified w) (S (clock w))))
    by (by apply restore_absent).
  subst w2 w1. rewrite H1. cbn [snd].
  set (w1 := World _ _ _ _ _ _ _).
  assert (H2 : files (snd (restore_from_remote_if_needed E prefix w1)) = files w1
               /\ pushes (snd (restore_from_remote_if_needed E prefix w1)) = pushes w).
  { destruct (files w1 !! video_used_path prefix) eqn:Hv1.
    { rewrite restore_present by (left; eauto). done. }
    destruct (files w1 !! image_used_path prefix) eqn:Hi1.
    { rewrite restore_present by (right; eauto). done. }
    rewrite (restore_absent E prefix w1 r Hv1 Hi1 (Hr _)). cbn [snd files pushes].
    split; [apply materialize_idem | done]. }
  destruct H2 as [H2 H3].
  repeat split; try done.
  - simpl. rewrite materialize_video, Hv. by destruct (r_video_used r).
  - simpl. rewrite materialize_image, Hi. by destruct (r_image_used r).
  - simpl. rewrite materialize_caption, Hc. by destruct (r_caption_idx r).
  - simpl. rewrite materialize_index, Hx. by destruct (r_image_idx r).
Qed.

Lemma restore_idempotent_witness :
  let w1 := snd (restore_from_remote_if_needed Examples.with_mirror "clips"
                   Examples.empty_world) in
  let w2 := snd (restore_from_remote_if_needed Examples.with_mirror "clips" w1) in
  files w2 = files w1 /\
  pushes w1 = [] /\ pushes w2 = [] /\
  files w1 !! "clips_video_used.json" = Some (FUsed ["vid.mp4"]) /\
  files w1 !! "clips_image_used.json" = None /\
  files w1 !! "clips_caption.json" = Some (FIndex 4) /\
  files w1 !! "clips_image.json" = Some (FIndex 6).
Proof.
  exact (restore_idempotent Examples.with_mirror "clips" Examples.mirror_entry
           Examples.empty_world eq_refl eq_refl eq_refl eq_refl (fun _ => eq_refl)).
Defined.

(* ===================================================================== *)
(** * Properties: random selection *)
(* ===================================================================== *)

(** Recovery never raises, probes nothing and starts no push; the files
    it leaves are those it found or those with the mirror entry
    materialized. *)
Lemma restore_effect (E : env) (prefix : string) (w : world) :
  exists w',
    restore_from_remote_if_needed E prefix w = (Ok tt, w') /\
    heads w' = heads w /\ pushes w' = pushes w /\
    (files w' = files w \/
     (files w !! video_used_path prefix = None /\
      files w !! image_used_path prefix = None /\
      exists r, e_remote E (clock w) prefix = Some r /\
                files w' = materialize r prefix (files w))).
Proof.
  destruct (files w !! video_used_path prefix) eqn:Hv.
  { exists w. rewrite restore_present by (left; rewrite Hv; eauto). auto. }
  destruct (files w !! image_used_path prefix) eqn:Hi.
  { exists w. rewrite restore_present by (right; rewrite Hi; eauto). auto. }
  destruct (e_remote E (clock w) prefix) as [r |] eqn:Hr.
  - eexists. rewrite (restore_absent E prefix w r Hv Hi Hr).
    repeat split. right. repeat split. exists r. by split.
  - exists (ticked w). rewrite (restore_unavailable E prefix w Hv Hi Hr). auto.
Qed.

(** Reading a used-set: the list the file holds once recovery, if it was
    due, has run. *)
Lemma load_used_effect (E : env) (k : kind) (prefix : string) (w : world) :
  exists w0,
    load_used E k prefix w = (Ok (stored_used w0 k prefix), w0) /\
    heads w0 = heads w /\ pushes w0 = pushes w /\
    (files w0 = files w \/
     (files w !! video_used_path prefix = None /\
      files w !! image_used_path prefix = None /\
      exists r, e_remote E (clock w) prefix = Some r /\
                files w0 = materialize r prefix (files w))).
Proof.
  assert (Hgen : forall path,
    exists w0,
      (present ← exists_file path; restore_unless E present prefix;;
       f ← read_file path; mret (used_of_file f)) w
      = (Ok (used_of_file (files w0 !! path)), w0) /\
      heads w0 = heads w /\ pushes w0 = pushes w /\
      (files w0 = files w \/
       (files w !! video_used_path prefix = None /\
        files w !! image_used_path prefix = None /\
        exists r, e_remote E (clock w) prefix = Some r /\
                  files w0 = materialize r prefix (files w)))).
  { intros path. erewrite bind_ok by reflexivity.
    unfold restore_unless.
    destruct (bool_decide (is_Some (files w !! path))).
    - exists w. erewrite bind_ok by reflexivity.
      erewrite bind_ok by reflexivity. auto.
    - destruct (restore_effect E prefix w) as (w0 & Hr & Hh & Hp & Hf).
      exists w0. rewrite (bind_ok _ _ _ _ _ Hr).
      erewrite bind_ok by reflexivity. auto. }
  destruct k; unfold load_used, image_used_list, load_used_list, stored_used, used_path;
    apply Hgen.
Qed.

Lemma remove_first_subset (s x : string) (l : list string) :
  x ∈ remove_first s l -> x ∈ l.
Proof.
  induction l as [| y l IH]; simpl; [done |].
  destruct (String.eqb s y); intros Hx.
  - apply elem_of_cons. by right.
  - apply elem_of_cons in Hx as [-> | Hx]; apply elem_of_cons; auto.
Qed.

(** The probe loop touches no file and starts no push; it probes at most
    [budget] URLs; what it returns is a file name of the pool whose URL
    answered the probe. *)
Lemma probe_loop_effect (E : env) (cfg : config) (k : kind) (budget : nat)
    (unused : list string) (w : world) :
  exists r w',
    probe_loop E cfg k budget unused w = (Ok r, w') /\
    files w' = files w /\ pushes w' = pushes w /\
    (length (heads w') <= length (heads w) + budget)%nat /\
    (forall c, r = Some c ->
       cand_filename c ∈ unused /\
       cand_url c = candidate_url cfg k (cand_filename c) /\
       exists n, e_head E n (cand_url c) = true).
Proof.
  revert unused w. induction budget as [| b IH]; intros unused w.
  { exists None, w. simpl. split; [done |]. split; [done |]. split; [done |].
    split; [lia | done]. }
  destruct unused as [| u0 us].
  { exists None, w. simpl. split; [done |]. split; [done |]. split; [done |].
    split; [lia | done]. }
  cbn [probe_loop]. set (unused := u0 :: us).
  erewrite bind_ok by reflexivity.
  set (sel := nth (e_choice E (clock w) mod length unused)%nat unused "").
  assert (Hsel : sel ∈ unused).
  { apply list_elem_of_In, nth_In, Nat.mod_upper_bound. done. }
  unfold check_content_exists.
  erewrite bind_ok by (erewrite bind_ok by reflexivity; reflexivity).
  cbn [clock files pushes heads polls slept notified].
  destruct (e_head E (S (clock w)) (candidate_url cfg k sel)) eqn:Hh.
  - eexists _, _. split; [reflexivity |]. cbn [files pushes heads].
    split; [done |]. split; [done |]. split; [simpl; lia |].
    intros c [= <-]. simpl. split; [done |]. split; [done |]. eauto.
  - match goal with |- context [probe_loop E cfg k b ?l ?w1] =>
      destruct (IH l w1) as (r & w' & Hrun & Hf & Hp & Hlen & Hc) end.
    exists r, w'. split; [exact Hrun |].
    cbn [files pushes heads] in Hf, Hp, Hlen. simpl in Hlen.
    split; [done |]. split; [done |]. split; [lia |].
    intros c Hrc. destruct (Hc c Hrc) as (Hin & Hu & Hn).
    split; [| by split]. by apply remove_first_subset in Hin.
Qed.

Lemma save_used_sync (k : kind) (prefix : string) (l : list string) (w : world) :
  save_used k prefix l true w
  = (Ok tt, World (<[used_path k prefix := FUsed l]> (files w)) (prefix :: pushes w)
                  (heads w) (polls w) (slept w) (notified w) (clock w)).
Proof. by destruct k. Qed.

Lemma filter_unused_nil (used : list string) (items : list string) :
  filter (fun x => x ∉ (list_to_set used : gset string)) items = [] ->
  forall x, x ∈ items -> x ∈ used.
Proof.
  intros Hnil x Hx.
  destruct (decide (x ∈ (list_to_set used : gset string))) as [Hin | Hout].
  - by apply elem_of_list_to_set in Hin.
  - assert (x ∈ filter (fun x => x ∉ (list_to_set used : gset string)) items)
      by (by apply list_elem_of_filter).
    rewrite Hnil in H. by apply elem_of_nil in H.
Qed.

Lemma remove_first_perm (x : string) (l : list string) :
  x ∈ l -> l ≡ₚ x :: remove_first x l.
Proof.
  induction l as [| y l IH]; intros Hx; [by apply elem_of_nil in Hx |].
  simpl. destruct (String.eqb x y) eqn:He.
  - apply String.eqb_eq in He. by subst y.
  - apply String.eqb_neq in He.
    apply elem_of_cons in Hx as [-> | Hx]; [done |].
    rewrite (IH Hx) at 1. apply Permutation_swap.
Qed.

(** The probes of the loop, one by one. *)
Lemma probe_loop_trace (E : env) (cfg : config) (k : kind) (budget : nat)
    (unused : list string) (w : world) :
  exists probed r w',
    probe_loop E cfg k budget unused w = (Ok r, w') /\
    files w' = files w /\ pushes w' = pushes w /\
    heads w' = rev (candidate_url cfg k <$> probed) ++ heads w /\
    (length probed <= budget)%nat /\
    probed ⊆+ unused /\
    match r with
    | Some c =>
        exists failed,
          probed = failed ++ [cand_filename c] /\
          cand_url c = candidate_url cfg k (cand_filename c) /\
          (forall f, f ∈ failed ->
                     exists n, e_head E n (candidate_url cfg k f) = false) /\
          (exists n, e_head E n (cand_url c) = true)
    | None =>
        (forall f, f ∈ probed ->
                   exists n, e_head E n (candidate_url cfg k f) = false) /\
        (length probed = budget \/ probed ≡ₚ unused)
    end.
Proof.
  revert unused w. induction budget as [| b IH]; intros unused w.
  { exists [], None, w. simpl. repeat split; try done.
    - apply submseteq_nil_l.
    - intros f Hf. by apply elem_of_nil in Hf.
    - by left. }
  destruct unused as [| u0 us].
  { exists [], None, w. simpl. repeat split; try done.
    - lia.
    - intros f Hf. by apply elem_of_nil in Hf.
    - by right. }
  cbn [probe_loop]. set (unused := u0 :: us).
  erewrite bind_ok by reflexivity.
  set (sel := nth (e_choice E (clock w) mod length unused)%nat unused "").
  assert (Hsel : sel ∈ unused).
  { apply list_elem_of_In, nth_In, Nat.mod_upper_bound. done. }
  pose proof (remove_first_perm sel unused Hsel) as Hperm.
  unfold check_content_exists.
  erewrite bind_ok by (erewrite bind_ok by reflexivity; reflexivity).
  cbn [clock files pushes heads polls slept notified].
  destruct (e_head E (S (clock w)) (candidate_url cfg k sel)) eqn:Hh.
  - exists [sel], (Some (Candidate (candidate_url cfg k sel) sel)). eexists.
    split; [reflexivity |]. cbn [files pushes heads].
    split; [done |]. split; [done |]. split; [done |].
    split; [simpl; lia |].
    split; [by apply singleton_submseteq_l |].
    exists []. simpl. split; [done |]. split; [done |].
    split; [| eauto]. intros f Hf. by apply elem_of_nil in Hf.
  - match goal with |- context [probe_loop E cfg k b ?l ?w1] =>
      destruct (IH l w1) as (probed & r & w' & Hrun & Hf & Hp & Hhd & Hlen & Hsub & Hr) end.
    exists (sel :: probed), r, w'. split; [exact Hrun |].
    cbn [files pushes heads] in Hf, Hp, Hhd.
    split; [done |]. split; [done |].
    split; [rewrite Hhd; cbn [fmap list_fmap rev]; by rewrite <- app_assoc |].
    split; [simpl; lia |].
    split; [rewrite Hperm; by apply submseteq_skip |].
    destruct r as [c |].
    + destruct Hr as (failed & Hpr & Hu & Hfail & Hok).
      exists (sel :: failed). split; [by rewrite Hpr |]. split; [done |].
      split; [| done]. intros f Hin. apply elem_of_cons in Hin as [-> | Hin]; eauto.
    + destruct Hr as [Hfail Hend]. split.
      * intros f Hin. apply elem_of_cons in Hin as [-> | Hin]; eauto.
      * destruct Hend as [Hend | Hend]; [left; simpl; by rewrite Hend |].
        right. rewrite Hperm. by apply Permutation_skip.
Qed.

Lemma filter_unused_list (used items : list string) :
  filter (fun x => x ∉ (list_to_set used : gset string)) items
  = filter (fun x => x ∉ used) items.
Proof. apply list_filter_iff. intros x. by rewrite elem_of_list_to_set. Qed.

(** C4, as the code has it. A call of [get_random_candidate] reads the
    used-set (after recovery, when that was due) and then does one of
    three things. When a catalog entry is unused, it writes no file and
    starts no push, and probes from the pool of the unused entries. When
    every entry is used and the configuration has a name, it overwrites
    the stored used-set with the empty list, starts one push, and probes
    from the whole catalog: the reset is made before any probe and stays
    when no candidate is found. When every entry is used and the
    configuration has no name, it raises [KeyError] and leaves the world
    as the read left it. Probing ([probed_pool]) makes at most 50 probes;
    a candidate whose probe fails leaves the pool of the call, so that none
    is probed more often than the pool holds it, and is written nowhere;
    the call returns the first candidate whose probe succeeds, and [None]
    when the budget or the pool is used up. *)
Theorem random_candidate_effect (E : env) (cfg : config) (k : kind) (w : world) :
  let prefix := cfg_state_prefix cfg in
  let items := catalog cfg k in
  exists w0 r w',
    load_used E k prefix w = (Ok (stored_used w0 k prefix), w0) /\
    get_random_candidate E cfg k w = (r, w') /\
    let unused := filter (fun x => x ∉ stored_used w0 k prefix) items in
    (unused <> [] ->
     exists c, r = Ok c /\
       probe_loop E cfg k max_check_attempts unused w0 = (Ok c, w') /\
       files w' = files w0 /\ pushes w' = pushes w0 /\
       probed_pool E cfg k unused w0 w' c) /\
    (unused = [] -> cfg_name cfg <> None ->
     exists c w1, r = Ok c /\
       save_used k prefix [] true w0 = (Ok tt, w1) /\
       probe_loop E cfg k max_check_attempts items w1 = (Ok c, w') /\
       files w' = <[used_path k prefix := FUsed []]> (files w0) /\
       pushes w' = prefix :: pushes w0 /\
       probed_pool E cfg k items w0 w' c) /\
    (unused = [] -> cfg_name cfg = None ->
     r = Raise (KeyError "name") /\ w' = w0).
Proof.
  intros prefix items.
  destruct (load_used_effect E k prefix w) as (w0 & Hload & _ & _ & _).
  exists w0. unfold get_random_candidate. fold prefix items.
  rewrite (bind_ok _ _ _ _ _ Hload).
  set (used := stored_used w0 k prefix).
  rewrite filter_unused_list.
  destruct (filter (fun x => x ∉ used) items) as [| y ys] eqn:Hfilter.
  - destruct (cfg_name cfg) as [name |] eqn:Hname.
    + simpl require. erewrite bind_ok; cycle 1.
      { erewrite bind_ok by reflexivity.
        rewrite (bind_ok _ _ _ _ _ (save_used_sync k prefix [] w0)). reflexivity. }
      set (w1 := World _ _ _ _ _ _ _).
      assert (Hrun : exists c w',
                (match items with
                 | [] => mret None
                 | _ :: _ => probe_loop E cfg k max_check_attempts items
                 end) w1 = (Ok c, w') /\
                probe_loop E cfg k max_check_attempts items w1 = (Ok c, w') /\
                files w' = files w1 /\ pushes w' = pushes w1 /\
                probed_pool E cfg k items w0 w' c).
      { destruct items as [| i0 its] eqn:Hitems.
        - exists None, w1. split; [done |]. split; [done |]. split; [done |].
          split; [done |].
          exists []. simpl. repeat split; try done; try lia.
          + intros f Hf. by apply elem_of_nil in Hf.
          + by right.
        - destruct (probe_loop_trace E cfg k max_check_attempts (i0 :: its) w1)
            as (probed & c & w' & Hrun & Hf & Hp & Hhd & Hlen & Hsub & Hr).
          exists c, w'. split; [exact Hrun |]. split; [exact Hrun |].
          split; [done |]. split; [done |].
          exists probed. split; [exact Hhd |]. split; [exact Hlen |].
          split; [exact Hsub |]. exact Hr. }
      destruct Hrun as (c & w' & Hrun & Hloop & Hf & Hp & Hpool).
      exists (Ok c), w'. split; [done |]. split; [exact Hrun |]. cbv zeta.
      split; [done |]. split; [| by intros _ [=]].
      intros _ _. exists c, w1. split; [done |].
      split; [apply save_used_sync |]. by repeat split.
    + simpl require. exists (Raise (KeyError "name")), w0.
      split; [done |]. split; [reflexivity |]. cbv zeta.
      split; [done |]. split; [by intros _ ? |]. done.
  - erewrite bind_ok by reflexivity.
    destruct (probe_loop_trace E cfg k max_check_attempts (y :: ys) w0)
      as (probed & c & w' & Hrun & Hf & Hp & Hhd & Hlen & Hsub & Hr).
    exists (Ok c), w'. split; [done |]. split; [exact Hrun |]. cbv zeta.
    split; [| split; [by intros [=] | by intros [=]]].
    intros _. exists c. split; [done |]. split; [exact Hrun |].
    split; [done |]. split; [done |].
    exists probed. split; [exact Hhd |]. split; [exact Hlen |].
    split; [exact Hsub |]. exact Hr.
Qed.

(** C4, as the specification words it, fails: with the single catalog entry
    already used and no asset behind any URL, the call returns [None] and
    the stored used-set is no longer what it was. *)
Lemma random_candidate_none_after_reset :
  let cfg := Examples.reel_cfg in
  let w := Examples.world_of
             {[ "clips_video_used.json" := FUsed ["vid.mp4"; "vid (1).mp4"] ]} in
  let result := get_random_candidate Examples.nothing_exists cfg Video w in
  fst result = Ok None /\
  stored_used w Video "clips" = ["vid.mp4"; "vid (1).mp4"] /\
  stored_used (snd result) Video "clips" = [] /\
  files (snd result) !! "clips_video_used.json" <> files w !! "clips_video_used.json".
Proof.
  split; [vm_compute; reflexivity |]. split; [reflexivity |].
  split; [vm_compute; reflexivity |]. vm_compute. discriminate.
Qed.


(** Marking after a reset: the used-set becomes the singleton of the last
    path segment of what is passed in; for a bare file name, that name. *)
Lemma mark_video_used_after_reset (E : env) (cfg : config) (selected : string)
    (w : world) :
  files w !! video_used_path (cfg_state_prefix cfg) = Some (FUsed []) ->
  stored_used (snd (mark_video_used E cfg selected w)) Video (cfg_state_prefix cfg)
  = [PyStr.last_segment selected].
Proof.
  intros Hf. unfold mark_video_used.
  assert (Hload : load_used_list E (cfg_state_prefix cfg) w = (Ok [], w)).
  { unfold load_used_list, restore_unless. munfold. rewrite Hf.
    rewrite bool_decide_eq_true_2 by eauto. simpl. by rewrite Hf. }
  rewrite (bind_ok _ _ _ _ _ Hload).
  unfold save_used_list, stored_used, used_path. munfold. simpl.
  rewrite lookup_insert_eq. simpl.
  rewrite (left_id_L ∅ (∪)). by rewrite elements_singleton.
Qed.

(** C3, where the code departs from the specification. A scheduled reel run
    starts with the used-set equal to the catalog [vid.mp4, vid (1).mp4].
    The selection resets the stored used-set to empty and draws
    [vid (1).mp4] from the full catalog; the run publishes it; the marking
    step, which is handed the URL of the candidate, stores the
    percent-encoded name [vid%20(1).mp4]: a singleton, but not that of the
    chosen file name, and not an entry of the catalog. *)
Theorem scheduled_run_marks_encoded_name :
  let cfg := Examples.reel_cfg in
  let w := Examples.world_of
             {[ "clips_video_used.json" := FUsed ["vid.mp4"; "vid (1).mp4"] ]} in
  let picked := get_random_candidate Examples.all_fine cfg Video w in
  let done := run_account Examples.all_fine cfg "schedule" w in
  catalog cfg Video = ["vid.mp4"; "vid (1).mp4"] /\
  fst picked = Ok (Some (Candidate "http://h/vids/vid%20(1).mp4" "vid (1).mp4")) /\
  stored_used (snd picked) Video "clips" = [] /\
  fst done = Ok (Some (Published "20" "https://example.invalid/p/20")) /\
  stored_used (snd done) Video "clips" = ["vid%20(1).mp4"] /\
  stored_used (snd done) Video "clips" <> ["vid (1).mp4"] /\
  "vid%20(1).mp4" ∉ catalog cfg Video.
Proof.
  split; [reflexivity |]. split; [vm_compute; reflexivity |].
  split; [vm_compute; reflexivity |]. split; [vm_compute; reflexivity |].
  split; [vm_compute; reflexivity |]. split; [vm_compute; discriminate |].
  intros H. repeat (apply elem_of_cons in H as [H | H]; [discriminate |]).
  by apply elem_of_nil in H.
Qed.

(* ===================================================================== *)
(** * Properties: a failed run and the rotation state *)
(* ===================================================================== *)

Section Keeps.

Variable E : env.
Variable prefix : string.

Lemma used_kept_refl (w : world) : used_kept E prefix w w.
Proof. split; [done | intros k x Hx; by left]. Qed.

Lemma used_kept_trans (w1 w2 w3 : world) :
  used_kept E prefix w1 w2 -> used_kept E prefix w2 w3 -> used_kept E prefix w1 w3.
Proof.
  intros [Hn12 He12] [Hn23 He23]. split.
  - intros k Hk. by apply Hn12, Hn23.
  - intros k x Hx. destruct (He23 k x Hx) as [Hin | (Hv & Hi & Hr)].
    + by apply He12.
    + right. split; [apply (Hn12 Video Hv) | split; [apply (Hn12 Image Hi) | done]].
Qed.

(** A step that leaves both used-set files as they are. *)
Lemma used_kept_same (w w' : world) :
  (forall k, files w' !! used_path k prefix = files w !! used_path k prefix) ->
  used_kept E prefix w w'.
Proof.
  intros Hsame. split.
  - intros k Hk. by rewrite <- Hsame.
  - intros k x Hx. left. unfold stored_used in *. by rewrite <- Hsame.
Qed.

(** The exhaustion reset. *)
Lemma used_kept_reset (k0 : kind) (w w' : world) :
  files w' = <[used_path k0 prefix := FUsed []]> (files w) ->
  used_kept E prefix w w'.
Proof.
  intros Hf.
  assert (Hne : forall k, k <> k0 -> used_path k0 prefix <> used_path k prefix).
  { intros k Hk. destruct k, k0; try done; simpl;
      first [apply video_neq_image | apply not_eq_sym, video_neq_image]. }
  split.
  - intros k Hk. rewrite Hf in Hk. destruct (decide (k = k0)) as [-> | Hkk].
    + by rewrite lookup_insert_eq in Hk.
    + by rewrite lookup_insert_ne in Hk by by apply Hne.
  - intros k x Hx. unfold stored_used in *. rewrite Hf in Hx.
    destruct (decide (k = k0)) as [-> | Hkk].
    + rewrite lookup_insert_eq in Hx. simpl in Hx. by apply elem_of_nil in Hx.
    + rewrite lookup_insert_ne in Hx by by apply Hne. by left.
Qed.

(** Recovery from the mirror. *)
Lemma used_kept_materialize (r : remote_state) (n : nat) (w w' : world) :
  files w !! video_used_path prefix = None ->
  files w !! image_used_path prefix = None ->
  e_remote E n prefix = Some r ->
  files w' = materialize r prefix (files w) ->
  used_kept E prefix w w'.
Proof.
  intros Hv Hi Hr Hf. split.
  - intros k Hk. rewrite Hf in Hk. destruct k; simpl in *.
    + rewrite materialize_image in Hk. by destruct (r_image_used r).
    + rewrite materialize_video in Hk. by destruct (r_video_used r).
  - intros k x Hx. unfold stored_used in *. rewrite Hf in Hx.
    destruct k; simpl in *.
    + rewrite materialize_image in Hx. destruct (r_image_used r) as [l |] eqn:Hl.
      * right. split; [done |]. split; [done |]. exists n, r. split; [done |].
        simpl. by rewrite Hl.
      * by left.
    + rewrite materialize_video in Hx. destruct (r_video_used r) as [l |] eqn:Hl.
      * right. split; [done |]. split; [done |]. exists n, r. split; [done |].
        simpl. by rewrite Hl.
      * by left.
Qed.

(** ** The monad *)

Lemma keeps_ret {A} (a : A) : keeps E prefix (mret a).
Proof. intros w. apply used_kept_refl. Qed.

Lemma keeps_raise {A} (e : exn) : keeps E prefix (raise e : M A).
Proof. intros w. apply used_kept_refl. Qed.

Lemma keeps_bind {A B} (m : M A) (f : A -> M B) :
  keeps E prefix m -> (forall a, keeps E prefix (f a)) -> keeps E prefix (m ≫= f).
Proof.
  intros Hm Hf w. unfold mbind, M_bind, bind.
  specialize (Hm w). destruct (m w) as [[a | e] w1]; simpl in *; [| done].
  eapply used_kept_trans; [exact Hm | apply Hf].
Qed.

Lemma keeps_try {A} (m : M A) (h : exn -> M A) :
  keeps E prefix m -> (forall e, keeps E prefix (h e)) -> keeps E prefix (try_except m h).
Proof.
  intros Hm Hh w. unfold try_except.
  specialize (Hm w). destruct (m w) as [[a | e] w1]; simpl in *; [done |].
  eapply used_kept_trans; [exact Hm | apply Hh].
Qed.

Lemma keeps_mapM {A B} (f : A -> M B) (l : list A) :
  (forall x, keeps E prefix (f x)) -> keeps E prefix (mapM f l).
Proof.
  intros Hf. induction l as [| x l IH]; simpl.
  - apply keeps_ret.
  - apply keeps_bind; [apply Hf | intros y].
    apply keeps_bind; [apply IH | intros ys]. apply keeps_ret.
Qed.

(** A computation that leaves the files alone. *)
Lemma keeps_files {A} (m : M A) :
  (forall w, files (snd (m w)) = files w) -> keeps E prefix m.
Proof. intros H w. apply used_kept_same. intros k. by rewrite H. Qed.

Lemma keeps_ext {A} (q : env -> nat -> A) : keeps E prefix (ext q E).
Proof. by apply keeps_files. Qed.

Lemma keeps_start_push (p : string) : keeps E prefix (start_push p).
Proof. by apply keeps_files. Qed.

Lemma keeps_sleep (d : Z) : keeps E prefix (sleep d).
Proof. by apply keeps_files. Qed.

Lemma keeps_log_head (u : string) : keeps E prefix (log_head u).
Proof. by apply keeps_files. Qed.

Lemma keeps_log_poll (c : string) : keeps E prefix (log_poll c).
Proof. by apply keeps_files. Qed.

Lemma keeps_log_notify (m : string) : keeps E prefix (log_notify m).
Proof. by apply keeps_files. Qed.

Lemma keeps_read_file (p : string) : keeps E prefix (read_file p).
Proof. by apply keeps_files. Qed.

Lemma keeps_exists_file (p : string) : keeps E prefix (exists_file p).
Proof. by apply keeps_files. Qed.

Lemma keeps_require {A} (key : string) (v : option A) : keeps E prefix (require key v).
Proof. destruct v; [apply keeps_ret | apply keeps_raise]. Qed.

Lemma keeps_py_mod (a b : Z) : keeps E prefix (py_mod a b).
Proof. unfold py_mod. destruct (b =? 0); [apply keeps_raise | apply keeps_ret]. Qed.

(** Writing a file that is no used-set file of the prefix. *)
Lemma keeps_write_other (path : string) (c : file) :
  (forall k, path <> used_path k prefix) -> keeps E prefix (write_file path c).
Proof.
  intros Hne w. apply used_kept_same. intros k. simpl.
  by rewrite lookup_insert_ne.
Qed.

Lemma keeps_reset (k0 : kind) (sync : bool) : keeps E prefix (save_used k0 prefix [] sync).
Proof.
  intros w. apply (used_kept_reset k0). by destruct k0, sync.
Qed.

End Keeps.

Ltac keeps_step :=
  match goal with
  | |- keeps _ _ (mbind _ _) => apply keeps_bind; [| intros ?]
  | |- keeps _ _ (mret _) => apply keeps_ret
  | |- keeps _ _ (raise _) => apply keeps_raise
  | |- keeps _ _ (ext _ _) => apply keeps_ext
  | |- keeps _ _ (require _ _) => apply keeps_require
  | |- keeps _ _ (py_mod _ _) => apply keeps_py_mod
  | |- keeps _ _ (start_push _) => apply keeps_start_push
  | |- keeps _ _ (sleep _) => apply keeps_sleep
  | |- keeps _ _ (log_head _) => apply keeps_log_head
  | |- keeps _ _ (log_poll _) => apply keeps_log_poll
  | |- keeps _ _ (log_notify _) => apply keeps_log_notify
  | |- keeps _ _ (read_file _) => apply keeps_read_file
  | |- keeps _ _ (exists_file _) => apply keeps_exists_file
  | |- keeps _ _ (mapM _ _) => apply keeps_mapM; intros ?
  | |- keeps _ _ (try_except _ _) => apply keeps_try; [| intros ?]
  | |- keeps _ _ (if ?b then _ else _) => destruct b
  | |- keeps _ _ (match ?x with _ => _ end) => destruct x
  end.

Ltac keeps_auto := repeat (first [keeps_step | solve [eauto with keeps]]).

Create HintDb keeps.

Section KeepsRunner.

Variable E : env.
Variable prefix : string.

Lemma keeps_save_status (status message : string) :
  keeps E prefix (save_status prefix status message).
Proof.
  apply keeps_write_other. intros []; apply not_eq_sym;
    [apply image_neq_status | apply video_neq_status].
Qed.

Lemma keeps_save_caption (idx : Z) (sync : bool) :
  keeps E prefix (save_last_index prefix "caption" idx sync).
Proof.
  unfold save_last_index. apply keeps_bind; [| intros _; keeps_auto].
  apply keeps_write_other. intros []; apply not_eq_sym;
    [apply image_neq_caption | apply video_neq_caption].
Qed.

Lemma keeps_save_image (idx : Z) (sync : bool) :
  keeps E prefix (save_last_index prefix "image" idx sync).
Proof.
  unfold save_last_index. apply keeps_bind; [| intros _; keeps_auto].
  apply keeps_write_other. intros []; apply not_eq_sym;
    [apply image_neq_index | apply video_neq_index].
Qed.

Lemma keeps_cfg_token_igid (cfg : config) : keeps E prefix (_cfg_token_igid E cfg).
Proof. unfold _cfg_token_igid. keeps_auto. Qed.

Lemma keeps_fetch_lines (url : string) : keeps E prefix (fetch_lines E url).
Proof. unfold fetch_lines. keeps_auto. Qed.

Lemma keeps_check_content_exists (url : string) :
  keeps E prefix (check_content_exists E url).
Proof. unfold check_content_exists. keeps_auto. Qed.

Lemma keeps_wait_loop (cid : string) (delay : Z) (n : nat) :
  keeps E prefix (wait_loop E cid delay n).
Proof.
  induction n as [| n IH]; cbn [wait_loop]; [apply keeps_raise |].
  keeps_auto; exact IH.
Qed.

Lemma keeps_wait_until_ready (cid token : string) :
  keeps E prefix (wait_until_ready E cid token).
Proof. apply keeps_wait_loop. Qed.

Lemma keeps_restore : keeps E prefix (restore_from_remote_if_needed E prefix).
Proof.
  intros w. destruct (restore_effect E prefix w) as (w' & Hr & _ & _ & Hf).
  rewrite Hr. simpl. destruct Hf as [Hf | (Hv & Hi & r & Hrem & Hf)].
  - apply used_kept_same. intros k. by rewrite Hf.
  - by apply (used_kept_materialize E prefix r (clock w)).
Qed.

End KeepsRunner.

#[export] Hint Resolve keeps_save_status keeps_save_caption keeps_save_image
  keeps_cfg_token_igid keeps_fetch_lines keeps_check_content_exists
  keeps_wait_until_ready keeps_restore keeps_reset : keeps.

Section KeepsPipeline.

Variable E : env.
Variable cfg : config.

Let prefix := cfg_state_prefix cfg.

Lemma keeps_load_last_index (key : string) :
  keeps E prefix (load_last_index E prefix key).
Proof. unfold load_last_index, restore_unless. keeps_auto. Qed.

Lemma keeps_load_used (k : kind) : keeps E prefix (load_used E k prefix).
Proof.
  destruct k; unfold load_used, image_used_list, load_used_list, restore_unless;
    keeps_auto.
Qed.

Lemma keeps_next_caption : keeps E prefix (next_caption E cfg).
Proof.
  unfold next_caption. fold prefix.
  pose proof (keeps_load_last_index "caption"). keeps_auto.
Qed.

Lemma keeps_next_images : keeps E prefix (next_images E cfg).
Proof.
  unfold next_images. fold prefix.
  pose proof (keeps_load_last_index "image"). keeps_auto.
Qed.

Lemma keeps_upload_image (url : string) : keeps E prefix (upload_image E url cfg).
Proof. unfold upload_image. keeps_auto. Qed.

Lemma keeps_upload_reel (url : option string) (caption : string) (hl : bool) :
  keeps E prefix (upload_reel E url cfg caption hl).
Proof. unfold upload_reel. keeps_auto. Qed.

Lemma keeps_create_carousel (ids : list string) (caption : string) (hl : bool) :
  keeps E prefix (create_carousel E ids caption cfg hl).
Proof. unfold create_carousel. keeps_auto. Qed.

Lemma keeps_publish_creation (cid : string) :
  keeps E prefix (publish_creation E cid cfg).
Proof. unfold publish_creation. keeps_auto. Qed.

Lemma keeps_video_candidates (page page_size : Z) (include_used : bool) :
  keeps E prefix (video_candidates E cfg page page_size include_used).
Proof.
  unfold video_candidates. fold prefix.
  pose proof (keeps_load_used Video) as Hl. simpl in Hl. keeps_auto.
Qed.

Lemma keeps_probe_loop (k : kind) (budget : nat) (unused : list string) :
  keeps E prefix (probe_loop E cfg k budget unused).
Proof.
  revert unused. induction budget as [| b IH]; intros unused; cbn [probe_loop].
  - apply keeps_ret.
  - destruct unused as [| u us]; [apply keeps_ret |]. keeps_auto.
Qed.

Lemma keeps_get_random_candidate (k : kind) :
  keeps E prefix (get_random_candidate E cfg k).
Proof.
  unfold get_random_candidate. fold prefix.
  pose proof (keeps_load_used k). pose proof (keeps_probe_loop k).
  keeps_auto.
Qed.

Lemma keeps_select_random_images : keeps E prefix (select_random_images E cfg).
Proof.
  unfold select_random_images.
  pose proof (keeps_get_random_candidate Image). keeps_auto.
Qed.

Lemma keeps_upload_and_verify (total : Z) (iu : Z * string) :
  keeps E prefix (upload_and_verify E cfg total iu).
Proof.
  unfold upload_and_verify. fold prefix.
  pose proof keeps_upload_image. keeps_auto.
Qed.

Lemma keeps_carousel_until_publish (mode : string) :
  keeps E prefix (carousel_until_publish E cfg mode).
Proof.
  unfold carousel_until_publish. fold prefix.
  pose proof keeps_select_random_images. pose proof keeps_next_images.
  pose proof keeps_next_caption. pose proof keeps_upload_and_verify.
  pose proof keeps_create_carousel. pose proof keeps_publish_creation.
  keeps_auto.
Qed.

Lemma keeps_next_video_shim : keeps E prefix (next_video_shim E cfg).
Proof.
  unfold next_video_shim. pose proof keeps_video_candidates. keeps_auto.
Qed.

Lemma keeps_reel_until_publish (mode : string) :
  keeps E prefix (reel_until_publish E cfg mode).
Proof.
  unfold reel_until_publish. fold prefix.
  pose proof (keeps_get_random_candidate Video). pose proof keeps_next_video_shim.
  pose proof keeps_next_caption. pose proof keeps_upload_reel.
  pose proof keeps_publish_creation.
  pose proof (keeps_reset E prefix Video true) as Hreset. simpl in Hreset.
  keeps_auto.
Qed.

(** No step of a run before the comment adds an entry to a used-set. *)
Lemma keeps_run_until_publish (mode : string) :
  keeps E prefix (run_until_publish E cfg mode).
Proof.
  unfold run_until_publish.
  pose proof keeps_carousel_until_publish. pose proof keeps_reel_until_publish.
  keeps_auto.
Qed.

End KeepsPipeline.

(** C1, as the code has it. When a run of [run_account] fails at a step
    before the comment (selection, upload, verification, assembly or
    publish), it returns [None] with the error in the status tracker, and
    it has marked nothing as used: no used-set file of the account has
    been removed and every entry of [image_used] and [video_used] was
    there before the run or came from the mirror by recovery (a reset on
    exhaustion only empties a used-set). The pointers [caption_idx] and
    [image_idx] are not part of this: selection advances them before the
    upload and nothing rolls them back. *)
Theorem failed_run_marks_nothing (E : env) (cfg : config) (mode : string)
    (w w1 : world) (e : exn) :
  let prefix := cfg_state_prefix cfg in
  let started :=
    snd (save_status prefix "running" ("Starting automation (" +:+ mode +:+ ")...") w) in
  run_until_publish E cfg mode started = (Raise e, w1) ->
  exists w',
    run_account E cfg mode w = (Ok None, w') /\
    shown_status w' prefix = ("error", exn_str e) /\
    used_kept E prefix w w'.
Proof.
  intros prefix started Hfail.
  eexists. split; [| split].
  - unfold run_account. fold prefix.
    erewrite bind_ok by reflexivity. fold started.
    unfold try_except. rewrite (bind_raise _ _ _ _ _ Hfail).
    reflexivity.
  - unfold shown_status. simpl. by rewrite lookup_insert_eq.
  - eapply used_kept_trans; [apply (keeps_save_status E prefix) |]. fold started.
    eapply used_kept_trans.
    + pose proof (keeps_run_until_publish E cfg mode started) as Hk.
      rewrite Hfail in Hk. exact Hk.
    + apply used_kept_same. intros k. simpl.
      rewrite lookup_insert_ne; [done |].
      destruct k; apply not_eq_sym; [apply image_neq_status | apply video_neq_status].
Qed.

Lemma failed_run_marks_nothing_witness :
  exists w',
    run_account Examples.upload_fails Examples.carousel_cfg "manual"
      (Examples.world_of {[ "acct_image_used.json" := FUsed ["img (3).jpg"] ]})
    = (Ok None, w') /\
    shown_status w' "acct" = ("error", "Instagram API Error 400: {}") /\
    used_kept Examples.upload_fails "acct"
      (Examples.world_of {[ "acct_image_used.json" := FUsed ["img (3).jpg"] ]}) w'.
Proof.
  apply (failed_run_marks_nothing Examples.upload_fails Examples.carousel_cfg "manual"
           (Examples.world_of {[ "acct_image_used.json" := FUsed ["img (3).jpg"] ]})
           (snd (run_until_publish Examples.upload_fails Examples.carousel_cfg "manual"
                   (snd (save_status "acct" "running" "Starting automation (manual)..."
                           (Examples.world_of
                              {[ "acct_image_used.json" := FUsed ["img (3).jpg"] ]})))))
           (RuntimeError "Instagram API Error 400: {}")).
  vm_compute. reflexivity.
Defined.

(** C1, as the specification words it, fails: a manual carousel run from the image
    pointer 5 whose first upload is refused ends with the pointer at 7 and
    the caption pointer at 1; the next sequential selection returns the
    images 8 and 9, not the images 6 and 7 it would have returned had the
    failed run never been attempted. *)
Lemma failed_run_advances_pointers :
  let w := Examples.world_of {[ "acct_image.json" := FIndex 5 ]} in
  let failed := run_account Examples.upload_fails Examples.carousel_cfg "manual" w in
  fst failed = Ok None /\
  shown_status (snd failed) "acct" = ("error", "Instagram API Error 400: {}") /\
  stored_index w "acct" "image" = 5 /\
  stored_index (snd failed) "acct" "image" = 7 /\
  stored_index w "acct" "caption" = 0 /\
  stored_index (snd failed) "acct" "caption" = 1 /\
  fst (next_images Examples.upload_fails Examples.carousel_cfg w)
  = Ok ["http://h/imgs/img%20(6).jpg"; "http://h/imgs/img%20(7).jpg"] /\
  fst (next_images Examples.upload_fails Examples.carousel_cfg (snd failed))
  = Ok ["http://h/imgs/img%20(8).jpg"; "http://h/imgs/img%20(9).jpg"].
Proof. repeat (split; [vm_compute; reflexivity |]). vm_compute. reflexivity. Qed.

(* ===================================================================== *)
(** * Properties: the publish endpoint *)
(* ===================================================================== *)

(** A carousel publish without slides fails in the background task and
    the tracker shows the error. *)
Lemma background_carousel_without_images (E : env) (acct : config) (p : payload)
    (w : world) :
  cfg_type acct = Some "carousel" ->
  default [] (p_images p) = [] ->
  shown_status (snd (background_publish_task E acct (JObject p) w))
               (cfg_state_prefix acct)
  = ("error", "No slides selected").
Proof.
  intros Ht Hi. unfold background_publish_task, publish_selected_carousel.
  rewrite Ht, Hi. rewrite bool_decide_eq_true_2 by done.
  unfold shown_status, save_status, notify_publish_failure. munfold. simpl.
  by rewrite lookup_insert_eq.
Qed.

(** A body that is no object fails the background task at its first
    read, and the tracker shows the error. *)
Lemma background_non_object (E : env) (acct : config) (ty : string) (w : world) :
  shown_status (snd (background_publish_task E acct (JOther ty) w))
               (cfg_state_prefix acct)
  = ("error", exn_str (no_attribute ty "get")).
Proof.
  unfold background_publish_task, shown_status, save_status, notify_publish_failure.
  munfold. cbn [fst snd files]. by rewrite lookup_insert_eq.
Qed.

(** C9, as the code has it. For a request to an existing account, with a
    body that is absent, unreadable or falsy read as the empty object:
    the endpoint rejects at once (400, [Missing 'video']) a request for a
    reel account whose body is an object without a video; on a reel
    account a truthy body that is no object makes the validation itself
    raise [AttributeError], the server's answer 500, and spawns nothing;
    every other request is accepted (202) and handed to the background
    task, a carousel request without images and a request with a body that
    is no object for an account that is no reel account included: their
    failures, [No slides selected] and the [AttributeError], show only in
    the status tracker. *)
Theorem publish_validation (accounts : list config) (idx : Z)
    (json : option json_body) (acct : config) :
  0 <= idx ->
  accounts !! Z.to_nat idx = Some acct ->
  let body := body_or_empty json in
  (forall p, body = JObject p ->
     cfg_type acct = Some "reel" -> truthy_str (p_video p) = false ->
     publish accounts idx json = Ok (Reply 400 "Missing 'video'", None)) /\
  (forall p, body = JObject p ->
     cfg_type acct = Some "reel" -> truthy_str (p_video p) = true ->
     publish accounts idx json = Ok (Reply 202 "accepted", Some (acct, body))) /\
  (forall ty, body = JOther ty ->
     cfg_type acct = Some "reel" ->
     publish accounts idx json = Raise (no_attribute ty "get")) /\
  (cfg_type acct <> Some "reel" ->
     publish accounts idx json = Ok (Reply 202 "accepted", Some (acct, body))) /\
  (forall p, body = JObject p ->
     cfg_type acct = Some "carousel" -> default [] (p_images p) = [] ->
     forall E w,
       shown_status (snd (background_publish_task E acct body w))
                    (cfg_state_prefix acct)
       = ("error", "No slides selected")) /\
  (forall ty, body = JOther ty ->
     forall E w,
       shown_status (snd (background_publish_task E acct body w))
                    (cfg_state_prefix acct)
       = ("error", "'" +:+ ty +:+ "' object has no attribute 'get'")).
Proof.
  intros Hidx Hacct body.
  assert (Hr : in_range idx accounts = true).
  { unfold in_range. apply lookup_lt_Some in Hacct.
    apply andb_true_iff. split; [apply Z.leb_le | apply Z.ltb_lt]; lia. }
  unfold publish. rewrite Hr, Hacct. fold body.
  split; [| split; [| split; [| split; [| split]]]].
  - intros p Hb Ht Hv. rewrite Hb, bool_decide_eq_true_2 by done. by rewrite Hv.
  - intros p Hb Ht Hv. rewrite Hb, bool_decide_eq_true_2 by done. by rewrite Hv.
  - intros ty Hb Ht. by rewrite Hb, bool_decide_eq_true_2.
  - intros Ht. by rewrite bool_decide_eq_false_2.
  - intros p Hb Ht Hi E w. rewrite Hb. by apply background_carousel_without_images.
  - intros ty Hb E w. rewrite Hb. apply background_non_object.
Qed.

Lemma publish_validation_witness :
  let accounts := [Examples.carousel_cfg; Examples.reel_cfg] in
  let json := Some (JOther "list") in
  let acct := Examples.reel_cfg in
  let body := body_or_empty json in
  (forall p, body = JObject p ->
     cfg_type acct = Some "reel" -> truthy_str (p_video p) = false ->
     publish accounts 1 json = Ok (Reply 400 "Missing 'video'", None)) /\
  (forall p, body = JObject p ->
     cfg_type acct = Some "reel" -> truthy_str (p_video p) = true ->
     publish accounts 1 json = Ok (Reply 202 "accepted", Some (acct, body))) /\
  (forall ty, body = JOther ty ->
     cfg_type acct = Some "reel" ->
     publish accounts 1 json = Raise (no_attribute ty "get")) /\
  (cfg_type acct <> Some "reel" ->
     publish accounts 1 json = Ok (Reply 202 "accepted", Some (acct, body))) /\
  (forall p, body = JObject p ->
     cfg_type acct = Some "carousel" -> default [] (p_images p) = [] ->
     forall E w,
       shown_status (snd (background_publish_task E acct body w))
                    (cfg_state_prefix acct)
       = ("error", "No slides selected")) /\
  (forall ty, body = JOther ty ->
     forall E w,
       shown_status (snd (background_publish_task E acct body w))
                    (cfg_state_prefix acct)
       = ("error", "'" +:+ ty +:+ "' object has no attribute 'get'")).
Proof.
  intros accounts json acct.
  apply (publish_validation accounts 1 json acct).
  - lia.
  - reflexivity.
Defined.

(** C9, as the specification words it, fails: a request without images for a
    carousel account is answered with the accepted acknowledgment. *)
Lemma publish_accepts_carousel_without_images :
  p_images empty_payload = None /\
  cfg_type Examples.carousel_cfg = Some "carousel" /\
  publish [Examples.carousel_cfg] 0 None
  = Ok (Reply 202 "accepted", Some (Examples.carousel_cfg, JObject empty_payload)).
Proof. repeat split. Qed.

(* ===================================================================== *)
(** * Properties: the scheduler *)
(* ===================================================================== *)

Section SameMinute.

Variable now : hm.

Let cur := current_minute_abs now.

Lemma tick_account_fires (gt : list hm) (st : sched) (acct : config) :
  fires gt now st acct = true ->
  tick_account gt now st acct
  = Sched (launched st ++ [acct]) (<[account_name acct := cur]> (last_triggers st)).
Proof.
  unfold fires, tick_account. intros H.
  apply andb_true_iff in H as [H H3]. apply andb_true_iff in H as [H1 H2].
  by rewrite H1, H2, H3.
Qed.

Lemma tick_account_idle (gt : list hm) (st : sched) (acct : config) :
  fires gt now st acct = false ->
  tick_account gt now st acct = st.
Proof.
  unfold fires, tick_account. intros H.
  destruct (schedule_on acct); [| done]. simpl in *.
  destruct (should_run _ now); [| done]. simpl in *.
  by rewrite H.
Qed.

(** Once a name is recorded for this minute, no account of that name is
    launched by this turn and the record stays. *)
Lemma tick_account_blocked (gt : list hm) (st : sched) (acct : config) (n : string) :
  last_triggers st !! n = Some cur ->
  named n (launched (tick_account gt now st acct)) = named n (launched st) /\
  last_triggers (tick_account gt now st acct) !! n = Some cur.
Proof.
  intros Hn. destruct (fires gt now st acct) eqn:Hf.
  - rewrite tick_account_fires by done. simpl.
    assert (Hne : account_name acct <> n).
    { intros Heq. subst n. unfold fires in Hf. apply andb_true_iff in Hf as [_ Hf].
      apply bool_decide_eq_true in Hf. by apply Hf. }
    split.
    + unfold named. rewrite filter_app, filter_cons_False, filter_nil by done.
      by rewrite app_nil_r.
    + by rewrite lookup_insert_ne.
  - by rewrite tick_account_idle.
Qed.

Lemma tick_blocked (gt : list hm) (accounts : list config) (st : sched) (n : string) :
  last_triggers st !! n = Some cur ->
  named n (launched (tick accounts gt now st)) = named n (launched st) /\
  last_triggers (tick accounts gt now st) !! n = Some cur.
Proof.
  unfold tick. revert st. induction accounts as [| c rest IH]; intros st Hn; [done |].
  simpl. destruct (tick_account_blocked gt st c n Hn) as [Hl Ht].
  destruct (IH _ Ht) as [Hl' Ht']. split; [congruence | done].
Qed.


(** The first turn of a minute launches one run under the name of every
    enabled account that is due: the first such account of the list. *)
Lemma tick_first (gt : list hm) (accounts : list config) (st : sched) (a : config) :
  a ∈ accounts ->
  schedule_on a = true ->
  should_run (effective_times a gt) now = true ->
  last_triggers st !! account_name a <> Some cur ->
  exists b,
    named (account_name a) (launched (tick accounts gt now st))
    = named (account_name a) (launched st) ++ [b] /\
    last_triggers (tick accounts gt now st) !! account_name a = Some cur /\
    b ∈ accounts /\ account_name b = account_name a /\
    head (filter (fun c => account_name c = account_name a /\
                           schedule_on c = true /\
                           should_run (effective_times c gt) now = true) accounts)
    = Some b /\
    ((forall c, c ∈ accounts -> account_name c = account_name a -> c = a) -> b = a).
Proof.
  unfold tick. revert st. induction accounts as [| c rest IH]; intros st Ha Hon Hdue Hlt.
  { by apply elem_of_nil in Ha. }
  simpl.
  destruct (decide (account_name c = account_name a /\ fires gt now st c = true))
    as [[Hname Hf] | Hno].
  - rewrite tick_account_fires by done.
    set (st1 := Sched _ _).
    assert (H1 : last_triggers st1 !! account_name a = Some cur).
    { simpl. rewrite Hname. apply lookup_insert_eq. }
    destruct (tick_blocked gt rest st1 _ H1) as [Hl Ht]. unfold tick in Hl, Ht.
    exists c. split; [| split; [| split; [| split; [| split]]]].
    + rewrite Hl. simpl. unfold named.
      by rewrite filter_app, filter_cons_True, filter_nil.
    + done.
    + apply elem_of_cons. by left.
    + done.
    + unfold fires in Hf. apply andb_true_iff in Hf as [Hf _].
      apply andb_true_iff in Hf as [Hf1 Hf2].
      by rewrite filter_cons_True.
    + intros Huniq. apply Huniq; [apply elem_of_cons; by left | done].
  - assert (Hca : a ∈ rest).
    { apply elem_of_cons in Ha as [-> | Ha]; [| done].
      exfalso. apply Hno. split; [done |]. unfold fires.
      rewrite Hon, Hdue. simpl. by apply bool_decide_eq_true. }
    assert (Hkeep : named (account_name a) (launched (tick_account gt now st c))
                    = named (account_name a) (launched st) /\
                    last_triggers (tick_account gt now st c) !! account_name a
                    = last_triggers st !! account_name a).
    { destruct (fires gt now st c) eqn:Hf.
      - rewrite tick_account_fires by done. simpl.
        assert (Hne : account_name c <> account_name a) by (intros ?; by apply Hno).
        split.
        + unfold named. rewrite filter_app, filter_cons_False, filter_nil by done.
          by rewrite app_nil_r.
        + by rewrite lookup_insert_ne.
      - by rewrite tick_account_idle. }
    destruct Hkeep as [Hl Ht].
    destruct (IH (tick_account gt now st c) Hca Hon Hdue)
      as (b & Hb1 & Hb2 & Hb3 & Hb4 & Hhead & Hb5).
    { by rewrite Ht. }
    exists b. split; [| split; [| split; [| split; [| split]]]].
    + by rewrite Hb1, Hl.
    + done.
    + apply elem_of_cons. by right.
    + done.
    + rewrite filter_cons_False; [exact Hhead |].
      intros (Hn & Hs & Hd). apply Hno. split; [done |]. unfold fires.
      rewrite Hs, Hd. simpl. apply bool_decide_eq_true. by rewrite Hn.
    + intros Huniq. apply Hb5. intros c' Hc'. apply Huniq. apply elem_of_cons. by right.
Qed.

End SameMinute.




(* ===================================================================== *)
(** * Further properties: times and the scheduler *)
(* ===================================================================== *)

(** X1. [ist_to_utc] maps a time of day to a time of day, 330 minutes
    earlier on the 24-hour clock. *)
Theorem ist_to_utc_shifts_by_330 (h m : Z) :
  0 <= h <= 23 -> 0 <= m <= 59 ->
  let '(h', m') := ist_to_utc h m in
  0 <= h' <= 23 /\ 0 <= m' <= 59 /\
  (h' * 60 + m' + 330) mod 1440 = h * 60 + m.
Proof.
  intros Hh Hm. unfold ist_to_utc.
  set (t := h * 60 + m - 330).
  destruct (t <? 0) eqn:Ht; [apply Z.ltb_lt in Ht | apply Z.ltb_ge in Ht].
  - pose proof (Z.div_mod (t + 1440) 60 ltac:(lia)) as Hdm.
    pose proof (Z.mod_pos_bound (t + 1440) 60 ltac:(lia)) as Hb.
    assert (Ht2 : 0 <= t + 1440 < 1440) by lia.
    assert (0 <= (t + 1440) / 60 <= 23).
    { split; [apply Z.div_pos; lia |].
      apply Z.lt_succ_r. apply Z.div_lt_upper_bound; lia. }
    split; [done |]. split; [lia |].
    replace ((t + 1440) / 60 * 60 + (t + 1440) mod 60 + 330) with (t + 1440 + 330) by lia.
    replace (t + 1440 + 330) with (h * 60 + m + 1 * 1440) by lia.
    rewrite Z.mod_add by lia. apply Z.mod_small. lia.
  - pose proof (Z.div_mod t 60 ltac:(lia)) as Hdm.
    pose proof (Z.mod_pos_bound t 60 ltac:(lia)) as Hb.
    assert (0 <= t / 60 <= 23).
    { split; [apply Z.div_pos; lia |].
      apply Z.lt_succ_r. apply Z.div_lt_upper_bound; lia. }
    split; [done |]. split; [lia |].
    replace (t / 60 * 60 + t mod 60 + 330) with (h * 60 + m) by lia.
    apply Z.mod_small. lia.
Qed.

Lemma ist_to_utc_shifts_by_330_witness :
  let '(h', m') := ist_to_utc 2 15 in
  0 <= h' <= 23 /\ 0 <= m' <= 59 /\ (h' * 60 + m' + 330) mod 1440 = 2 * 60 + 15.
Proof. exact (ist_to_utc_shifts_by_330 2 15 ltac:(lia) ltac:(lia)). Defined.

(** ** [parse_account_times] *)

Lemma parse_part_valid (p : string) (t : hm) : parse_part p = Some t -> valid_time t.
Proof.
  unfold parse_part. destruct (PyStr.mem_char ":" p); [| done].
  destruct (PyStr.split_on ":" p) as [| a [| b [| c l]]]; try done.
  destruct (PyStr.py_int a) as [h |]; [| done].
  destruct (PyStr.py_int b) as [m |]; [| done].
  destruct ((0 <=? h) && (h <=? 23) && (0 <=? m) && (m <=? 59)) eqn:Hr; [| done].
  intros [= <-]. unfold valid_time. simpl.
  repeat (apply andb_true_iff in Hr as [Hr ?]). lia.
Qed.

(** X2. Whatever the text, [parse_account_times] returns [None] or a
    list that is not empty and holds only times of day (hour 0..23, minute
    0..59): parts it cannot read or that are out of range are dropped. *)
Theorem parse_account_times_valid (time_str : option string) (times : list hm) :
  parse_account_times time_str = Some times ->
  times <> [] /\ Forall valid_time times.
Proof.
  unfold parse_account_times. destruct time_str as [s |]; [| done].
  destruct (String.eqb (PyStr.strip s) ""); [done |].
  set (parts := PyStr.split_on "," s). intros H.
  assert (Hall : Forall valid_time
                   (omap (fun p => parse_part (PyStr.strip p)) parts)).
  { apply Forall_forall. intros t Ht.
    apply list_elem_of_omap in Ht as (p & _ & Hp). by apply parse_part_valid in Hp. }
  destruct (omap _ parts) as [| t ts]; [done |].
  injection H as <-. by split.
Qed.

Lemma parse_account_times_valid_witness :
  [HM 7 30; HM 21 0] <> [] /\ Forall valid_time [HM 7 30; HM 21 0].
Proof.
  exact (parse_account_times_valid (Some "07:30, 25:00, x, 21:00 ")
           [HM 7 30; HM 21 0] eq_refl).
Defined.

Lemma all_chars_app (p : ascii -> bool) (a b : string) :
  all_chars p (a +:+ b) = all_chars p a && all_chars p b.
Proof.
  induction a as [| x a IH]; [done |].
  change (String x a +:+ b) with (String x (a +:+ b)). simpl.
  by rewrite IH, andb_assoc.
Qed.

Lemma all_chars_impl (p q : ascii -> bool) (s : string) :
  (forall c, p c = true -> q c = true) ->
  all_chars p s = true -> all_chars q s = true.
Proof.
  intros Hpq. induction s as [| c s IH]; [done |]. simpl.
  intros [Hc Hs]%andb_true_iff. by rewrite (Hpq c Hc), IH.
Qed.

(** An ASCII decimal digit is one of the ten characters. *)
Lemma is_digit_cases (c : ascii) :
  PyStr.is_digit c = true ->
  c ∈ ["0"; "1"; "2"; "3"; "4"; "5"; "6"; "7"; "8"; "9"]%char.
Proof.
  destruct c as [[] [] [] [] [] [] [] []]; try discriminate; intros _;
    repeat first [apply list_elem_of_here | apply list_elem_of_further].
Qed.

(** An ASCII character that is no white space. *)
Lemma digit_plain (c : ascii) :
  PyStr.is_digit c = true ->
  (N_of_ascii c <? 128)%N = true /\ PyStr.is_space (N_of_ascii c) = false.
Proof. destruct c as [[] [] [] [] [] [] [] []]; done. Qed.

Lemma digit_neq (c x : ascii) :
  PyStr.is_digit x = false -> PyStr.is_digit c = true -> Ascii.eqb c x = false.
Proof.
  intros Hx Hc. destruct (Ascii.eqb c x) eqn:He; [| done].
  apply Ascii.eqb_eq in He. congruence.
Qed.

Lemma decode1_ascii (c : ascii) (r : string) :
  (N_of_ascii c <? 128)%N = true ->
  PyStr.decode1 (String c r) = Some (N_of_ascii c, r).
Proof. intros H. unfold PyStr.decode1. by rewrite H. Qed.

Lemma lstrip_no_space (s : string) :
  all_chars plain s = true -> PyStr.lstrip s = s.
Proof.
  destruct s as [| c s]; [done |]. simpl all_chars.
  intros [[Hc Hs]%andb_true_iff _]%andb_true_iff.
  unfold PyStr.lstrip. cbn [String.length PyStr.lstrip_fuel].
  rewrite decode1_ascii by done. by apply negb_true_iff in Hs as ->.
Qed.

Lemma rstrip_no_space (s : string) :
  all_chars plain s = true -> PyStr.rstrip s = s.
Proof.
  induction s as [| c s IH]; [done |]. simpl all_chars.
  intros [[Hc Hsp]%andb_true_iff Hs]%andb_true_iff.
  cbn [PyStr.rstrip]. rewrite (IH Hs). unfold PyStr.one_space.
  rewrite decode1_ascii by done. apply negb_true_iff in Hsp. rewrite Hsp.
  by destruct s.
Qed.

Lemma strip_no_space (s : string) :
  all_chars plain s = true -> PyStr.strip s = s.
Proof.
  intros H. unfold PyStr.strip. by rewrite lstrip_no_space, rstrip_no_space.
Qed.

Lemma digits_plain (s : string) :
  all_chars PyStr.is_digit s = true -> all_chars plain s = true.
Proof.
  apply all_chars_impl. intros c Hc. unfold plain.
  destruct (digit_plain c Hc) as [-> ->]. done.
Qed.

Lemma mem_char_app_r (c : ascii) (a b : string) :
  PyStr.mem_char c (a +:+ String c b) = true.
Proof.
  induction a as [| x a IH].
  - simpl. change ("" +:+ String c b) with (String c b). simpl.
    by rewrite Ascii.eqb_refl.
  - change (String x a +:+ String c b) with (String x (a +:+ String c b)). simpl.
    rewrite IH. by destruct (Ascii.eqb c x).
Qed.

Lemma split_on_none (sep : ascii) (s : string) :
  all_chars (fun c => negb (Ascii.eqb c sep)) s = true ->
  PyStr.split_on sep s = [s].
Proof.
  induction s as [| c s IH]; [done |]. simpl. intros [Hc Hs]%andb_true_iff.
  apply negb_true_iff in Hc. by rewrite Hc, (IH Hs).
Qed.

Lemma split_on_first (sep : ascii) (a b : string) :
  all_chars (fun c => negb (Ascii.eqb c sep)) a = true ->
  PyStr.split_on sep (a +:+ String sep b) = a :: PyStr.split_on sep b.
Proof.
  induction a as [| c a IH]; intros Ha.
  - change ("" +:+ String sep b) with (String sep b). simpl.
    by rewrite Ascii.eqb_refl.
  - change (String c a +:+ String sep b) with (String c (a +:+ String sep b)).
    simpl in *. apply andb_true_iff in Ha as [Hc Ha].
    apply negb_true_iff in Hc. by rewrite Hc, (IH Ha).
Qed.

Lemma literal_digits_numeral (b : bool) (s : string) :
  all_chars PyStr.is_digit s = true -> (s <> "" \/ b = true) ->
  PyStr.literal_digits b s = Some s.
Proof.
  revert b. induction s as [| c s IH]; intros b Hall Hne.
  - simpl. destruct Hne as [Hne | ->]; done.
  - simpl in *. apply andb_true_iff in Hall as [Hc Hs].
    rewrite Hc, IH; auto.
Qed.

Lemma to_ascii_digits (s : string) (n : nat) :
  all_chars PyStr.is_digit s = true -> (String.length s <= n)%nat ->
  PyStr.to_ascii_fuel n s = Some s.
Proof.
  revert n. induction s as [| c s IH]; intros n Hall Hn.
  - by destruct n.
  - destruct n as [| n]; [simpl in Hn; lia |].
    simpl in Hall. apply andb_true_iff in Hall as [Hc Hs].
    destruct (digit_plain c Hc) as [Hlt _].
    cbn [PyStr.to_ascii_fuel]. rewrite decode1_ascii by done.
    unfold PyStr.to_ascii_char. rewrite Hlt, ascii_N_embedding.
    rewrite IH; [done | done | simpl in Hn; lia].
Qed.

Lemma digit_not_int_space (c : ascii) :
  PyStr.is_digit c = true -> PyStr.is_int_space (N_of_ascii c) = false.
Proof. destruct c as [[] [] [] [] [] [] [] []]; done. Qed.

Lemma lstrip_by_digits (p : ascii -> bool) (s : string) :
  (forall c, PyStr.is_digit c = true -> p c = false) ->
  all_chars PyStr.is_digit s = true -> PyStr.lstrip_by p s = s.
Proof.
  intros Hp. destruct s as [| c s]; [done |]. simpl.
  intros [Hc _]%andb_true_iff. by rewrite (Hp c Hc).
Qed.

Lemma rstrip_by_digits (p : ascii -> bool) (s : string) :
  (forall c, PyStr.is_digit c = true -> p c = false) ->
  all_chars PyStr.is_digit s = true -> PyStr.rstrip_by p s = s.
Proof.
  intros Hp. induction s as [| c s IH]; [done |]. simpl.
  intros [Hc Hs]%andb_true_iff. rewrite (IH Hs), (Hp c Hc). by destruct s.
Qed.

(** [int] reads a decimal numeral of at most 4300 digits as the number it
    denotes. *)
Lemma py_int_numeral (s : string) (n : Z) :
  numeral s -> (String.length s <= PyStr.int_max_str_digits)%nat ->
  PyStr.int_of_digits s = Some n -> PyStr.py_int s = Some n.
Proof.
  intros [Hne Hall] Hlen Hn. unfold PyStr.py_int, PyStr.to_ascii.
  rewrite to_ascii_digits by done.
  rewrite lstrip_by_digits, rstrip_by_digits
    by (done || intros c Hc; by apply digit_not_int_space).
  assert (Hlit : PyStr.int_of_literal s = Some n).
  { unfold PyStr.int_of_literal.
    rewrite (literal_digits_numeral false _ Hall (or_introl Hne)).
    by rewrite (proj2 (Nat.leb_le _ _) Hlen). }
  destruct s as [| c s]; [done |].
  assert (Hc : PyStr.is_digit c = true)
    by (simpl in Hall; by apply andb_true_iff in Hall as [? _]).
  destruct c as [[] [] [] [] [] [] [] []]; try discriminate Hc; exact Hlit.
Qed.

(** X3. A text [a:b] of two decimal numerals of at most 4300 digits
    each, leading zeros allowed, that denote an hour within 0..23 and a
    minute within 0..59 parses to exactly that one fire time. *)
Theorem parse_account_times_reads_numerals (a b : string) (h m : Z) :
  numeral a -> numeral b ->
  (String.length a <= PyStr.int_max_str_digits)%nat ->
  (String.length b <= PyStr.int_max_str_digits)%nat ->
  PyStr.int_of_digits a = Some h -> PyStr.int_of_digits b = Some m ->
  0 <= h <= 23 -> 0 <= m <= 59 ->
  parse_account_times (Some (a +:+ ":" +:+ b)) = Some [HM h m].
Proof.
  intros Ha Hb Hla Hlb Hh Hm Hhr Hmr.
  pose proof Ha as [Hane Haall]. pose proof Hb as [Hbne Hball].
  set (s := a +:+ ":" +:+ b).
  assert (Hns : forall x, PyStr.is_digit x = false ->
                all_chars (fun c => negb (Ascii.eqb c x)) a = true /\
                all_chars (fun c => negb (Ascii.eqb c x)) b = true).
  { intros x Hx. split; (eapply all_chars_impl; [| eassumption]);
      intros c Hc; by rewrite (digit_neq c x Hx Hc). }
  assert (Hspace : all_chars plain s = true).
  { unfold s. rewrite all_chars_app. change (":" +:+ b) with (String ":" b). simpl.
    by rewrite !digits_plain. }
  assert (Hcomma : all_chars (fun c => negb (Ascii.eqb c ",")) s = true).
  { unfold s. rewrite all_chars_app. change (":" +:+ b) with (String ":" b). simpl.
    destruct (Hns ","%char eq_refl) as [-> ->]. done. }
  assert (Hpart : parse_part s = Some (HM h m)).
  { unfold parse_part, s. change (":" +:+ b) with (String ":" b).
    rewrite mem_char_app_r.
    destruct (Hns ":"%char eq_refl) as [Hca Hcb].
    rewrite (split_on_first _ _ _ Hca), (split_on_none _ _ Hcb).
    rewrite (py_int_numeral a h Ha Hla Hh), (py_int_numeral b m Hb Hlb Hm).
    assert (Hr : (0 <=? h) && (h <=? 23) && (0 <=? m) && (m <=? 59) = true).
    { repeat (apply andb_true_iff; split); apply Z.leb_le; lia. }
    by rewrite Hr. }
  unfold parse_account_times. rewrite strip_no_space by done.
  assert (Hnonempty : String.eqb s "" = false).
  { apply String.eqb_neq. unfold s. destruct a; [done | discriminate]. }
  rewrite Hnonempty. rewrite (split_on_none _ _ Hcomma). simpl.
  by rewrite strip_no_space, Hpart.
Qed.

Lemma parse_account_times_reads_numerals_witness :
  parse_account_times (Some ("07" +:+ ":" +:+ "30")) = Some [HM 7 30].
Proof.
  apply (parse_account_times_reads_numerals "07" "30" 7 30).
  - split; [discriminate | reflexivity].
  - split; [discriminate | reflexivity].
  - unfold PyStr.int_max_str_digits. simpl. lia.
  - unfold PyStr.int_max_str_digits. simpl. lia.
  - reflexivity.
  - reflexivity.
  - lia.
  - lia.
Defined.

(** The bound is needed: an hour written with 4301 digits is refused by
    [int], and the part is dropped. *)
Lemma long_numeral_is_refused :
  parse_account_times (Some (Nat.iter 4300 (String "0") "7:30")) = None.
Proof. vm_compute. reflexivity. Qed.

(** ** The scheduler *)

Lemma tick_launch_sound (now : hm) (gt : list hm) (accounts : list config)
    (st : sched) (b : config) :
  b ∈ launched (tick accounts gt now st) ->
  b ∈ launched st \/
  (b ∈ accounts /\ schedule_on b = true /\
   should_run (effective_times b gt) now = true).
Proof.
  unfold tick. revert st. induction accounts as [| c rest IH]; intros st Hb; [by left |].
  simpl in Hb. apply IH in Hb as [Hb | (Hin & Hon & Hdue)].
  - destruct (fires gt now st c) eqn:Hf.
    + rewrite tick_account_fires in Hb by done. simpl in Hb.
      apply elem_of_app in Hb as [Hb | Hb]; [by left |].
      apply list_elem_of_singleton in Hb as ->. right.
      unfold fires in Hf. apply andb_true_iff in Hf as [Hf _].
      apply andb_true_iff in Hf as [Hon Hdue].
      split; [apply elem_of_cons; by left | by split].
    + rewrite tick_account_idle in Hb by done. by left.
  - right. split; [apply elem_of_cons; by right | by split].
Qed.

Lemma run_ticks_launch_sound (inputs : list tick_input) (st : sched) (b : config) :
  b ∈ launched (run_ticks inputs st) ->
  b ∈ launched st \/
  exists i, i ∈ inputs /\ b ∈ ti_accounts i /\ schedule_on b = true /\
            should_run (effective_times b (get_global_times_list (ti_settings i)))
                       (ti_now i) = true.
Proof.
  unfold run_ticks. revert st. induction inputs as [| i rest IH]; intros st Hb; [by left |].
  simpl in Hb. apply IH in Hb as [Hb | (j & Hj & Hrest)].
  - apply tick_launch_sound in Hb as [Hb | Hb]; [by left |].
    right. exists i. split; [apply elem_of_cons; by left | done].
  - right. exists j. split; [apply elem_of_cons; by right | done].
Qed.

(** X4. Every run the scheduler loop launches is that of an account it
    read in some turn, with scheduling switched on, at a clock reading that
    matches one of the account's effective fire times: an account that is
    switched off or not due is never launched. *)
Theorem scheduler_launches_only_due (inputs : list tick_input) (b : config) :
  b ∈ launched (run_schedule_loop inputs) ->
  exists i, i ∈ inputs /\ b ∈ ti_accounts i /\ schedule_on b = true /\
            should_run (effective_times b (get_global_times_list (ti_settings i)))
                       (ti_now i) = true.
Proof.
  intros Hb. apply run_ticks_launch_sound in Hb as [Hb | Hb]; [| done].
  by apply elem_of_nil in Hb.
Qed.

Lemma scheduler_launches_only_due_witness :
  exists i, i ∈ [Examples.at_0730 [Examples.twin_a; Examples.twin_b]] /\
            Examples.twin_a ∈ ti_accounts i /\ schedule_on Examples.twin_a = true /\
            should_run (effective_times Examples.twin_a
                          (get_global_times_list (ti_settings i))) (ti_now i) = true.
Proof.
  apply (scheduler_launches_only_due
           [Examples.at_0730 [Examples.twin_a; Examples.twin_b]] Examples.twin_a).
  vm_compute. apply list_elem_of_here.
Defined.

(** X5. The global switch of the schedule settings silences only the
    accounts that have no fire times of their own: with the switch off in
    every turn, an account whose [schedule_times] yields no time is never
    launched, while an enabled account whose own times match the clock of
    the first turn is launched by it when no account of the list shares
    its name. *)
Theorem global_switch_spares_custom_times (first : tick_input) (later : list tick_input)
    (a : config) :
  Forall (fun i => enabled (ti_settings i) = false) (first :: later) ->
  (parse_account_times (cfg_schedule_times a) = None ->
   a ∉ launched (run_schedule_loop (first :: later))) /\
  (forall times,
     parse_account_times (cfg_schedule_times a) = Some times ->
     should_run times (ti_now first) = true ->
     schedule_on a = true ->
     a ∈ ti_accounts first ->
     (forall c, c ∈ ti_accounts first -> account_name c = account_name a -> c = a) ->
     a ∈ launched (run_schedule_loop [first])).
Proof.
  intros Hoff. split.
  - intros Hnone Ha.
    apply run_ticks_launch_sound in Ha as [Ha | (i & Hi & _ & _ & Hdue)];
      [by apply elem_of_nil in Ha |].
    rewrite Forall_forall in Hoff. specialize (Hoff i Hi).
    unfold effective_times, get_global_times_list in Hdue.
    by rewrite Hnone, Hoff in Hdue.
  - intros times Htimes Hdue Hon Hin Huniq.
    destruct (tick_first (ti_now first) (get_global_times_list (ti_settings first))
                (ti_accounts first) (Sched [] ∅) a Hin Hon)
      as (b & Hb & _ & _ & _ & _ & Hba).
    { unfold effective_times. by rewrite Htimes. }
    { simpl. by rewrite lookup_empty. }
    rewrite (Hba Huniq) in Hb.
    assert (Ha : a ∈ named (account_name a)
                   (launched (tick (ti_accounts first)
                                (get_global_times_list (ti_settings first))
                                (ti_now first) (Sched [] ∅)))).
    { rewrite Hb. apply elem_of_app. right. apply list_elem_of_here. }
    unfold named in Ha. by apply list_elem_of_filter in Ha as [_ Ha].
Qed.

Lemma global_switch_spares_custom_times_witness :
  let off := ScheduleSettings false (Some (HM 7 30)) None None None in
  let first := TickInput (HM 7 30) [Examples.carousel_cfg; Examples.reel_cfg] off in
  (parse_account_times (cfg_schedule_times Examples.reel_cfg) = None ->
   Examples.reel_cfg ∉ launched (run_schedule_loop [first; first])) /\
  (forall times,
     parse_account_times (cfg_schedule_times Examples.reel_cfg) = Some times ->
     should_run times (ti_now first) = true ->
     schedule_on Examples.reel_cfg = true ->
     Examples.reel_cfg ∈ ti_accounts first ->
     (forall c, c ∈ ti_accounts first ->
                account_name c = account_name Examples.reel_cfg ->
                c = Examples.reel_cfg) ->
     Examples.reel_cfg ∈ launched (run_schedule_loop [first])).
Proof.
  apply (global_switch_spares_custom_times
           (TickInput (HM 7 30) [Examples.carousel_cfg; Examples.reel_cfg]
              (ScheduleSettings false (Some (HM 7 30)) None None None))
           [TickInput (HM 7 30) [Examples.carousel_cfg; Examples.reel_cfg]
              (ScheduleSettings false (Some (HM 7 30)) None None None)]
           Examples.reel_cfg).
  repeat constructor.
Defined.

(** What the loop keeps when it only ever reads the one account [a], whose
    single fire time is minute [m] of the day: at most one launch, and the
    record of that minute once it has launched. *)
Lemma single_time_invariant (a : config) (t : hm) (inputs : list tick_input)
    (st : sched) :
  parse_account_times (cfg_schedule_times a) = Some [t] ->
  Forall (fun i => ti_accounts i = [a]) inputs ->
  (length (launched st) <= 1)%nat ->
  (launched st <> [] ->
   last_triggers st !! account_name a = Some (current_minute_abs t)) ->
  (length (launched (run_ticks inputs st)) <= 1)%nat.
Proof.
  intros Ht Hall. revert st. unfold run_ticks.
  induction Hall as [| i rest Hi _ IH]; intros st Hlen Hrec; [done |].
  simpl. apply IH.
  - rewrite Hi. unfold tick. simpl.
    destruct (fires (get_global_times_list (ti_settings i)) (ti_now i) st a) eqn:Hf.
    + rewrite tick_account_fires by done. simpl.
      destruct (launched st) as [| x l] eqn:Hl; [simpl; lia |].
      exfalso. unfold fires in Hf. apply andb_true_iff in Hf as [Hf Hrec'].
      apply andb_true_iff in Hf as [_ Hdue].
      apply bool_decide_eq_true in Hrec'. apply Hrec'.
      rewrite Hrec by done. f_equal.
      unfold effective_times in Hdue. rewrite Ht in Hdue. simpl in Hdue.
      rewrite orb_false_r in Hdue. apply andb_true_iff in Hdue as [Hh Hm].
      apply Z.eqb_eq in Hh, Hm. unfold current_minute_abs. by rewrite Hh, Hm.
    + by rewrite tick_account_idle.
  - rewrite Hi. unfold tick. simpl.
    destruct (fires (get_global_times_list (ti_settings i)) (ti_now i) st a) eqn:Hf.
    + intros _. rewrite tick_account_fires by done. simpl.
      rewrite lookup_insert_eq. f_equal.
      unfold fires in Hf. apply andb_true_iff in Hf as [Hf _].
      apply andb_true_iff in Hf as [_ Hdue].
      unfold effective_times in Hdue. rewrite Ht in Hdue. simpl in Hdue.
      rewrite orb_false_r in Hdue. apply andb_true_iff in Hdue as [Hh Hm].
      apply Z.eqb_eq in Hh, Hm. unfold current_minute_abs. by rewrite Hh, Hm.
    + rewrite tick_account_idle by done. exact Hrec.
Qed.

(** X6. The record of the last launch is a minute of the day without a
    date. When the loop reads a single account with a single fire time of
    its own, it launches that account at most once, however many turns, and
    days, it runs. *)
Theorem single_fire_time_launches_at_most_once (a : config) (t : hm)
    (inputs : list tick_input) :
  parse_account_times (cfg_schedule_times a) = Some [t] ->
  Forall (fun i => ti_accounts i = [a]) inputs ->
  (length (launched (run_schedule_loop inputs)) <= 1)%nat.
Proof.
  intros Ht Hall. unfold run_schedule_loop.
  apply (single_time_invariant a t inputs (Sched [] ∅) Ht Hall); simpl; [lia | done].
Qed.

Lemma single_fire_time_launches_at_most_once_witness :
  (length (launched (run_schedule_loop
     [Examples.at_0730 [Examples.carousel_cfg];
      TickInput (HM 12 0) [Examples.carousel_cfg] Examples.default_settings;
      Examples.at_0730 [Examples.carousel_cfg]])) <= 1)%nat.
Proof.
  apply (single_fire_time_launches_at_most_once Examples.carousel_cfg (HM 7 30)).
  - reflexivity.
  - repeat constructor.
Defined.

(* ===================================================================== *)
(** * Further properties: polling, selection and marking *)
(* ===================================================================== *)

(** One turn of the loop on an answer the status line cannot read. *)
Lemma wait_loop_ill_typed (E : env) (cid : string) (delay : Z) (n : nat) (w : world)
    (e : exn) :
  poll_verdict (e_poll E (clock w) cid) = Some (Raise e) ->
  wait_loop E cid delay (S n) w
  = (Raise e,
     World (files w) (pushes w) (heads w) (cid :: polls w) (slept w)
           (notified w) (S (clock w))).
Proof.
  intros Hv. cbn [wait_loop]. unfold poll_verdict in Hv. munfold. simpl.
  destruct (e_poll E (clock w) cid) as [err | resp | ty attr]; [done | |].
  - destruct (String.eqb (poll_status resp) "FINISHED"); [done |].
    by destruct (String.eqb (poll_status resp) "ERROR").
  - by injection Hv as <-.
Qed.

Lemma wait_loop_effect (E : env) (cid : string) (delay : Z) (attempts : nat) (w : world) :
  exists r w' n,
    wait_loop E cid delay attempts w = (r, w') /\
    (n <= attempts)%nat /\
    polls w' = repeat cid n ++ polls w /\
    files w' = files w /\ pushes w' = pushes w /\
    (forall j, (S j < n)%nat -> poll_verdict (e_poll E (clock w + j) cid) = None) /\
    match r with
    | Ok (b, resp) =>
        (1 <= n)%nat /\
        e_poll E (clock w + (n - 1)) cid = PollAnswer resp /\
        poll_verdict (PollAnswer resp) = Some (Ok b) /\
        slept w' = slept w + (Z.of_nat n - 1) * delay
    | Raise e =>
        (e = NameError "last_resp" /\ n = attempts /\
         (forall j, (j < n)%nat -> poll_verdict (e_poll E (clock w + j) cid) = None) /\
         slept w' = slept w + Z.of_nat n * delay) \/
        ((1 <= n)%nat /\
         poll_verdict (e_poll E (clock w + (n - 1)) cid) = Some (Raise e) /\
         slept w' = slept w + (Z.of_nat n - 1) * delay)
    end.
Proof.
  revert w. induction attempts as [| k IH]; intros w.
  { exists (Raise (NameError "last_resp")), w, 0%nat. simpl.
    split; [done |]. split; [lia |]. split; [done |]. split; [done |].
    split; [done |]. split; [intros j Hj; lia |]. left.
    split; [done |]. split; [done |]. split; [intros j Hj; lia | lia]. }
  destruct (poll_verdict (e_poll E (clock w) cid)) as [[b | e] |] eqn:Hv.
  - destruct (e_poll E (clock w) cid) as [err | resp | ty attr] eqn:Hp; [done | | done].
    exists (Ok (b, resp)). eexists. exists 1%nat.
    rewrite (wait_loop_decide E cid delay k w resp b Hp Hv). simpl.
    split; [reflexivity |]. split; [lia |]. split; [done |]. split; [done |].
    split; [done |]. split; [intros j Hj; lia |].
    split; [lia |]. rewrite Nat.add_0_r. split; [done |]. split; [done |].
    simpl. lia.
  - exists (Raise e). eexists. exists 1%nat.
    rewrite (wait_loop_ill_typed E cid delay k w e Hv). simpl.
    split; [reflexivity |]. split; [lia |]. split; [done |]. split; [done |].
    split; [done |]. split; [intros j Hj; lia |]. right.
    split; [lia |]. rewrite Nat.add_0_r. split; [done |]. simpl. lia.
  - rewrite (wait_loop_continue E cid delay k w Hv).
    match goal with |- context [wait_loop E cid delay k ?w1] =>
      destruct (IH w1)
        as (r & w' & n & Hrun & Hn & Hpolls & Hfiles & Hpush & Hund & Hr) end.
    exists r, w', (S n). split; [exact Hrun |]. split; [lia |].
    cbn [polls files pushes clock slept] in Hpolls, Hfiles, Hpush, Hund, Hr. split.
    { rewrite Hpolls. by rewrite repeat_snoc_cons. }
    split; [done |]. split; [done |].
    assert (Hshift : forall m, (forall j, (j < m)%nat ->
                        poll_verdict (e_poll E (S (clock w) + j) cid) = None) ->
                      forall j, (j < S m)%nat ->
                        poll_verdict (e_poll E (clock w + j) cid) = None).
    { intros m Hm [| j] Hj; [by rewrite Nat.add_0_r |].
      replace (clock w + S j)%nat with (S (clock w) + j)%nat by lia. apply Hm. lia. }
    split.
    { intros j Hj. apply (Hshift (n - 1)%nat); [| lia].
      intros i Hi. apply Hund. lia. }
    destruct r as [[b resp] | e].
    + destruct Hr as (Hn1 & Hp & Hb & Hs). split; [lia |].
      split; [| split; [done |]].
      * replace (clock w + (S n - 1))%nat with (S (clock w) + (n - 1))%nat by lia.
        exact Hp.
      * rewrite Hs. lia.
    + destruct Hr as [(He & Hn1 & Hall & Hs) | (Hn1 & Hp & Hs)].
      * left. split; [done |]. split; [lia |]. split; [by apply Hshift |].
        rewrite Hs. lia.
      * right. split; [lia |]. split.
        -- replace (clock w + (S n - 1))%nat with (S (clock w) + (n - 1))%nat by lia.
           exact Hp.
        -- rewrite Hs. lia.
Qed.

(** X7. [wait_until_ready] polls the container at most 600 times, touches
    no file and starts no push, and sleeps 2 seconds after every poll that
    decides nothing (a failed request, an unreadable body, any status
    other than [FINISHED] and [ERROR]). It leaves the loop at the first
    poll that decides: with success on [FINISHED], with failure on
    [ERROR], each with the answer, and with [AttributeError] on an answer
    the status line, which stands outside the [try], cannot read (a JSON
    value that is no object, a status that is no string). When none of
    the 600 polls decides it raises [NameError], after 1200 seconds of
    sleep. *)
Theorem wait_until_ready_effect (E : env) (cid token : string) (w : world) :
  exists r w' n,
    wait_until_ready E cid token w = (r, w') /\
    (n <= 600)%nat /\
    polls w' = repeat cid n ++ polls w /\
    files w' = files w /\ pushes w' = pushes w /\
    (forall j, (S j < n)%nat -> poll_verdict (e_poll E (clock w + j) cid) = None) /\
    match r with
    | Ok (b, resp) =>
        (1 <= n)%nat /\
        e_poll E (clock w + (n - 1)) cid = PollAnswer resp /\
        poll_verdict (PollAnswer resp) = Some (Ok b) /\
        slept w' = slept w + (Z.of_nat n - 1) * 2
    | Raise e =>
        (e = NameError "last_resp" /\ n = 600%nat /\
         (forall j, (j < 600)%nat -> poll_verdict (e_poll E (clock w + j) cid) = None) /\
         slept w' = slept w + 1200) \/
        ((1 <= n)%nat /\
         (exists ty attr,
            e_poll E (clock w + (n - 1)) cid = PollIllTyped ty attr /\
            e = no_attribute ty attr) /\
         slept w' = slept w + (Z.of_nat n - 1) * 2)
    end.
Proof.
  destruct (wait_loop_effect E cid 2 600 w)
    as (r & w' & n & Hrun & Hn & Hpolls & Hfiles & Hpush & Hund & Hr).
  exists r, w', n. split; [exact Hrun |]. split; [done |].
  split; [done |]. split; [done |]. split; [done |]. split; [done |].
  destruct r as [[b resp] | e]; [done |].
  destruct Hr as [(He & Hn6 & Hall & Hs) | (Hn1 & Hp & Hs)].
  - left. split; [done |]. split; [done |]. subst n. split; [done |].
    rewrite Hs. reflexivity.
  - right. split; [done |]. split; [| done].
    unfold poll_verdict in Hp.
    destruct (e_poll E (clock w + (n - 1)) cid) as [err | resp | ty attr]; [done | |].
    + destruct (String.eqb (poll_status resp) "FINISHED"); [done |].
      by destruct (String.eqb (poll_status resp) "ERROR").
    + exists ty, attr. split; [done |]. by injection Hp as <-.
Qed.

(** ** Marking *)

Lemma elem_of_foldl_union (f : string -> string) (l : list string) (s : gset string)
    (x : string) :
  x ∈ foldl (fun acc u => acc ∪ {[f u]}) s l <-> x ∈ s \/ exists u, u ∈ l /\ x = f u.
Proof.
  revert s. induction l as [| u l IH]; intros s; simpl.
  - split; [by left | intros [H | (u & Hu & _)]; [done | by apply elem_of_nil in Hu]].
  - rewrite IH. rewrite elem_of_union, elem_of_singleton. split.
    + intros [[H | ->] | (v & Hv & ->)].
      * by left.
      * right. exists u. split; [apply list_elem_of_here | done].
      * right. exists v. split; [by apply list_elem_of_further | done].
    + intros [H | (v & Hv & ->)]; [left; by left |].
      apply elem_of_cons in Hv as [-> | Hv]; [left; by right |].
      right. by exists v.
Qed.

(** X8. [mark_images_used] stores, without duplicates, exactly the used-set
    it read together with the last path segment of every URL it is given,
    and starts one push; nothing it read is dropped. *)
Theorem mark_images_used_is_union (E : env) (cfg : config) (selected_urls : list string)
    (w : world) :
  let prefix := cfg_state_prefix cfg in
  exists w0 w',
    image_used_list E prefix w = (Ok (stored_used w0 Image prefix), w0) /\
    mark_images_used E cfg selected_urls w = (Ok tt, w') /\
    NoDup (stored_used w' Image prefix) /\
    (forall x, x ∈ stored_used w' Image prefix <->
               x ∈ stored_used w0 Image prefix \/
               exists u, u ∈ selected_urls /\ x = PyStr.last_segment u) /\
    pushes w' = prefix :: pushes w.
Proof.
  intros prefix.
  destruct (load_used_effect E Image prefix w) as (w0 & Hload & _ & Hp & _).
  simpl in Hload.
  set (used' := foldl (fun acc u => acc ∪ {[PyStr.last_segment u]})
                      (list_to_set (stored_used w0 Image prefix) : gset string)
                      selected_urls).
  exists w0,
    (World (<[image_used_path prefix := FUsed (elements used')]> (files w0))
           (prefix :: pushes w0) (heads w0) (polls w0) (slept w0)
           (notified w0) (clock w0)).
  split; [exact Hload |]. split.
  { unfold mark_images_used. fold prefix. rewrite (bind_ok _ _ _ _ _ Hload).
    reflexivity. }
  assert (Hst : forall fs ps hs qs sl ns ck,
            stored_used
              (World (<[image_used_path prefix := FUsed (elements used')]> fs)
                     ps hs qs sl ns ck) Image prefix = elements used').
  { intros. unfold stored_used. cbn [files used_path]. by rewrite lookup_insert_eq. }
  rewrite Hst. split; [apply NoDup_elements |]. split; [| cbn [pushes]; by rewrite Hp].
  intros x. rewrite elem_of_elements. unfold used'.
  rewrite elem_of_foldl_union, elem_of_list_to_set. reflexivity.
Qed.

(** ** The stored name of a candidate *)

Lemma mem_char_app (c : ascii) (a b : string) :
  PyStr.mem_char c (a +:+ b) = PyStr.mem_char c a || PyStr.mem_char c b.
Proof.
  induction a as [| x a IH]; [done |].
  change (String x a +:+ b) with (String x (a +:+ b)). simpl.
  rewrite IH. by destruct (Ascii.eqb c x).
Qed.

Lemma quote_piece_no_slash (c : ascii) :
  PyStr.mem_char "/"
    (if PyStr.always_safe c || PyStr.mem_char c "()"
     then String c EmptyString else PyStr.pct_encode c) = false.
Proof. destruct c as [[] [] [] [] [] [] [] []]; reflexivity. Qed.

(** A quoted name holds no slash. *)
Lemma quote_no_slash (s : string) : PyStr.mem_char "/" (PyStr.quote "()" s) = false.
Proof.
  induction s as [| c s IH]; [done |]. simpl.
  by rewrite mem_char_app, quote_piece_no_slash, IH.
Qed.

Lemma last_segment_after_slash (base s : string) :
  PyStr.mem_char "/" s = false -> PyStr.last_segment (base +:+ "/" +:+ s) = s.
Proof.
  intros Hs. induction base as [| c base IH].
  - change ("" +:+ "/" +:+ s) with (String "/" s). simpl. by rewrite Hs.
  - change (String c base +:+ "/" +:+ s) with (String c (base +:+ "/" +:+ s)).
    simpl. rewrite mem_char_app. change ("/" +:+ s) with (String "/" s). simpl.
    by rewrite orb_true_r.
Qed.

(** X9. The URL [get_random_candidate] builds for a video file name ends in
    the percent-encoded name: that, not the file name, is what the marking
    step of a run reads back from the URL, and the two differ as soon as
    the name holds a character [quote] escapes, a space for one. *)
Theorem candidate_url_ends_in_quoted_name (cfg : config) (selected_filename : string) :
  PyStr.last_segment (candidate_url cfg Video selected_filename)
  = PyStr.quote "()" selected_filename /\
  (PyStr.mem_char " " selected_filename = true ->
   PyStr.quote "()" selected_filename <> selected_filename).
Proof.
  split.
  - unfold candidate_url. apply last_segment_after_slash, quote_no_slash.
  - intros Hsp Heq.
    assert (Hno : PyStr.mem_char " " (PyStr.quote "()" selected_filename) = false).
    { clear. induction selected_filename as [| c s IH]; [done |]. simpl.
      rewrite mem_char_app, IH, orb_false_r.
      destruct c as [[] [] [] [] [] [] [] []]; reflexivity. }
    rewrite Heq in Hno. congruence.
Qed.

Lemma candidate_url_ends_in_quoted_name_witness :
  PyStr.last_segment (candidate_url Examples.reel_cfg Video "vid (1).mp4")
  = PyStr.quote "()" "vid (1).mp4" /\
  (PyStr.mem_char " " "vid (1).mp4" = true ->
   PyStr.quote "()" "vid (1).mp4" <> "vid (1).mp4").
Proof. exact (candidate_url_ends_in_quoted_name Examples.reel_cfg "vid (1).mp4"). Defined.

(** ** Random selection *)

(** X10. A candidate [get_random_candidate] returns is a catalog entry the
    used-set it read does not hold, and then no file was written; the one
    exception is the exhaustion case, in which every catalog entry was
    used and the stored used-set is empty when the call returns. *)
Theorem random_candidate_is_unused (E : env) (cfg : config) (k : kind) (w w' : world)
    (c : candidate) :
  let prefix := cfg_state_prefix cfg in
  get_random_candidate E cfg k w = (Ok (Some c), w') ->
  exists w0,
    load_used E k prefix w = (Ok (stored_used w0 k prefix), w0) /\
    cand_filename c ∈ catalog cfg k /\
    (((cand_filename c ∉ stored_used w0 k prefix) /\ files w' = files w0) \/
     ((forall x, x ∈ catalog cfg k -> x ∈ stored_used w0 k prefix) /\
      stored_used w' k prefix = [])).
Proof.
  intros prefix Hrun.
  destruct (load_used_effect E k prefix w) as (w0 & Hload & _ & _ & _).
  exists w0. split; [exact Hload |].
  unfold get_random_candidate in Hrun. fold prefix in Hrun.
  rewrite (bind_ok _ _ _ _ _ Hload) in Hrun.
  set (used := stored_used w0 k prefix) in *.
  destruct (filter (fun x => x ∉ (list_to_set used : gset string)) (catalog cfg k))
    as [| y ys] eqn:Hfilter.
  - pose proof (filter_unused_nil used (catalog cfg k) Hfilter) as Hall.
    destruct (cfg_name cfg) as [name |]; [| discriminate Hrun].
    simpl require in Hrun. erewrite bind_ok in Hrun; cycle 1.
    { erewrite bind_ok by reflexivity.
      rewrite (bind_ok _ _ _ _ _ (save_used_sync k prefix [] w0)). reflexivity. }
    destruct (catalog cfg k) as [| i0 items] eqn:Hcat; [discriminate Hrun |].
    match type of Hrun with probe_loop E cfg k ?b ?l ?w1 = _ =>
      destruct (probe_loop_effect E cfg k b l w1) as (r & w2 & Hp & Hf & _ & _ & Hc) end.
    rewrite Hp in Hrun. injection Hrun as -> <-.
    destruct (Hc c eq_refl) as (Hin & _ & _). split; [done |].
    right. split; [done |]. unfold stored_used. rewrite Hf. cbn [files].
    by rewrite lookup_insert_eq.
  - erewrite bind_ok in Hrun by reflexivity. cbv beta iota in Hrun.
    destruct (probe_loop_effect E cfg k max_check_attempts (y :: ys) w0)
      as (r & w2 & Hp & Hf & _ & _ & Hc).
    rewrite Hp in Hrun. injection Hrun as -> <-.
    destruct (Hc c eq_refl) as (Hin & _ & _). rewrite <- Hfilter in Hin.
    apply list_elem_of_filter in Hin as [Hnot Hin]. split; [done |].
    left. split; [| done]. intros Hused. apply Hnot. by apply elem_of_list_to_set.
Qed.

Lemma random_candidate_is_unused_witness :
  exists w0,
    load_used Examples.all_fine Video "clips"
      (Examples.world_of {[ "clips_video_used.json" := FUsed ["vid.mp4"] ]})
    = (Ok (stored_used w0 Video "clips"), w0) /\
    "vid (1).mp4" ∈ catalog Examples.reel_cfg Video /\
    ((("vid (1).mp4" ∉ stored_used w0 Video "clips") /\
      files (snd (get_random_candidate Examples.all_fine Examples.reel_cfg Video
                    (Examples.world_of {[ "clips_video_used.json" := FUsed ["vid.mp4"] ]})))
      = files w0) \/
     ((forall x, x ∈ catalog Examples.reel_cfg Video -> x ∈ stored_used w0 Video "clips") /\
      stored_used (snd (get_random_candidate Examples.all_fine Examples.reel_cfg Video
                          (Examples.world_of
                             {[ "clips_video_used.json" := FUsed ["vid.mp4"] ]})))
                  Video "clips" = [])).
Proof.
  apply (random_candidate_is_unused Examples.all_fine Examples.reel_cfg Video
           (Examples.world_of {[ "clips_video_used.json" := FUsed ["vid.mp4"] ]})
           _ (Candidate "http://h/vids/vid%20(1).mp4" "vid (1).mp4")).
  vm_compute. reflexivity.
Defined.

Lemma dedup_from_spec (seen l : list string) :
  NoDup (dedup_from seen l) /\
  (length (dedup_from seen l) <= length l)%nat /\
  (forall x, x ∈ dedup_from seen l <-> x ∈ l /\ x ∉ seen).
Proof.
  revert seen. induction l as [| y l IH]; intros seen; simpl.
  - split; [constructor |]. split; [lia |]. intros x. split.
    + intros H. by apply elem_of_nil in H.
    + intros [H _]. by apply elem_of_nil in H.
  - destruct (bool_decide (y ∈ seen)) eqn:Hy.
    + apply bool_decide_eq_true in Hy. destruct (IH seen) as (Hn & Hl & Hx).
      split; [done |]. split; [lia |]. intros x. rewrite Hx, elem_of_cons.
      split; [intros [? ?]; auto |]. intros [[-> | H] Hs]; [done | auto].
    + apply bool_decide_eq_false in Hy. destruct (IH (y :: seen)) as (Hn & Hl & Hx).
      split.
      { constructor; [| done]. rewrite Hx. intros [_ H]. apply H, list_elem_of_here. }
      split; [simpl; lia |]. intros x. rewrite !elem_of_cons, Hx, elem_of_cons.
      split.
      * intros [-> | [H Hs]]; [auto |]. split; [auto |]. intros Hxs. apply Hs. by right.
      * intros [[-> | H] Hs]; [by left |].
        destruct (decide (x = y)) as [-> | Hne]; [by left |]. right. split; [done |].
        intros [-> | Hxs]; done.
Qed.

Lemma mapM_length {A B} (f : A -> M B) (l : list A) (w w' : world) (ys : list B) :
  mapM f l w = (Ok ys, w') -> length ys = length l.
Proof.
  revert w w' ys. induction l as [| x l IH]; intros w w' ys; simpl.
  - by intros [= <- _].
  - unfold mbind, M_bind, bind. destruct (f x w) as [[y | e] w1]; [| done].
    destruct (mapM f l w1) as [[zs | e] w2] eqn:Hm; [| done].
    intros [= <- _]. simpl. f_equal. by eapply IH.
Qed.

Lemma omap_length_le {A B} (f : A -> option B) (l : list A) :
  (length (omap f l) <= length l)%nat.
Proof. induction l as [| x l IH]; csimpl; [lia |]. destruct (f x); csimpl; lia. Qed.

(** X11. When [select_random_images] returns, the URLs it selected are
    pairwise different, at least one and at most [slides_per_post] many
    (a draw repeated within the run collapses, so the carousel can hold
    fewer slides than configured). *)
Theorem select_random_images_distinct (E : env) (cfg : config) (w w' : world)
    (imgs : list string) :
  select_random_images E cfg w = (Ok imgs, w') ->
  NoDup imgs /\ imgs <> [] /\
  (length imgs <= Z.to_nat (default 1%Z (cfg_slides_per_post cfg)))%nat.
Proof.
  unfold select_random_images. unfold mbind, M_bind, bind.
  destruct (mapM _ _ w) as [[cands | e] w1] eqn:Hm; [| done].
  apply mapM_length in Hm.
  set (urls := omap (fmap cand_url) cands).
  destruct (dedup_from_spec [] urls) as (Hn & Hl & _).
  unfold dedup_first. destruct (dedup_from [] urls) as [| u us] eqn:Hd; [done |].
  intros [= <- _]. split; [done |]. split; [done |].
  pose proof (omap_length_le (fmap cand_url) cands) as Ho. fold urls in Ho.
  unfold py_range in Hm. rewrite length_map, length_seq in Hm.
  rewrite Z.sub_0_r in Hm. lia.
Qed.

Lemma select_random_images_distinct_witness :
  NoDup ["http://h/imgs/img%20(2).jpg"] /\ ["http://h/imgs/img%20(2).jpg"] <> [] /\
  (length ["http://h/imgs/img%20(2).jpg"]
   <= Z.to_nat (default 1%Z (cfg_slides_per_post Examples.carousel_cfg)))%nat.
Proof.
  apply (select_random_images_distinct Examples.all_fine Examples.carousel_cfg
           Examples.empty_world
           (snd (select_random_images Examples.all_fine Examples.carousel_cfg
                   Examples.empty_world))).
  vm_compute. reflexivity.
Defined.

(* ===================================================================== *)
(** * Further properties: sequential selection and the preview *)
(* ===================================================================== *)

Lemma mapM_mod (mx : Z) (a : Z -> Z) (g : Z -> string) (l : list Z) (w : world) :
  mx <> 0 ->
  mapM (fun i => r ← py_mod (a i) mx; mret (g r)) l w
  = (Ok (map (fun i => g (a i mod mx)) l), w).
Proof.
  intros Hmx. induction l as [| i l IH]; [done |].
  assert (Hf : (r ← py_mod (a i) mx; mret (g r)) w = (Ok (g (a i mod mx)), w)).
  { unfold py_mod. by rewrite (proj2 (Z.eqb_neq mx 0) Hmx). }
  cbn [mapM map]. rewrite (bind_ok _ _ _ _ _ Hf), (bind_ok _ _ _ _ _ IH). reflexivity.
Qed.

(** One call of [next_images] on a stored pointer. *)
Lemma next_images_step (E : env) (cfg : config) (last : Z) (w : world) :
  let prefix := cfg_state_prefix cfg in
  let count := default 1 (cfg_slides_per_post cfg) in
  let mx := default 10000 (cfg_max_images cfg) in
  let index i := (last + i - 1) mod mx + 1 in
  let url i := _norm_base (cfg_base_url cfg) +:+ "/"
               +:+ PyStr.quote "()" (_image_name_for (index i)) in
  0 < mx ->
  _norm_base (cfg_base_url cfg) <> "" ->
  files w !! index_path prefix "image" = Some (FIndex last) ->
  next_images E cfg w
  = (Ok (map url (py_range 1 (count + 1))),
     World (<[index_path prefix "image" := FIndex (index count)]> (files w))
           (prefix :: pushes w) (heads w) (polls w) (slept w) (notified w) (clock w)).
Proof.
  intros prefix count mx index url Hmx Hb Hi.
  assert (Hbase : String.eqb (_norm_base (cfg_base_url cfg)) "" = false)
    by (by apply String.eqb_neq).
  unfold next_images. fold prefix count mx.
  erewrite bind_ok by (apply load_last_index_present; exact Hi).
  rewrite Hbase.
  erewrite bind_ok; cycle 1.
  { apply (mapM_mod mx (fun i => last + i - 1)
             (fun r => _norm_base (cfg_base_url cfg) +:+ "/"
                       +:+ encode_next_image prefix (r + 1))). lia. }
  unfold py_mod. rewrite (proj2 (Z.eqb_neq mx 0)) by lia.
  erewrite bind_ok by reflexivity.
  rewrite (bind_ok _ _ _ _ _ (save_last_index_sync _ _ _ _)).
  unfold mret, M_ret, ret. f_equal. f_equal.
  apply map_ext. intros i. unfold url, index. by rewrite next_image_url.
Qed.

(** X12. With a positive catalog bound [max_images], a stored image pointer
    [last] and a base URL, [next_images] returns one URL per slide, for the
    indices [(last + i - 1) mod max_images + 1], [i = 1 .. slides_per_post],
    each within [1 .. max_images]; it writes the pointer file only, and the
    pointer it stores, [(last + slides_per_post - 1) mod max_images + 1],
    is within [1 .. max_images] whatever [last] was. *)
Theorem next_images_in_bounds (E : env) (cfg : config) (last : Z) (w : world) :
  let prefix := cfg_state_prefix cfg in
  let count := default 1 (cfg_slides_per_post cfg) in
  let mx := default 10000 (cfg_max_images cfg) in
  let index i := (last + i - 1) mod mx + 1 in
  let url i := _norm_base (cfg_base_url cfg) +:+ "/"
               +:+ PyStr.quote "()" (_image_name_for (index i)) in
  0 < mx ->
  _norm_base (cfg_base_url cfg) <> "" ->
  files w !! index_path prefix "image" = Some (FIndex last) ->
  exists w',
    next_images E cfg w = (Ok (map url (py_range 1 (count + 1))), w') /\
    length (py_range 1 (count + 1)) = Z.to_nat count /\
    (forall i, 1 <= index i <= mx) /\
    files w' = <[index_path prefix "image" := FIndex (index count)]> (files w) /\
    1 <= stored_index w' prefix "image" <= mx.
Proof.
  intros prefix count mx index url Hmx Hb Hi.
  assert (Hidx : forall i, 1 <= index i <= mx).
  { intros i. unfold index. pose proof (Z.mod_pos_bound (last + i - 1) mx Hmx). lia. }
  eexists. split; [| split; [| split; [| split]]].
  - by apply next_images_step.
  - unfold py_range. rewrite length_map, length_seq. f_equal. lia.
  - exact Hidx.
  - reflexivity.
  - unfold stored_index. cbn [files]. rewrite lookup_insert_eq. simpl.
    apply (Hidx count).
Qed.

Lemma next_images_in_bounds_witness :
  let E := Examples.all_fine in
  let cfg := Examples.carousel_cfg in
  let last := 57 in
  let w := Examples.world_of {[ "acct_image.json" := FIndex 57 ]} in
  let prefix := cfg_state_prefix cfg in
  let count := default 1 (cfg_slides_per_post cfg) in
  let mx := default 10000 (cfg_max_images cfg) in
  let index i := (last + i - 1) mod mx + 1 in
  let url i := _norm_base (cfg_base_url cfg) +:+ "/"
               +:+ PyStr.quote "()" (_image_name_for (index i)) in
  exists w',
    next_images E cfg w = (Ok (map url (py_range 1 (count + 1))), w') /\
    length (py_range 1 (count + 1)) = Z.to_nat count /\
    (forall i, 1 <= index i <= mx) /\
    files w' = <[index_path prefix "image" := FIndex (index count)]> (files w) /\
    1 <= stored_index w' prefix "image" <= mx.
Proof.
  intros E cfg last w.
  apply (next_images_in_bounds E cfg last w).
  - reflexivity.
  - discriminate.
  - reflexivity.
Defined.

(** X13. [next_images] fails before it writes: without a base URL it
    raises [RuntimeError], and with [max_images = 0] it raises
    [ZeroDivisionError], whatever [slides_per_post] is; in both cases the
    world, the stored pointer included, is as it was. *)
Theorem next_images_errors_write_nothing (E : env) (cfg : config) (last : Z) (w : world) :
  files w !! index_path (cfg_state_prefix cfg) "image" = Some (FIndex last) ->
  (_norm_base (cfg_base_url cfg) = "" ->
   next_images E cfg w = (Raise (RuntimeError "Missing base_url for carousel."), w)) /\
  (_norm_base (cfg_base_url cfg) <> "" -> cfg_max_images cfg = Some 0 ->
   next_images E cfg w = (Raise ZeroDivisionError, w)).
Proof.
  intros Hi. split.
  - intros Hb. unfold next_images.
    erewrite bind_ok by (apply load_last_index_present; exact Hi).
    by rewrite Hb.
  - intros Hb Hm. unfold next_images.
    erewrite bind_ok by (apply load_last_index_present; exact Hi).
    rewrite (proj2 (String.eqb_neq _ _) Hb), Hm. simpl default.
    destruct (py_range 1 (default 1 (cfg_slides_per_post cfg) + 1)) as [| i l].
    + erewrite bind_ok by reflexivity. reflexivity.
    + reflexivity.
Qed.

Lemma next_images_errors_write_nothing_witness :
  let cfg := Config (Some "acct") "acct" (Some "carousel") (Some "http://h/imgs/") None
                    None (Some 3) (Some 0) None None None None in
  let w := Examples.world_of {[ "acct_image.json" := FIndex 4 ]} in
  (_norm_base (cfg_base_url cfg) = "" ->
   next_images Examples.all_fine cfg w
   = (Raise (RuntimeError "Missing base_url for carousel."), w)) /\
  (_norm_base (cfg_base_url cfg) <> "" -> cfg_max_images cfg = Some 0 ->
   next_images Examples.all_fine cfg w = (Raise ZeroDivisionError, w)).
Proof.
  exact (next_images_errors_write_nothing Examples.all_fine
           (Config (Some "acct") "acct" (Some "carousel") (Some "http://h/imgs/") None
                   None (Some 3) (Some 0) None None None None) 4
           (Examples.world_of {[ "acct_image.json" := FIndex 4 ]}) eq_refl).
Defined.

(** X14. The preview caption is the caption the next run will use:
    [peek_caption] returns the caption at the stored pointer without
    writing a file or starting a push, and [next_caption], called after it,
    returns the same caption. *)
Theorem peek_caption_shows_next_caption (E : env) (cfg : config) (url : string)
    (lines : list string) (start : Z) (w : world) :
  cfg_caption_url cfg = Some url ->
  (forall n, e_lines E n url = inr lines) ->
  lines <> [] ->
  files w !! index_path (cfg_state_prefix cfg) "caption" = Some (FIndex start) ->
  exists c w1 w2,
    peek_caption E cfg w = (Ok c, w1) /\
    files w1 = files w /\ pushes w1 = pushes w /\
    next_caption E cfg w1 = (Ok c, w2) /\
    stored_index w2 (cfg_state_prefix cfg) "caption" = start + 1.
Proof.
  intros Hu Hl Hne Hi.
  exists (nth (Z.to_nat (start mod Z.of_nat (length lines))) lines ""), (ticked w).
  eexists. split; [| split; [| split; [| split]]].
  - unfold peek_caption. rewrite Hu. simpl require.
    erewrite bind_ok by reflexivity.
    rewrite (bind_ok _ _ _ _ _ (fetch_lines_ok E url lines w (Hl _))).
    erewrite bind_ok by (apply load_last_index_present; exact Hi).
    destruct lines; [done | reflexivity].
  - reflexivity.
  - reflexivity.
  - apply (next_caption_step E cfg url lines start (ticked w) Hu (Hl _) Hne Hi).
  - unfold stored_index. cbn [files]. by rewrite lookup_insert_eq.
Qed.

Lemma peek_caption_shows_next_caption_witness :
  let E := Examples.all_fine in
  let cfg := Examples.carousel_cfg in
  let w := Examples.world_of {[ "acct_caption.json" := FIndex 3 ]} in
  exists c w1 w2,
    peek_caption E cfg w = (Ok c, w1) /\
    files w1 = files w /\ pushes w1 = pushes w /\
    next_caption E cfg w1 = (Ok c, w2) /\
    stored_index w2 (cfg_state_prefix cfg) "caption" = 3 + 1.
Proof.
  intros E cfg w.
  apply (peek_caption_shows_next_caption E cfg
           "http://h/cap.txt" ["first caption"; "second caption"] 3 w).
  - reflexivity.
  - intros n. reflexivity.
  - discriminate.
  - reflexivity.
Defined.

(** ** The video preview *)




(** [video_candidates] for a reel account with a base URL, once the
    used-set is read. *)
Lemma video_candidates_reel (E : env) (cfg : config) (page page_size : Z)
    (include_used : bool) (w w0 : world) (used_l : list string) :
  let base := _norm_base (cfg_video_base_url cfg) in
  let used : gset string := list_to_set used_l in
  let all_files := video_catalog (default 200 (cfg_max_images cfg)) in
  let ordered := if include_used then all_files
                 else filter (fun f => f ∉ used) all_files in
  let total := Z.of_nat (length ordered) in
  let start := (page - 1) * page_size in
  let stop := Z.min (start + page_size) total in
  cfg_type cfg = Some "reel" ->
  base <> "" ->
  load_used_list E (cfg_state_prefix cfg) w = (Ok used_l, w0) ->
  video_candidates E cfg page page_size include_used w
  = (Ok (if total =? 0 then Listing [] false None
         else Listing (map (fun fname =>
                              Item (base +:+ "/" +:+ PyStr.quote "()" fname) fname
                                   (bool_decide (fname ∈ used)))
                           (py_slice ordered start stop))
                      (stop <? total) (Some total)),
     w0).
Proof.
  intros base used all_files ordered total start stop Ht Hb Hload.
  unfold video_candidates. fold base.
  rewrite Ht, bool_decide_eq_true_2 by done. cbv zeta.
  rewrite (proj2 (String.eqb_neq _ _) Hb). change (negb true) with false. cbv iota.
  rewrite (bind_ok _ _ _ _ _ Hload).
  fold base used all_files ordered total. by destruct (total =? 0).
Qed.


(** The shim once the used-set is read. *)
Lemma next_video_shim_from (E : env) (cfg : config) (w w0 : world)
    (used_l : list string) :
  let base := _norm_base (cfg_video_base_url cfg) in
  cfg_type cfg = Some "reel" ->
  base <> "" ->
  load_used_list E (cfg_state_prefix cfg) w = (Ok used_l, w0) ->
  next_video_shim E cfg w
  = (Ok ((fun f => base +:+ "/" +:+ PyStr.quote "()" f)
         <$> head (filter (fun f => f ∉ used_l)
                          (video_catalog (default 200 (cfg_max_images cfg))))),
     w0).
Proof.
  intros base Ht Hb Hload.
  unfold next_video_shim.
  rewrite (bind_ok _ _ _ _ _
             (video_candidates_reel E cfg 1 1 false w w0 _ Ht Hb Hload)).
  set (all_files := video_catalog (default 200 (cfg_max_images cfg))).
  assert (Hfilter : filter (fun f => f ∉ (list_to_set used_l : gset string)) all_files
                    = filter (fun f => f ∉ used_l) all_files).
  { apply list_filter_iff. intros f. by rewrite elem_of_list_to_set. }
  rewrite Hfilter.
  destruct (filter (fun f => f ∉ used_l) all_files) as [| f0 fs] eqn:Hf.
  - reflexivity.
  - assert (Hslice : py_slice (f0 :: fs) ((1 - 1) * 1)
                       (Z.min ((1 - 1) * 1 + 1) (Z.of_nat (length (f0 :: fs)))) = [f0]).
    { unfold py_slice. simpl length.
      replace (Z.min ((1 - 1) * 1 + 1) (Z.of_nat (S (length fs)))) with 1 by lia.
      simpl. rewrite (Z.min_l 1) by lia. rewrite Z.min_l by lia. reflexivity. }
    replace (Z.of_nat (length (f0 :: fs)) =? 0) with false
      by (symmetry; apply Z.eqb_neq; simpl length; lia).
    cbv iota. rewrite Hslice. reflexivity.
Qed.

(** X16. For a reel account with a video base URL, the sequential shim of a
    manual run returns the URL of the first catalog entry, in catalog
    order ([vid.mp4] first), that the used-set does not hold, and [None]
    when there is none. *)
Theorem next_video_shim_first_unused (E : env) (cfg : config) (w : world) :
  let prefix := cfg_state_prefix cfg in
  let base := _norm_base (cfg_video_base_url cfg) in
  cfg_type cfg = Some "reel" ->
  base <> "" ->
  exists w0,
    load_used_list E prefix w = (Ok (stored_used w0 Video prefix), w0) /\
    next_video_shim E cfg w
    = (Ok ((fun f => base +:+ "/" +:+ PyStr.quote "()" f)
           <$> head (filter (fun f => f ∉ stored_used w0 Video prefix)
                            (video_catalog (default 200 (cfg_max_images cfg))))),
       w0).
Proof.
  intros prefix base Ht Hb.
  destruct (load_used_effect E Video prefix w) as (w0 & Hload & _ & _ & _).
  simpl in Hload. exists w0. split; [exact Hload |].
  by apply next_video_shim_from.
Qed.

Lemma next_video_shim_first_unused_witness :
  let E := Examples.all_fine in
  let cfg := Examples.reel_cfg in
  let w := Examples.world_of {[ "clips_video_used.json" := FUsed ["vid.mp4"] ]} in
  let prefix := cfg_state_prefix cfg in
  let base := _norm_base (cfg_video_base_url cfg) in
  exists w0,
    load_used_list E prefix w = (Ok (stored_used w0 Video prefix), w0) /\
    next_video_shim E cfg w
    = (Ok ((fun f => base +:+ "/" +:+ PyStr.quote "()" f)
           <$> head (filter (fun f => f ∉ stored_used w0 Video prefix)
                            (video_catalog (default 200 (cfg_max_images cfg))))),
       w0).
Proof.
  intros E cfg w.
  apply (next_video_shim_first_unused E cfg w).
  - reflexivity.
  - discriminate.
Defined.

(** ** The image preview *)

Lemma image_candidates_loop_all (base : string) (used_set : gset string)
    (include_used : bool) (page_size start_idx : Z) (indices : list Z) (end_idx : Z)
    (items : list item) :
  let mk i := Item (base +:+ "/" +:+ encode_preview_image (_image_name_for i))
                   (_image_name_for i) (bool_decide (_image_name_for i ∈ used_set)) in
  (include_used = true \/ used_set = ∅) ->
  Z.of_nat (length items + length indices) = page_size ->
  image_candidates_loop base used_set include_used page_size start_idx indices
                        end_idx items
  = items ++ map mk indices.
Proof.
  intros mk Hall. revert items.
  induction indices as [| i rest IH]; intros items Hlen; simpl.
  - by rewrite app_nil_r.
  - assert (Hskip : bool_decide (_image_name_for i ∈ used_set) && negb include_used
                    = false).
    { destruct Hall as [-> | ->]; [apply andb_false_r |].
      by rewrite bool_decide_eq_false_2. }
    rewrite Hskip. rewrite length_app. simpl length.
    destruct rest as [| j rest].
    + rewrite (proj2 (Z.leb_le _ _)) by (simpl in Hlen; lia). reflexivity.
    + rewrite (proj2 (Z.leb_gt _ _)) by (simpl in Hlen; lia).
      rewrite IH by (rewrite length_app; simpl in *; lia).
      by rewrite <- app_assoc.
Qed.

(** X17. For a carousel account with a base URL and its local state in
    place, [image_candidates] changes nothing and, when used images are
    included or none is used, lists exactly the [page_size] images that
    follow the stored pointer, page after page, under their quoted URLs.
    The indices are not reduced modulo [max_images], and [has_more] is
    always true. *)
Theorem image_candidates_page (E : env) (cfg : config) (page page_size last : Z)
    (include_used : bool) (used_l : list string) (w : world) :
  let prefix := cfg_state_prefix cfg in
  let base := _norm_base (cfg_base_url cfg) in
  let start_idx := last + 1 + (page - 1) * page_size in
  let mk i := Item (base +:+ "/" +:+ PyStr.quote "()" (_image_name_for i))
                   (_image_name_for i) (bool_decide (_image_name_for i ∈ used_l)) in
  cfg_type cfg = Some "carousel" ->
  base <> "" ->
  files w !! index_path prefix "image" = Some (FIndex last) ->
  files w !! image_used_path prefix = Some (FUsed used_l) ->
  include_used = true \/ used_l = [] ->
  1 <= page_size ->
  image_candidates E cfg page page_size include_used w
  = (Ok (Listing (map mk (py_range start_idx (start_idx + page_size))) true
                 (Some (default 10000 (cfg_max_images cfg)))),
     w).
Proof.
  intros prefix base start_idx mk Ht Hb Hi Hu Hall Hps.
  assert (Hload : image_used_list E prefix w = (Ok used_l, w)).
  { unfold image_used_list, restore_unless. munfold. rewrite Hu.
    rewrite bool_decide_eq_true_2 by eauto. simpl. by rewrite Hu. }
  unfold image_candidates. fold prefix base.
  rewrite Ht, bool_decide_eq_true_2 by done. cbv zeta.
  rewrite (proj2 (String.eqb_neq _ _) Hb). change (negb true) with false. cbv iota.
  erewrite bind_ok by (apply load_last_index_present; exact Hi).
  rewrite (bind_ok _ _ _ _ _ Hload).
  fold start_idx.
  replace (start_idx + page_size - 1 + 1) with (start_idx + page_size) by lia.
  rewrite image_candidates_loop_all; cycle 1.
  { destruct Hall as [-> | ->]; [by left | by right]. }
  { simpl. unfold py_range. rewrite length_map, length_seq. lia. }
  simpl app. unfold mret, M_ret, ret. f_equal. f_equal. f_equal.
  - apply map_ext. intros i. unfold mk, encode_preview_image, generic_encoding.
    f_equal. apply bool_decide_ext. by rewrite elem_of_list_to_set.
  - apply Z.leb_le. rewrite length_map. unfold py_range.
    rewrite length_map, length_seq. lia.
Qed.

Lemma image_candidates_page_witness :
  let E := Examples.all_fine in
  let cfg := Examples.carousel_cfg in
  let page := 2 in
  let page_size := 3 in
  let last := 8 in
  let include_used := true in
  let used_l := ["img (12).jpg"] in
  let w := Examples.world_of {[ "acct_image.json" := FIndex 8;
                                "acct_image_used.json" := FUsed ["img (12).jpg"] ]} in
  let prefix := cfg_state_prefix cfg in
  let base := _norm_base (cfg_base_url cfg) in
  let start_idx := last + 1 + (page - 1) * page_size in
  let mk i := Item (base +:+ "/" +:+ PyStr.quote "()" (_image_name_for i))
                   (_image_name_for i) (bool_decide (_image_name_for i ∈ used_l)) in
  image_candidates E cfg page page_size include_used w
  = (Ok (Listing (map mk (py_range start_idx (start_idx + page_size))) true
                 (Some (default 10000 (cfg_max_images cfg)))),
     w).
Proof.
  intros E cfg page page_size last include_used used_l w.
  apply (image_candidates_page E cfg page page_size last include_used used_l w).
  - reflexivity.
  - discriminate.
  - reflexivity.
  - reflexivity.
  - by left.
  - lia.
Defined.

(* ===================================================================== *)
(** * Further properties: the run as a whole *)
(* ===================================================================== *)

Lemma bind_inv_ok {A B} (m : M A) (f : A -> M B) (w w' : world) (b : B) :
  (m ≫= f) w = (Ok b, w') -> exists a w1, m w = (Ok a, w1) /\ f a w1 = (Ok b, w').
Proof.
  unfold mbind, M_bind, bind. destruct (m w) as [[a | e] w1]; [| done].
  intros H. by exists a, w1.
Qed.

(** A run that gets past the marking step returns a result and shows
    [success]. *)
Lemma run_after_publish_ok (E : env) (cfg : config) (mode : string) (st : staged)
    (w w' : world) (r : option published) :
  run_after_publish E cfg mode st w = (Ok r, w') ->
  (exists p, r = Some p) /\ fst (shown_status w' (cfg_state_prefix cfg)) = "success".
Proof.
  unfold run_after_publish. intros H.
  apply bind_inv_ok in H as (? & w1 & _ & H).
  apply bind_inv_ok in H as (permalink & w2 & _ & H).
  apply bind_inv_ok in H as (? & w3 & _ & H).
  apply bind_inv_ok in H as (? & w4 & Hs & H).
  apply bind_inv_ok in H as (name & w5 & Hn & H).
  apply bind_inv_ok in H as (? & w6 & Hnot & H).
  injection H as <- <-. split; [eauto |].
  destruct (cfg_name cfg) as [nm |]; [| discriminate Hn].
  injection Hn as <- <-. injection Hnot as Hw6. injection Hs as Hw4.
  subst w6 w4. unfold shown_status. cbn [files set_files].
  by rewrite lookup_insert_eq.
Qed.

(** [run_account] after its first status write. *)
Lemma run_account_unfold (E : env) (cfg : config) (mode : string) (w : world) :
  let prefix := cfg_state_prefix cfg in
  let ws := snd (save_status prefix "running"
                   ("Starting automation (" +:+ mode +:+ ")...") w) in
  run_account E cfg mode w
  = match (run_until_publish E cfg mode ≫= run_after_publish E cfg mode) ws with
    | (Ok r, w1) => (Ok r, w1)
    | (Raise e, w1) =>
        (Ok None,
         World (<[status_path prefix := FStatus "error" (exn_str e)]> (files w1))
               (pushes w1) (heads w1) (polls w1) (slept w1)
               (notify_text cfg e :: notified w1) (clock w1))
    end.
Proof.
  intros prefix ws.
  assert (H : run_account E cfg mode w
              = try_except
                  (run_until_publish E cfg mode ≫= run_after_publish E cfg mode)
                  (fun e =>
                     save_status prefix "error" (exn_str e);;
                     notify_publish_failure (default "Unknown" (cfg_name cfg))
                                            (exn_str e);;
                     mret None) ws) by reflexivity.
  rewrite H. unfold try_except.
  destruct ((run_until_publish E cfg mode ≫= run_after_publish E cfg mode) ws)
    as [[r | e] w1]; reflexivity.
Qed.

(** X18. The [try] block of [run_account] lets no exception out. For an
    account entry with a [state_prefix], after the first status write
    (both stand before the [try]), whatever the steps of the block raise,
    selection to notification, is caught: [run_account] returns [None],
    the status is [error] with the text of the exception, and one failure
    notification is attempted. When the block raises nothing,
    [run_account] returns its result, which is not [None], and the status
    is [success]. *)
Theorem run_account_catches_every_failure (E : env) (cfg : config) (mode : string)
    (w : world) :
  let prefix := cfg_state_prefix cfg in
  let ws := snd (save_status prefix "running"
                   ("Starting automation (" +:+ mode +:+ ")...") w) in
  exists r w',
    run_account E cfg mode w = (Ok r, w') /\
    match (run_until_publish E cfg mode ≫= run_after_publish E cfg mode) ws with
    | (Ok res, w1) =>
        r = res /\ res <> None /\ w' = w1 /\
        fst (shown_status w' prefix) = "success"
    | (Raise e, w1) =>
        r = None /\
        shown_status w' prefix = ("error", exn_str e) /\
        files w' = <[status_path prefix := FStatus "error" (exn_str e)]> (files w1) /\
        length (notified w') = S (length (notified w1))
    end.
Proof.
  intros prefix ws. rewrite run_account_unfold. fold prefix ws.
  destruct ((run_until_publish E cfg mode ≫= run_after_publish E cfg mode) ws)
    as [[r | e] w1] eqn:Hbody.
  - exists r, w1. split; [done |].
    apply bind_inv_ok in Hbody as (st & w2 & _ & Hafter).
    apply run_after_publish_ok in Hafter as [[p ->] Hs].
    by repeat split.
  - eexists None, _. split; [reflexivity |]. split; [done |].
    unfold shown_status. cbn [files notified]. rewrite lookup_insert_eq.
    by repeat split.
Qed.

(* ===================================================================== *)
(** * Further properties: a run stays within its account *)
(* ===================================================================== *)

Section Confined.

Variable prefix : string.

Lemma confined_refl (w : world) : confined prefix w w.
Proof.
  split; [done |]. split; [done |]. exists []. by split.
Qed.

Lemma confined_trans (w1 w2 w3 : world) :
  confined prefix w1 w2 -> confined prefix w2 w3 -> confined prefix w1 w3.
Proof.
  intros (Ho12 & Hk12 & l12 & Hp12 & Hl12) (Ho23 & Hk23 & l23 & Hp23 & Hl23).
  split; [| split].
  - intros path Hn. rewrite Ho23 by done. by apply Ho12.
  - intros path Hs. by apply Hk23, Hk12.
  - exists (l23 ++ l12). split.
    + by rewrite Hp23, Hp12, app_assoc.
    + by apply Forall_app.
Qed.

(** A step that leaves the files and the push log alone. *)
Lemma confined_quiet (w w' : world) :
  files w' = files w -> pushes w' = pushes w -> confined prefix w w'.
Proof.
  intros Hf Hp. split; [| split].
  - intros path _. by rewrite Hf.
  - intros path Hs. by rewrite Hf.
  - exists []. by split.
Qed.

Lemma confined_write (path : string) (c : file) (w : world) :
  artifact prefix path -> confined prefix w (set_files (insert path c) w).
Proof.
  intros Ha. split; [| split].
  - intros q Hq. simpl. apply lookup_insert_ne. by intros ->.
  - intros q Hs. simpl. destruct (decide (path = q)) as [-> | Hne].
    + by rewrite lookup_insert_eq.
    + by rewrite lookup_insert_ne.
  - exists []. by split.
Qed.

(** ** The monad *)

Lemma within_ret {A} (a : A) : within prefix (mret a).
Proof. intros w. apply confined_refl. Qed.

Lemma within_raise {A} (e : exn) : within prefix (raise e : M A).
Proof. intros w. apply confined_refl. Qed.

Lemma within_bind {A B} (m : M A) (f : A -> M B) :
  within prefix m -> (forall a, within prefix (f a)) -> within prefix (m ≫= f).
Proof.
  intros Hm Hf w. unfold mbind, M_bind, bind.
  specialize (Hm w). destruct (m w) as [[a | e] w1]; simpl in *; [| done].
  eapply confined_trans; [exact Hm | apply Hf].
Qed.

Lemma within_try {A} (m : M A) (h : exn -> M A) :
  within prefix m -> (forall e, within prefix (h e)) -> within prefix (try_except m h).
Proof.
  intros Hm Hh w. unfold try_except.
  specialize (Hm w). destruct (m w) as [[a | e] w1]; simpl in *; [done |].
  eapply confined_trans; [exact Hm | apply Hh].
Qed.

Lemma within_mapM {A B} (f : A -> M B) (l : list A) :
  (forall x, within prefix (f x)) -> within prefix (mapM f l).
Proof.
  intros Hf. induction l as [| x l IH]; simpl.
  - apply within_ret.
  - apply within_bind; [apply Hf | intros y].
    apply within_bind; [apply IH | intros ys]. apply within_ret.
Qed.

Lemma within_quiet {A} (m : M A) :
  (forall w, files (snd (m w)) = files w /\ pushes (snd (m w)) = pushes w) ->
  within prefix m.
Proof. intros H w. destruct (H w). by apply confined_quiet. Qed.

Lemma within_ext {A} (E : env) (q : env -> nat -> A) : within prefix (ext q E).
Proof. by apply within_quiet. Qed.

Lemma within_sleep (d : Z) : within prefix (sleep d).
Proof. by apply within_quiet. Qed.

Lemma within_log_head (u : string) : within prefix (log_head u).
Proof. by apply within_quiet. Qed.

Lemma within_log_poll (c : string) : within prefix (log_poll c).
Proof. by apply within_quiet. Qed.

Lemma within_log_notify (m : string) : within prefix (log_notify m).
Proof. by apply within_quiet. Qed.

Lemma within_read_file (p : string) : within prefix (read_file p).
Proof. by apply within_quiet. Qed.

Lemma within_exists_file (p : string) : within prefix (exists_file p).
Proof. by apply within_quiet. Qed.

Lemma within_require {A} (key : string) (v : option A) : within prefix (require key v).
Proof. destruct v; [apply within_ret | apply within_raise]. Qed.

Lemma within_py_mod (a b : Z) : within prefix (py_mod a b).
Proof. unfold py_mod. destruct (b =? 0); [apply within_raise | apply within_ret]. Qed.

Lemma within_write (path : string) (c : file) :
  artifact prefix path -> within prefix (write_file path c).
Proof. intros Ha w. by apply confined_write. Qed.

Lemma within_start_push : within prefix (start_push prefix).
Proof.
  intros w. split; [done |]. split; [done |]. exists [prefix]. split; [done |].
  by apply Forall_singleton.
Qed.

End Confined.

Ltac within_step :=
  match goal with
  | |- within _ (mbind _ _) => apply within_bind; [| intros ?]
  | |- within _ (mret _) => apply within_ret
  | |- within _ (raise _) => apply within_raise
  | |- within _ (ext _ _) => apply within_ext
  | |- within _ (require _ _) => apply within_require
  | |- within _ (py_mod _ _) => apply within_py_mod
  | |- within _ (start_push _) => apply within_start_push
  | |- within _ (sleep _) => apply within_sleep
  | |- within _ (log_head _) => apply within_log_head
  | |- within _ (log_poll _) => apply within_log_poll
  | |- within _ (log_notify _) => apply within_log_notify
  | |- within _ (read_file _) => apply within_read_file
  | |- within _ (exists_file _) => apply within_exists_file
  | |- within _ (mapM _ _) => apply within_mapM; intros ?
  | |- within _ (try_except _ _) => apply within_try; [| intros ?]
  | |- within _ (if ?b then _ else _) => destruct b
  | |- within _ (match ?x with _ => _ end) => destruct x
  end.

Create HintDb within.

Ltac within_auto := repeat (first [within_step | solve [eauto with within]]).

Section WithinRunner.

Variable E : env.
Variable prefix : string.

Lemma within_save_status (status message : string) :
  within prefix (save_status prefix status message).
Proof. apply within_write. by left. Qed.

Lemma within_save_caption (idx : Z) (sync : bool) :
  within prefix (save_last_index prefix "caption" idx sync).
Proof.
  unfold save_last_index. apply within_bind; [| intros _; within_auto].
  apply within_write. right. by left.
Qed.

Lemma within_save_image (idx : Z) (sync : bool) :
  within prefix (save_last_index prefix "image" idx sync).
Proof.
  unfold save_last_index. apply within_bind; [| intros _; within_auto].
  apply within_write. right. right. by left.
Qed.

Lemma within_save_used_list (used : list string) (sync : bool) :
  within prefix (save_used_list prefix used sync).
Proof.
  unfold save_used_list. apply within_bind; [| intros _; within_auto].
  apply within_write. right. right. right. by left.
Qed.

Lemma within_save_image_used_list (used : list string) (sync : bool) :
  within prefix (save_image_used_list prefix used sync).
Proof.
  unfold save_image_used_list. apply within_bind; [| intros _; within_auto].
  apply within_write. right. right. right. by right.
Qed.

Lemma within_save_used (k : kind) (used : list string) (sync : bool) :
  within prefix (save_used k prefix used sync).
Proof.
  destruct k; [apply within_save_image_used_list | apply within_save_used_list].
Qed.

Lemma within_cfg_token_igid (cfg : config) : within prefix (_cfg_token_igid E cfg).
Proof. unfold _cfg_token_igid. within_auto. Qed.

Lemma within_fetch_lines (url : string) : within prefix (fetch_lines E url).
Proof. unfold fetch_lines. within_auto. Qed.

Lemma within_check_content_exists (url : string) :
  within prefix (check_content_exists E url).
Proof. unfold check_content_exists. within_auto. Qed.

Lemma within_wait_loop (cid : string) (delay : Z) (n : nat) :
  within prefix (wait_loop E cid delay n).
Proof.
  induction n as [| n IH]; cbn [wait_loop]; [apply within_raise |].
  within_auto; exact IH.
Qed.

Lemma within_wait_until_ready (cid token : string) :
  within prefix (wait_until_ready E cid token).
Proof. apply within_wait_loop. Qed.

Lemma within_fetch_permalink (media_id token : string) :
  within prefix (fetch_permalink E media_id token).
Proof. unfold fetch_permalink. within_auto. Qed.

Lemma within_post_comment (media_id message : string) (cfg : config) :
  within prefix (post_comment E media_id message cfg).
Proof.
  unfold post_comment. pose proof within_cfg_token_igid. within_auto.
Qed.

Lemma within_notify_success (name media_type : string) :
  within prefix (notify_publish_success name media_type).
Proof. unfold notify_publish_success. within_auto. Qed.

Lemma within_notify_failure (name error : string) :
  within prefix (notify_publish_failure name error).
Proof. unfold notify_publish_failure. within_auto. Qed.

Lemma within_restore : within prefix (restore_from_remote_if_needed E prefix).
Proof.
  unfold restore_from_remote_if_needed, load_remote_state, when_present.
  pose proof within_save_used_list. pose proof within_save_image_used_list.
  pose proof within_save_caption. pose proof within_save_image.
  within_auto.
Qed.

End WithinRunner.

#[export] Hint Resolve within_save_status within_save_caption within_save_image
  within_save_used_list within_save_image_used_list within_save_used
  within_cfg_token_igid within_fetch_lines within_check_content_exists
  within_wait_until_ready within_fetch_permalink within_post_comment
  within_notify_success within_notify_failure within_restore : within.

Section WithinPipeline.

Variable E : env.
Variable cfg : config.

Let prefix := cfg_state_prefix cfg.

Lemma within_load_caption : within prefix (load_last_index E prefix "caption").
Proof. unfold load_last_index, restore_unless. within_auto. Qed.

Lemma within_load_image : within prefix (load_last_index E prefix "image").
Proof. unfold load_last_index, restore_unless. within_auto. Qed.

Lemma within_load_used_list : within prefix (load_used_list E prefix).
Proof. unfold load_used_list, restore_unless. within_auto. Qed.

Lemma within_image_used_list : within prefix (image_used_list E prefix).
Proof. unfold image_used_list, restore_unless. within_auto. Qed.

Lemma within_load_used (k : kind) : within prefix (load_used E k prefix).
Proof. destruct k; [apply within_image_used_list | apply within_load_used_list]. Qed.

Lemma within_next_caption : within prefix (next_caption E cfg).
Proof.
  unfold next_caption. fold prefix. pose proof within_load_caption. within_auto.
Qed.

Lemma within_next_images : within prefix (next_images E cfg).
Proof.
  unfold next_images. fold prefix. pose proof within_load_image. within_auto.
Qed.

Lemma within_upload_image (url : string) : within prefix (upload_image E url cfg).
Proof. unfold upload_image. within_auto. Qed.

Lemma within_upload_reel (url : option string) (caption : string) (hl : bool) :
  within prefix (upload_reel E url cfg caption hl).
Proof. unfold upload_reel. within_auto. Qed.

Lemma within_create_carousel (ids : list string) (caption : string) (hl : bool) :
  within prefix (create_carousel E ids caption cfg hl).
Proof. unfold create_carousel. within_auto. Qed.

Lemma within_publish_creation (cid : string) :
  within prefix (publish_creation E cid cfg).
Proof. unfold publish_creation. within_auto. Qed.

Lemma within_peek_caption : within prefix (peek_caption E cfg).
Proof.
  unfold peek_caption. fold prefix. pose proof within_load_caption. within_auto.
Qed.

Lemma within_image_candidates (page page_size : Z) (include_used : bool) :
  within prefix (image_candidates E cfg page page_size include_used).
Proof.
  unfold image_candidates. fold prefix.
  pose proof within_load_image. pose proof within_image_used_list. within_auto.
Qed.

Lemma within_video_candidates (page page_size : Z) (include_used : bool) :
  within prefix (video_candidates E cfg page page_size include_used).
Proof.
  unfold video_candidates. fold prefix.
  pose proof within_load_used_list. within_auto.
Qed.

Lemma within_mark_video_used (selected_filename : string) :
  within prefix (mark_video_used E cfg selected_filename).
Proof.
  unfold mark_video_used. fold prefix. pose proof within_load_used_list. within_auto.
Qed.

Lemma within_mark_images_used (selected_urls : list string) :
  within prefix (mark_images_used E cfg selected_urls).
Proof.
  unfold mark_images_used. fold prefix. pose proof within_image_used_list. within_auto.
Qed.

Lemma within_peek_then_commit_caption : within prefix (peek_then_commit_caption E cfg).
Proof.
  unfold peek_then_commit_caption. fold prefix.
  pose proof within_load_caption. within_auto.
Qed.

Lemma within_upload_slide (token : string) (total : Z) (iu : Z * string) :
  within prefix (upload_slide E prefix token total iu).
Proof. unfold upload_slide. within_auto. Qed.

Lemma within_publish_selected_carousel (selected_urls : list string)
    (caption : option string) (opts : options) :
  within prefix (publish_selected_carousel E cfg selected_urls caption opts).
Proof.
  unfold publish_selected_carousel. fold prefix.
  pose proof within_upload_slide. pose proof within_peek_then_commit_caption.
  pose proof within_create_carousel. pose proof within_publish_creation.
  pose proof within_mark_images_used.
  within_auto.
Qed.

Lemma within_publish_selected_reel (selected_video_url : option string)
    (caption : option string) (opts : options) :
  within prefix (publish_selected_reel E cfg selected_video_url caption opts).
Proof.
  unfold publish_selected_reel. fold prefix.
  pose proof within_peek_then_commit_caption. pose proof within_upload_reel.
  pose proof within_publish_creation. pose proof within_mark_video_used.
  pose proof within_load_used_list.
  within_auto.
Qed.

Lemma within_probe_loop (k : kind) (budget : nat) (unused : list string) :
  within prefix (probe_loop E cfg k budget unused).
Proof.
  revert unused. induction budget as [| b IH]; intros unused; cbn [probe_loop].
  - apply within_ret.
  - destruct unused as [| u us]; [apply within_ret |]. within_auto.
Qed.

Lemma within_get_random_candidate (k : kind) :
  within prefix (get_random_candidate E cfg k).
Proof.
  unfold get_random_candidate. fold prefix.
  pose proof (within_load_used k). pose proof (within_probe_loop k).
  within_auto.
Qed.

Lemma within_select_random_images : within prefix (select_random_images E cfg).
Proof.
  unfold select_random_images.
  pose proof (within_get_random_candidate Image). within_auto.
Qed.

Lemma within_upload_and_verify (total : Z) (iu : Z * string) :
  within prefix (upload_and_verify E cfg total iu).
Proof.
  unfold upload_and_verify. fold prefix.
  pose proof within_upload_image. within_auto.
Qed.

Lemma within_carousel_until_publish (mode : string) :
  within prefix (carousel_until_publish E cfg mode).
Proof.
  unfold carousel_until_publish. fold prefix.
  pose proof within_select_random_images. pose proof within_next_images.
  pose proof within_next_caption. pose proof within_upload_and_verify.
  pose proof within_create_carousel. pose proof within_publish_creation.
  within_auto.
Qed.

Lemma within_next_video_shim : within prefix (next_video_shim E cfg).
Proof.
  unfold next_video_shim. pose proof within_video_candidates. within_auto.
Qed.

Lemma within_reel_until_publish (mode : string) :
  within prefix (reel_until_publish E cfg mode).
Proof.
  unfold reel_until_publish. fold prefix.
  pose proof (within_get_random_candidate Video). pose proof within_next_video_shim.
  pose proof within_next_caption. pose proof within_upload_reel.
  pose proof within_publish_creation.
  within_auto.
Qed.

Lemma within_run_until_publish (mode : string) :
  within prefix (run_until_publish E cfg mode).
Proof.
  unfold run_until_publish.
  pose proof within_carousel_until_publish. pose proof within_reel_until_publish.
  within_auto.
Qed.

Lemma within_run_after_publish (mode : string) (st : staged) :
  within prefix (run_after_publish E cfg mode st).
Proof.
  unfold run_after_publish. fold prefix.
  pose proof within_mark_images_used. pose proof within_mark_video_used.
  within_auto.
Qed.

Lemma within_run_account (mode : string) : within prefix (run_account E cfg mode).
Proof.
  unfold run_account. fold prefix.
  pose proof within_run_until_publish. pose proof within_run_after_publish.
  within_auto.
Qed.

Lemma within_background_publish_task (payload : json_body) :
  within prefix (background_publish_task E cfg payload).
Proof.
  unfold background_publish_task. fold prefix.
  pose proof within_publish_selected_carousel. pose proof within_publish_selected_reel.
  within_auto.
Qed.

End WithinPipeline.

(** ** The files of two accounts *)

Lemma chars_app (a b : string) :
  list_ascii_of_string (a +:+ b) = list_ascii_of_string a ++ list_ascii_of_string b.
Proof.
  induction a as [| c a IH]; [done |].
  change (String c a +:+ b) with (String c (a +:+ b)). simpl. by rewrite IH.
Qed.

Lemma chars_inj (a b : string) :
  list_ascii_of_string a = list_ascii_of_string b -> a = b.
Proof.
  intros H. rewrite <- (string_of_list_ascii_of_string a),
    <- (string_of_list_ascii_of_string b). by rewrite H.
Qed.

(** Two paths [p +:+ s] and [q +:+ t] that are equal: one of the endings
    is an ending of the other. *)
Lemma same_path_endings (p q s t : string) :
  p +:+ s = q +:+ t ->
  list_ascii_of_string s `suffix_of` list_ascii_of_string t \/
  list_ascii_of_string t `suffix_of` list_ascii_of_string s.
Proof.
  intros H. apply (f_equal list_ascii_of_string) in H. rewrite !chars_app in H.
  apply (suffix_weak_total _ _ (list_ascii_of_string p ++ list_ascii_of_string s)).
  - by apply suffix_app_r.
  - rewrite H. by apply suffix_app_r.
Qed.

Lemma same_path_same_ending (p q s : string) : p +:+ s = q +:+ s -> p = q.
Proof.
  intros H. apply (f_equal list_ascii_of_string) in H. rewrite !chars_app in H.
  apply app_inv_tail in H. by apply chars_inj.
Qed.

Ltac endings_differ H :=
  apply same_path_endings in H;
  destruct H as [H | H]; revert H;
  apply (bool_decide_eq_false_1 _); vm_compute; reflexivity.

(** Accounts with different state prefixes have no file in common. *)
Lemma artifacts_disjoint (prefix other path : string) :
  prefix <> other -> artifact prefix path -> artifact other path -> False.
Proof.
  unfold artifact, status_path, index_path, video_used_path, image_used_path.
  intros Hne H1 H2.
  destruct H1 as [-> | [-> | [-> | [-> | ->]]]];
    destruct H2 as [H | [H | [H | [H | H]]]];
    first [ by apply same_path_same_ending in H | endings_differ H ].
Qed.

(** X19. Whatever the configuration, the mode and the answers of the
    platform, a run of [run_account] stays within its account: every path
    that is not one of the five files of its state prefix (status, caption
    pointer, image pointer, video used-set, image used-set) holds after the
    run what it held before, no file has been removed, and every mirror
    push the run started is one for its own prefix. *)
Theorem run_account_stays_within_account (E : env) (cfg : config) (mode : string)
    (w : world) :
  let prefix := cfg_state_prefix cfg in
  let w' := snd (run_account E cfg mode w) in
  (forall path, ~ artifact prefix path -> files w' !! path = files w !! path) /\
  (forall path, is_Some (files w !! path) -> is_Some (files w' !! path)) /\
  (exists l, pushes w' = l ++ pushes w /\ Forall (eq prefix) l).
Proof. exact (within_run_account E cfg mode w). Qed.

(** X20. The background task of the publish endpoint never raises,
    whatever the payload and the answers of the platform, and it stays
    within the account it was given: it changes no path beyond the five
    files of the state prefix, removes no file and starts pushes for that
    prefix only. *)
Theorem background_publish_task_stays_within_account (E : env) (acct : config)
    (payload : json_body) (w : world) :
  let prefix := cfg_state_prefix acct in
  exists w',
    background_publish_task E acct payload w = (Ok tt, w') /\
    (forall path, ~ artifact prefix path -> files w' !! path = files w !! path) /\
    (forall path, is_Some (files w !! path) -> is_Some (files w' !! path)) /\
    (exists l, pushes w' = l ++ pushes w /\ Forall (eq prefix) l).
Proof.
  intros prefix.
  pose proof (within_background_publish_task E acct payload w) as Hw.
  assert (Hok : fst (background_publish_task E acct payload w) = Ok tt).
  { unfold background_publish_task, save_status, write_file, try_except,
      notify_publish_failure, log_notify, mbind, M_bind, bind, mret, M_ret, ret.
    cbv beta.
    match goal with
    | |- fst (match ?m ?w0 with _ => _ end) = _ =>
        destruct (m w0) as [[[] | e] w1]; reflexivity
    end. }
  destruct (background_publish_task E acct payload w) as [r w'].
  simpl in *. subst r. exists w'. split; [done |]. exact Hw.
Qed.

(** X21. A run of one account never touches another: for every state
    prefix other than that of the running account, the five files of that
    prefix hold after the run what they held before, so the mirror
    snapshot and the shown status of the other account are unchanged. *)
Theorem run_account_leaves_other_accounts (E : env) (cfg : config) (mode : string)
    (w : world) (other : string) :
  other <> cfg_state_prefix cfg ->
  let w' := snd (run_account E cfg mode w) in
  (forall path, artifact other path -> files w' !! path = files w !! path) /\
  get_full_local_state (files w') other = get_full_local_state (files w) other /\
  shown_status w' other = shown_status w other.
Proof.
  intros Hne w'.
  assert (Hsame : forall path, artifact other path ->
                    files w' !! path = files w !! path).
  { intros path Ha.
    destruct (within_run_account E cfg mode w) as (Ho & _ & _).
    apply Ho. intros Hb. by apply (artifacts_disjoint other (cfg_state_prefix cfg) path). }
  split; [exact Hsame |]. split.
  - unfold get_full_local_state.
    rewrite (Hsame (video_used_path other)) by (right; right; right; by left).
    rewrite (Hsame (image_used_path other)) by (right; right; right; by right).
    rewrite (Hsame (index_path other "caption")) by (right; by left).
    rewrite (Hsame (index_path other "image")) by (right; right; by left).
    done.
  - unfold shown_status. by rewrite (Hsame (status_path other)) by by left.
Qed.

Lemma run_account_leaves_other_accounts_witness :
  let E := Examples.all_fine in
  let cfg := Examples.carousel_cfg in
  let w := Examples.world_of {[ status_path "clips" := FStatus "success" "done" ]} in
  let w' := snd (run_account E cfg "manual" w) in
  (forall path, artifact "clips" path -> files w' !! path = files w !! path) /\
  get_full_local_state (files w') "clips" = get_full_local_state (files w) "clips" /\
  shown_status w' "clips" = shown_status w "clips".
Proof.
  intros E cfg w.
  apply (run_account_leaves_other_accounts E cfg "manual" w "clips").
  discriminate.
Defined.

(* ===================================================================== *)
(** * Further properties: the remote mirror *)
(* ===================================================================== *)

(** A bin that serves what a save sent gives a load the saved state. *)
Lemma load_after_save (getenv : string -> option string) (get : string -> Sync.answer)
    (prefix : string) (state_data : remote_state) (p : Sync.put) :
  Sync.save_remote_state getenv get prefix state_data = Some p ->
  Sync.load_remote_state getenv (Sync.serving (Sync.put_json p)) prefix
  = Some state_data.
Proof.
  unfold Sync.save_remote_state, Sync.load_remote_state, Sync.serving.
  destruct (Sync.get_remote_config getenv) as [[key bin_id] |]; [| done].
  change (200 =? 200) with true. cbv iota beta.
  destruct (get (Sync.api +:+ bin_id +:+ "/latest")) as [| sc json]; [done |].
  destruct (sc =? 200); [destruct json as [record |]; [| done] |];
    intros [= <-]; simpl; apply lookup_insert_eq.
Qed.

(** X22. [save_remote_state] is a read-modify-write of the whole bin.
    When it sends its [PUT], a bin that then serves the body sent gives
    [load_remote_state] the saved state for the prefix, and for every
    other prefix what a load would have made of the answer the save
    itself had read. *)
Theorem save_remote_state_read_modify_write (getenv : string -> option string)
    (get : string -> Sync.answer) (prefix : string) (state_data : remote_state)
    (key bin_id : string) (p : Sync.put) :
  Sync.get_remote_config getenv = Some (key, bin_id) ->
  Sync.save_remote_state getenv get prefix state_data = Some p ->
  let before :=
    Sync.load_remote_state getenv (fun _ => get (Sync.api +:+ bin_id +:+ "/latest")) in
  let after := Sync.load_remote_state getenv (Sync.serving (Sync.put_json p)) in
  Sync.put_url p = Sync.api +:+ bin_id /\
  after prefix = Some state_data /\
  (forall other, other <> prefix -> after other = before other).
Proof.
  intros Hcfg Hsave before after. subst before after.
  unfold Sync.save_remote_state, Sync.load_remote_state, Sync.serving in *.
  rewrite Hcfg in *. change (200 =? 200) with true. cbv iota beta.
  destruct (get (Sync.api +:+ bin_id +:+ "/latest")) as [| sc json]; [done |].
  destruct (sc =? 200).
  - destruct json as [record |]; [| done].
    injection Hsave as <-. cbn [Sync.put_url Sync.put_json default from_option]. unfold id.
    split; [done |]. split; [apply lookup_insert_eq |].
    intros other Hne. by apply lookup_insert_ne.
  - injection Hsave as <-. cbn [Sync.put_url Sync.put_json default from_option]. unfold id.
    split; [done |]. split; [apply lookup_insert_eq |].
    intros other Hne. rewrite lookup_insert_ne by done. apply lookup_empty.
Qed.

Lemma save_remote_state_read_modify_write_witness :
  let getenv := fun _ : string => Some "k" in
  let b : Sync.bin := {[ "clips" := Examples.mirror_entry ]} in
  let p := Sync.Put (Sync.api +:+ "k") (<["acct" := Examples.mirror_entry]> b) in
  let before :=
    Sync.load_remote_state getenv
      (fun _ => Sync.serving b (Sync.api +:+ "k" +:+ "/latest")) in
  let after := Sync.load_remote_state getenv (Sync.serving (Sync.put_json p)) in
  Sync.put_url p = Sync.api +:+ "k" /\
  after "acct" = Some Examples.mirror_entry /\
  (forall other, other <> "acct" -> after other = before other).
Proof.
  intros getenv b p.
  apply (save_remote_state_read_modify_write getenv (Sync.serving b) "acct"
           Examples.mirror_entry "k" "k" p).
  - reflexivity.
  - reflexivity.
Defined.

(** X23. A save whose own read is answered with a status other than 200
    still writes: the body it sends holds the saved prefix alone, so a bin
    that takes it has lost the entry of every other account, whatever it
    held before. *)
Theorem save_after_failed_read_drops_other_accounts (getenv : string -> option string)
    (get : string -> Sync.answer) (prefix : string) (state_data : remote_state)
    (key bin_id : string) (status_code : Z) (json : option (option Sync.bin)) :
  Sync.get_remote_config getenv = Some (key, bin_id) ->
  get (Sync.api +:+ bin_id +:+ "/latest") = Sync.Answered status_code json ->
  status_code <> 200 ->
  exists p,
    Sync.save_remote_state getenv get prefix state_data = Some p /\
    Sync.put_json p = {[ prefix := state_data ]} /\
    (forall other, other <> prefix ->
       Sync.load_remote_state getenv (Sync.serving (Sync.put_json p)) other = None).
Proof.
  intros Hcfg Hget Hsc.
  unfold Sync.save_remote_state, Sync.load_remote_state, Sync.serving.
  rewrite Hcfg, Hget. apply Z.eqb_neq in Hsc. rewrite Hsc.
  eexists. split; [reflexivity |]. cbn [Sync.put_json default from_option]. unfold id.
  split; [done |].
  intros other Hne. change (200 =? 200) with true. cbv iota.
  rewrite lookup_insert_ne by done. apply lookup_empty.
Qed.

Lemma save_after_failed_read_drops_other_accounts_witness :
  let getenv := fun _ : string => Some "k" in
  let get := fun _ : string => Sync.Answered 429 None in
  exists p,
    Sync.save_remote_state getenv get "acct" Examples.mirror_entry = Some p /\
    Sync.put_json p = {[ "acct" := Examples.mirror_entry ]} /\
    (forall other, other <> "acct" ->
       Sync.load_remote_state getenv (Sync.serving (Sync.put_json p)) other = None).
Proof.
  intros getenv get.
  apply (save_after_failed_read_drops_other_accounts getenv get "acct"
           Examples.mirror_entry "k" "k" 429 None).
  - reflexivity.
  - reflexivity.
  - discriminate.
Defined.

(** The snapshot of the files recovery writes from a snapshot. *)
Lemma snapshot_materialize (fs fs0 : gmap string file) (prefix : string) :
  get_full_local_state (materialize (get_full_local_state fs prefix) prefix fs0) prefix
  = get_full_local_state fs prefix.
Proof.
  unfold get_full_local_state at 1.
  rewrite materialize_video, materialize_image, materialize_caption, materialize_index.
  reflexivity.
Qed.

(** X24. What a push sends, recovery brings back. When [push_state_bg]
    sends the snapshot of the local files of a prefix and the bin serves
    what it was sent, a process that has neither used-set file of the
    prefix recovers, without starting a push, local files whose snapshot is
    the one that was pushed: both used-sets and both pointers. *)
Theorem mirror_round_trip (E : env) (getenv : string -> option string)
    (get : string -> Sync.answer) (fs : gmap string file) (prefix : string)
    (p : Sync.put) (w : world) :
  Sync.push_state_bg getenv get fs prefix = Some p ->
  e_remote E (clock w) prefix
  = Sync.load_remote_state getenv (Sync.serving (Sync.put_json p)) prefix ->
  files w !! video_used_path prefix = None ->
  files w !! image_used_path prefix = None ->
  exists w',
    restore_from_remote_if_needed E prefix w = (Ok tt, w') /\
    get_full_local_state (files w') prefix = get_full_local_state fs prefix /\
    stored_used w' Video prefix = used_of_file (fs !! video_used_path prefix) /\
    stored_used w' Image prefix = used_of_file (fs !! image_used_path prefix) /\
    stored_index w' prefix "caption" = index_of_file (fs !! index_path prefix "caption") /\
    stored_index w' prefix "image" = index_of_file (fs !! index_path prefix "image") /\
    pushes w' = pushes w.
Proof.
  intros Hpush Hrem Hv Hi.
  rewrite (load_after_save getenv get prefix _ p Hpush) in Hrem.
  rewrite (restore_absent E prefix w _ Hv Hi Hrem).
  eexists. split; [reflexivity |]. simpl.
  split; [apply snapshot_materialize |].
  unfold stored_used, stored_index. simpl.
  rewrite materialize_video, materialize_image, materialize_caption, materialize_index.
  simpl. done.
Qed.

Lemma mirror_round_trip_witness :
  let getenv := fun _ : string => Some "k" in
  let fs : gmap string file := {[ index_path "acct" "caption" := FIndex 3 ]} in
  let p := Sync.Put (Sync.api +:+ "k") {[ "acct" := get_full_local_state fs "acct" ]} in
  let E := Env (fun _ => Sync.load_remote_state getenv (Sync.serving (Sync.put_json p)))
               (e_lines Examples.all_fine) (e_head Examples.all_fine)
               (e_choice Examples.all_fine) (e_getenv Examples.all_fine)
               (e_upload_image Examples.all_fine) (e_upload_reel Examples.all_fine)
               (e_poll Examples.all_fine) (e_create_carousel Examples.all_fine)
               (e_publish Examples.all_fine) (e_permalink Examples.all_fine) in
  let w := Examples.empty_world in
  exists w',
    restore_from_remote_if_needed E "acct" w = (Ok tt, w') /\
    get_full_local_state (files w') "acct" = get_full_local_state fs "acct" /\
    stored_used w' Video "acct" = used_of_file (fs !! video_used_path "acct") /\
    stored_used w' Image "acct" = used_of_file (fs !! image_used_path "acct") /\
    stored_index w' "acct" "caption" = index_of_file (fs !! index_path "acct" "caption") /\
    stored_index w' "acct" "image" = index_of_file (fs !! index_path "acct" "image") /\
    pushes w' = pushes w.
Proof.
  intros getenv fs p E w.
  apply (mirror_round_trip E getenv (Sync.serving ∅) fs "acct" p w).
  - reflexivity.
  - reflexivity.
  - reflexivity.
  - reflexivity.
Defined.

(* ===================================================================== *)
(** * Further properties: manual runs and the used-sets *)
(* ===================================================================== *)

Section KeepsManual.

Variable E : env.
Variable cfg : config.

Let prefix := cfg_state_prefix cfg.

Lemma keeps_post_comment (media_id message : string) :
  keeps E prefix (post_comment E media_id message cfg).
Proof. unfold post_comment. keeps_auto. Qed.

Lemma keeps_fetch_permalink (media_id token : string) :
  keeps E prefix (fetch_permalink E media_id token).
Proof. unfold fetch_permalink. keeps_auto. Qed.

Lemma keeps_run_after_publish (mode : string) (st : staged) :
  mode <> "schedule" -> keeps E prefix (run_after_publish E cfg mode st).
Proof.
  intros Hmode. unfold run_after_publish. fold prefix.
  apply String.eqb_neq in Hmode. rewrite Hmode.
  unfold notify_publish_success.
  pose proof keeps_post_comment. pose proof keeps_fetch_permalink.
  keeps_auto.
Qed.

Lemma keeps_manual_run (mode : string) :
  mode <> "schedule" -> keeps E prefix (run_account E cfg mode).
Proof.
  intros Hmode. unfold run_account. fold prefix.
  unfold notify_publish_failure.
  pose proof (keeps_run_until_publish E cfg).
  pose proof (fun st => keeps_run_after_publish mode st Hmode).
  keeps_auto.
Qed.

End KeepsManual.

(** X25. A run in any mode other than [schedule] marks nothing as used,
    whether it publishes or fails: no used-set file of the account is
    removed, and every entry of [image_used] and [video_used] after the
    run was there before it or came from the mirror by recovery. Manual
    runs rotate by the pointers alone. *)
Theorem manual_run_marks_nothing (E : env) (cfg : config) (mode : string) (w : world) :
  mode <> "schedule" ->
  let prefix := cfg_state_prefix cfg in
  let w' := snd (run_account E cfg mode w) in
  (forall k, files w' !! used_path k prefix = None ->
             files w !! used_path k prefix = None) /\
  (forall k x, x ∈ stored_used w' k prefix ->
               x ∈ stored_used w k prefix \/ hydrated E prefix w k x).
Proof. intros Hmode. exact (keeps_manual_run E cfg mode Hmode w). Qed.

Lemma manual_run_marks_nothing_witness :
  let E := Examples.all_fine in
  let cfg := Examples.carousel_cfg in
  let w := Examples.empty_world in
  let prefix := cfg_state_prefix cfg in
  let w' := snd (run_account E cfg "manual" w) in
  (forall k, files w' !! used_path k prefix = None ->
             files w !! used_path k prefix = None) /\
  (forall k x, x ∈ stored_used w' k prefix ->
               x ∈ stored_used w k prefix \/ hydrated E prefix w k x).
Proof.
  intros E cfg w.
  apply (manual_run_marks_nothing E cfg "manual" w). discriminate.
Defined.

(* ===================================================================== *)
(** * Further properties: manual reel runs *)
(* ===================================================================== *)

Section Spares.

Variable E : env.
Variable prefix : string.

Lemma spares_ret {A} (a : A) : spares_video prefix (mret a).
Proof. by intros w _. Qed.

Lemma spares_raise {A} (e : exn) : spares_video prefix (raise e : M A).
Proof. by intros w _. Qed.

Lemma spares_bind {A B} (m : M A) (f : A -> M B) :
  spares_video prefix m -> (forall a, spares_video prefix (f a)) ->
  spares_video prefix (m ≫= f).
Proof.
  intros Hm Hf w Hs. unfold mbind, M_bind, bind.
  specialize (Hm w Hs). destruct (m w) as [[a | e] w1]; simpl in *; [| done].
  rewrite <- Hm. apply Hf. by rewrite Hm.
Qed.

Lemma spares_try {A} (m : M A) (h : exn -> M A) :
  spares_video prefix m -> (forall e, spares_video prefix (h e)) ->
  spares_video prefix (try_except m h).
Proof.
  intros Hm Hh w Hs. unfold try_except.
  specialize (Hm w Hs). destruct (m w) as [[a | e] w1]; simpl in *; [done |].
  rewrite <- Hm. apply Hh. by rewrite Hm.
Qed.

Lemma spares_quiet {A} (m : M A) :
  (forall w, files (snd (m w)) = files w) -> spares_video prefix m.
Proof. intros H w _. by rewrite H. Qed.

Lemma spares_ext {A} (q : env -> nat -> A) : spares_video prefix (ext q E).
Proof. by apply spares_quiet. Qed.

Lemma spares_start_push (p : string) : spares_video prefix (start_push p).
Proof. by apply spares_quiet. Qed.

Lemma spares_sleep (d : Z) : spares_video prefix (sleep d).
Proof. by apply spares_quiet. Qed.

Lemma spares_log_head (u : string) : spares_video prefix (log_head u).
Proof. by apply spares_quiet. Qed.

Lemma spares_log_poll (c : string) : spares_video prefix (log_poll c).
Proof. by apply spares_quiet. Qed.

Lemma spares_log_notify (m : string) : spares_video prefix (log_notify m).
Proof. by apply spares_quiet. Qed.

Lemma spares_read_file (p : string) : spares_video prefix (read_file p).
Proof. by apply spares_quiet. Qed.

Lemma spares_exists_file (p : string) : spares_video prefix (exists_file p).
Proof. by apply spares_quiet. Qed.

Lemma spares_require {A} (key : string) (v : option A) :
  spares_video prefix (require key v).
Proof. destruct v; [apply spares_ret | apply spares_raise]. Qed.

Lemma spares_write (path : string) (c : file) :
  path <> video_used_path prefix -> spares_video prefix (write_file path c).
Proof. intros Hne w _. simpl. by rewrite lookup_insert_ne. Qed.

(** Recovery does nothing when the file exists. *)
Lemma spares_restore : spares_video prefix (restore_from_remote_if_needed E prefix).
Proof. intros w Hs. rewrite restore_present by by left. done. Qed.

End Spares.

Ltac spares_step :=
  match goal with
  | |- spares_video _ (mbind _ _) => apply spares_bind; [| intros ?]
  | |- spares_video _ (mret _) => apply spares_ret
  | |- spares_video _ (raise _) => apply spares_raise
  | |- spares_video _ (ext _ _) => apply spares_ext
  | |- spares_video _ (require _ _) => apply spares_require
  | |- spares_video _ (start_push _) => apply spares_start_push
  | |- spares_video _ (sleep _) => apply spares_sleep
  | |- spares_video _ (log_head _) => apply spares_log_head
  | |- spares_video _ (log_poll _) => apply spares_log_poll
  | |- spares_video _ (log_notify _) => apply spares_log_notify
  | |- spares_video _ (read_file _) => apply spares_read_file
  | |- spares_video _ (exists_file _) => apply spares_exists_file
  | |- spares_video _ (restore_from_remote_if_needed _ _) => apply spares_restore
  | |- spares_video _ (try_except _ _) => apply spares_try; [| intros ?]
  | |- spares_video _ (if ?b then _ else _) => destruct b
  | |- spares_video _ (match ?x with _ => _ end) => destruct x
  end.

Create HintDb spares.

Ltac spares_auto := repeat (first [spares_step | solve [eauto with spares]]).

Section SparesRunner.

Variable E : env.
Variable cfg : config.

Let prefix := cfg_state_prefix cfg.

Lemma spares_save_status (status message : string) :
  spares_video prefix (save_status prefix status message).
Proof. apply spares_write, not_eq_sym, video_neq_status. Qed.

Lemma spares_save_caption (idx : Z) (sync : bool) :
  spares_video prefix (save_last_index prefix "caption" idx sync).
Proof.
  unfold save_last_index. apply spares_bind; [| intros _; spares_auto].
  apply spares_write, not_eq_sym, video_neq_caption.
Qed.

Lemma spares_cfg_token_igid : spares_video prefix (_cfg_token_igid E cfg).
Proof. unfold _cfg_token_igid. spares_auto. Qed.

Lemma spares_wait_loop (cid : string) (delay : Z) (n : nat) :
  spares_video prefix (wait_loop E cid delay n).
Proof.
  induction n as [| n IH]; cbn [wait_loop]; [apply spares_raise |].
  spares_auto; exact IH.
Qed.

Lemma spares_wait_until_ready (cid token : string) :
  spares_video prefix (wait_until_ready E cid token).
Proof. apply spares_wait_loop. Qed.

Lemma spares_next_caption : spares_video prefix (next_caption E cfg).
Proof.
  unfold next_caption, fetch_lines, load_last_index, restore_unless. fold prefix.
  pose proof spares_save_caption. spares_auto.
Qed.

(** The reel branch after its selection, and the rest of the run. *)
Lemma spares_reel_after_selection (mode : string) (vid : string) :
  mode <> "schedule" ->
  spares_video prefix
    (st ← (cap ← next_caption E cfg;
           save_status prefix "running" "Uploading video...";;
           creation_id ← upload_reel E (Some vid) cfg cap hide_likes;
           '(token, _) ← _cfg_token_igid E cfg;
           save_status prefix "running" "Processing video...";;
           '(success, resp) ← wait_until_ready E creation_id token;
           if negb success
           then raise (RuntimeError ("Reel container " +:+ creation_id
                                     +:+ " failed readiness. Info: " +:+ pr_repr resp))
           else
             save_status prefix "running" "Publishing reel...";;
             '(media_id, token) ← publish_creation E creation_id cfg;
             mret (Staged (SelVideo vid) media_id token));
     run_after_publish E cfg mode st).
Proof.
  intros Hmode. apply String.eqb_neq in Hmode.
  unfold run_after_publish, upload_reel, publish_creation,
    post_comment, fetch_permalink, notify_publish_success. fold prefix.
  rewrite Hmode.
  pose proof spares_next_caption. pose proof spares_save_status.
  pose proof spares_wait_until_ready. pose proof spares_cfg_token_igid.
  spares_auto.
Qed.

End SparesRunner.

Lemma load_used_list_present (E : env) (prefix : string) (w : world)
    (used : list string) :
  files w !! video_used_path prefix = Some (FUsed used) ->
  load_used_list E prefix w = (Ok used, w).
Proof.
  intros H. unfold load_used_list, restore_unless. munfold. rewrite H.
  rewrite bool_decide_eq_true_2 by eauto. simpl. by rewrite H.
Qed.

Lemma bind_assoc {A B C} (m : M A) (f : A -> M B) (g : B -> M C) (w : world) :
  ((m ≫= f) ≫= g) w = (m ≫= (fun a => f a ≫= g)) w.
Proof. unfold mbind, M_bind, bind. by destruct (m w) as [[a | e] w1]. Qed.

Section ManualReel.

Variable E : env.
Variable cfg : config.
Variable mode : string.
Variable used : list string.
Variable f : string.

Let prefix := cfg_state_prefix cfg.
Let base := _norm_base (cfg_video_base_url cfg).
Let url := base +:+ "/" +:+ PyStr.quote "()" f.

Hypothesis Ht : cfg_type cfg = Some "reel".
Hypothesis Hb : base <> "".
Hypothesis Hmode : mode <> "schedule".
Hypothesis Hhead :
  head (filter (fun f => f ∉ used) (video_catalog (default 200 (cfg_max_images cfg))))
  = Some f.

(** With the used-set file in place the shim reads it and changes
    nothing. *)
Lemma shim_at (w : world) :
  files w !! video_used_path prefix = Some (FUsed used) ->
  next_video_shim E cfg w = (Ok (Some url), w).
Proof.
  intros Hv.
  rewrite (next_video_shim_from E cfg w w used Ht Hb
             (load_used_list_present E _ w used Hv)).
  by rewrite Hhead.
Qed.

Lemma manual_reel_body (w : world) :
  files w !! video_used_path prefix = Some (FUsed used) ->
  files (snd ((run_until_publish E cfg mode ≫= run_after_publish E cfg mode) w))
    !! video_used_path prefix = Some (FUsed used).
Proof.
  intros Hv. unfold run_until_publish. rewrite Ht.
  rewrite bind_assoc. unfold require at 1.
  erewrite bind_ok by reflexivity. cbv beta.
  change (String.eqb "reel" "carousel") with false. cbv iota.
  unfold reel_until_publish. fold prefix.
  rewrite (proj2 (String.eqb_neq _ _) Hmode).
  rewrite !bind_assoc.
  erewrite bind_ok by reflexivity.
  rewrite !bind_assoc.
  set (w2 := set_files _ w).
  assert (Hv2 : files w2 !! video_used_path prefix = Some (FUsed used)).
  { unfold w2. simpl. rewrite lookup_insert_ne by apply not_eq_sym, video_neq_status.
    exact Hv. }
  erewrite bind_ok by (apply shim_at; exact Hv2). cbv beta iota.
  erewrite bind_ok by reflexivity. cbv beta iota.
  rewrite <- Hv2.
  apply (spares_reel_after_selection E cfg mode url Hmode w2).
  eexists. exact Hv2.
Qed.

Lemma manual_reel_run (w : world) :
  files w !! video_used_path prefix = Some (FUsed used) ->
  files (snd (run_account E cfg mode w)) !! video_used_path prefix
  = Some (FUsed used).
Proof.
  intros Hv. rewrite run_account_unfold. fold prefix.
  set (ws := snd (save_status prefix "running" _ w)).
  assert (Hvs : files ws !! video_used_path prefix = Some (FUsed used)).
  { unfold ws. simpl. rewrite lookup_insert_ne by apply not_eq_sym, video_neq_status.
    exact Hv. }
  pose proof (manual_reel_body ws Hvs) as Hbody.
  destruct ((run_until_publish E cfg mode ≫= run_after_publish E cfg mode) ws)
    as [[r | e] w1]; simpl in *; [exact Hbody |].
  rewrite lookup_insert_ne by apply not_eq_sym, video_neq_status. exact Hbody.
Qed.

End ManualReel.

(** X26. Manual reel runs do not advance through the catalog. For a reel
    account whose video used-set file exists and leaves a catalog entry
    unused, a run in any mode other than [schedule] selects the first
    unused entry and, whether it publishes or fails, leaves the used-set
    file as it was: the selection of the next manual run is the same
    video again. *)
Theorem manual_reel_run_repeats_video (E : env) (cfg : config) (mode : string)
    (used : list string) (f : string) (w : world) :
  let prefix := cfg_state_prefix cfg in
  let base := _norm_base (cfg_video_base_url cfg) in
  let url := base +:+ "/" +:+ PyStr.quote "()" f in
  let w' := snd (run_account E cfg mode w) in
  cfg_type cfg = Some "reel" ->
  base <> "" ->
  mode <> "schedule" ->
  files w !! video_used_path prefix = Some (FUsed used) ->
  head (filter (fun f => f ∉ used) (video_catalog (default 200 (cfg_max_images cfg))))
  = Some f ->
  next_video_shim E cfg w = (Ok (Some url), w) /\
  files w' !! video_used_path prefix = Some (FUsed used) /\
  next_video_shim E cfg w' = (Ok (Some url), w').
Proof.
  intros prefix base url w' Ht Hb Hmode Hv Hhead.
  pose proof (manual_reel_run E cfg mode used f Ht Hb Hmode Hhead w Hv) as Hv'.
  split; [by apply (shim_at E cfg used f) |]. split; [exact Hv' |].
  by apply (shim_at E cfg used f).
Qed.

Lemma manual_reel_run_repeats_video_witness :
  let E := Examples.all_fine in
  let cfg := Examples.reel_cfg in
  let w := Examples.world_of {[ "clips_video_used.json" := FUsed ["vid.mp4"] ]} in
  let prefix := cfg_state_prefix cfg in
  let base := _norm_base (cfg_video_base_url cfg) in
  let url := base +:+ "/" +:+ PyStr.quote "()" "vid (1).mp4" in
  let w' := snd (run_account E cfg "manual" w) in
  next_video_shim E cfg w = (Ok (Some url), w) /\
  files w' !! video_used_path prefix = Some (FUsed ["vid.mp4"]) /\
  next_video_shim E cfg w' = (Ok (Some url), w').
Proof.
  intros E cfg w.
  apply (manual_reel_run_repeats_video E cfg "manual" ["vid.mp4"] "vid (1).mp4" w).
  - reflexivity.
  - discriminate.
  - discriminate.
  - reflexivity.
  - vm_compute. reflexivity.
Defined.

(* ===================================================================== *)
(** * Further properties: credentials *)
(* ===================================================================== *)

Lemma status_neq_caption (p : string) : status_path p <> index_path p "caption".
Proof. paths. Qed.

Lemma status_neq_index (p : string) : status_path p <> index_path p "image".
Proof. paths. Qed.

Lemma py_range_cons (a b : Z) : a < b -> py_range a b = a :: py_range (a + 1) b.
Proof.
  intros Hab. unfold py_range.
  replace (Z.to_nat (b - a)) with (S (Z.to_nat (b - (a + 1)))) by lia.
  cbn [seq map]. f_equal; [lia |].
  rewrite <- seq_shift, map_map. apply map_ext. intros k. lia.
Qed.

Lemma mapM_raise_first {A B} (f : A -> M B) (x : A) (l : list A) (w w' : world)
    (e : exn) :
  f x w = (Raise e, w') -> mapM f (x :: l) w = (Raise e, w').
Proof. intros H. cbn [mapM]. by apply bind_raise. Qed.

(** X27. Credentials are read at upload time only. When the token or the
    account id cannot be had, a sequential carousel run has selected its
    images and its caption by the time it fails: it returns [None] with
    the credential error as status and as notification, it has polled no
    container, and both pointers have advanced, with one push each. *)
Theorem missing_credentials_fail_after_selection (E : env) (cfg : config)
    (mode url : string) (lines : list string) (last start : Z) (err : exn)
    (w : world) :
  let prefix := cfg_state_prefix cfg in
  let count := default 1 (cfg_slides_per_post cfg) in
  let mx := default 10000 (cfg_max_images cfg) in
  cfg_type cfg = Some "carousel" ->
  mode <> "schedule" ->
  _norm_base (cfg_base_url cfg) <> "" ->
  0 < mx ->
  1 <= count ->
  cfg_caption_url cfg = Some url ->
  (forall n, e_lines E n url = inr lines) ->
  lines <> [] ->
  files w !! index_path prefix "image" = Some (FIndex last) ->
  files w !! index_path prefix "caption" = Some (FIndex start) ->
  (forall w0, _cfg_token_igid E cfg w0 = (Raise err, w0)) ->
  exists w',
    run_account E cfg mode w = (Ok None, w') /\
    shown_status w' prefix = ("error", exn_str err) /\
    stored_index w' prefix "image" = (last + count - 1) mod mx + 1 /\
    stored_index w' prefix "caption" = start + 1 /\
    pushes w' = prefix :: prefix :: pushes w /\
    polls w' = polls w /\
    length (notified w') = S (length (notified w)).
Proof.
  intros prefix count mx Ht Hmode Hb Hmx Hcount Hu Hl Hne Hi Hc Hcred.
  rewrite run_account_unfold. fold prefix.
  set (ws := snd (save_status prefix "running" _ w)).
  assert (His : files ws !! index_path prefix "image" = Some (FIndex last)).
  { unfold ws. simpl. by rewrite lookup_insert_ne by apply status_neq_index. }
  pose proof (next_images_step E cfg last ws Hmx Hb His) as Himg.
  fold prefix count mx in Himg. cbv zeta in Himg.
  set (w1 := World _ _ _ _ _ _ _) in Himg.
  assert (Hc1 : files w1 !! index_path prefix "caption" = Some (FIndex start)).
  { unfold w1, ws. simpl.
    rewrite lookup_insert_ne by apply not_eq_sym, caption_neq_index.
    by rewrite lookup_insert_ne by apply status_neq_caption. }
  pose proof (next_caption_step E cfg url lines start w1 Hu (Hl _) Hne Hc1) as Hcap.
  fold prefix in Hcap.
  set (w2 := World _ _ _ _ _ _ _) in Hcap.
  set (imgs := map _ (py_range 1 (count + 1))) in Himg.
  assert (Hrun : exists w3,
            run_until_publish E cfg mode ws = (Raise err, w3) /\
            files w3 = <[status_path prefix :=
                           FStatus "running"
                             (progress "Uploading image" 1 (Z.of_nat (length imgs)))]>
                         (files w2) /\
            pushes w3 = pushes w2 /\ polls w3 = polls w2 /\
            notified w3 = notified w2).
  { eexists. split.
    - unfold run_until_publish. rewrite Ht. unfold require at 1.
      erewrite bind_ok by reflexivity.
      change (String.eqb "carousel" "carousel") with true. cbv iota.
      unfold carousel_until_publish. fold prefix.
      rewrite (proj2 (String.eqb_neq _ _) Hmode).
      rewrite (bind_ok _ _ _ _ _ Himg).
      rewrite (bind_ok _ _ _ _ _ Hcap).
      apply bind_raise.
      unfold imgs at 2. rewrite (py_range_cons 1 (count + 1)) by lia.
      cbn [map]. unfold enumerate1. cbn [length].
      rewrite (py_range_cons 1) by lia. cbn [zip zip_with].
      apply mapM_raise_first.
      unfold upload_and_verify. fold prefix. cbn [fst snd].
      erewrite bind_ok by reflexivity.
      apply bind_raise. unfold upload_image. apply bind_raise. apply Hcred.
    - simpl. repeat split; reflexivity. }
  destruct Hrun as (w3 & Hrun & Hf3 & Hp3 & Hpo3 & Hn3).
  rewrite (bind_raise _ _ _ _ _ Hrun).
  eexists. split; [reflexivity |].
  unfold shown_status, stored_index. cbn [files pushes polls notified].
  rewrite lookup_insert_eq.
  rewrite !lookup_insert_ne
    by first [apply status_neq_index | apply status_neq_caption].
  rewrite Hf3, Hp3, Hpo3, Hn3.
  rewrite !lookup_insert_ne
    by first [apply status_neq_index | apply status_neq_caption].
  unfold w2. cbn [files pushes polls notified].
  rewrite lookup_insert_eq.
  rewrite lookup_insert_ne by apply caption_neq_index.
  unfold w1. cbn [files pushes polls notified]. rewrite lookup_insert_eq.
  unfold ws. simpl. done.
Qed.

Lemma missing_credentials_fail_after_selection_witness :
  let E := Examples.all_fine in
  let cfg := Config (Some "acct") "acct" (Some "carousel") (Some "http://h/imgs/") None
                    (Some "http://h/cap.txt") (Some 2) (Some 10) None None
                    (Some "on") None in
  let err := RuntimeError "Config missing 'access_token_env' or 'ig_user_id_env'." in
  let w := Examples.world_of {[ "acct_image.json" := FIndex 5;
                                "acct_caption.json" := FIndex 0 ]} in
  let prefix := cfg_state_prefix cfg in
  let count := default 1 (cfg_slides_per_post cfg) in
  let mx := default 10000 (cfg_max_images cfg) in
  exists w',
    run_account E cfg "manual" w = (Ok None, w') /\
    shown_status w' prefix = ("error", exn_str err) /\
    stored_index w' prefix "image" = (5 + count - 1) mod mx + 1 /\
    stored_index w' prefix "caption" = 0 + 1 /\
    pushes w' = prefix :: prefix :: pushes w /\
    polls w' = polls w /\
    length (notified w') = S (length (notified w)).
Proof.
  intros E cfg err w.
  apply (missing_credentials_fail_after_selection E cfg "manual" "http://h/cap.txt"
           ["first caption"; "second caption"] 5 0 err w).
  - reflexivity.
  - discriminate.
  - discriminate.
  - reflexivity.
  - discriminate.
  - reflexivity.
  - reflexivity.
  - discriminate.
  - reflexivity.
  - reflexivity.
  - reflexivity.
Defined.

(* ===================================================================== *)
(** * Further properties: recovery of a pointer *)
(* ===================================================================== *)

Lemma load_last_index_absent (E : env) (prefix key : string) (w : world) :
  files w !! index_path prefix key = None ->
  load_last_index E prefix key w
  = (f ← read_file (index_path prefix key); mret (index_of_file f))
      (snd (restore_from_remote_if_needed E prefix w)).
Proof.
  intros Habs. unfold load_last_index, restore_unless.
  assert (Hex : exists_file (index_path prefix key) w = (Ok false, w)).
  { unfold exists_file. rewrite Habs.
    by rewrite bool_decide_eq_false_2 by (intros [? ?]; discriminate). }
  rewrite (bind_ok _ _ _ _ _ Hex).
  destruct (restore_effect E prefix w) as (w' & Hr & _).
  rewrite (bind_ok _ _ _ _ _ Hr). by rewrite Hr.
Qed.

(** X28. Recovery of a pointer is gated by the used-set files. When a
    pointer file is absent but one of the two used-set files of the prefix
    exists, [load_last_index] reads the pointer as [0] without consulting
    the mirror and changes nothing; only when both used-set files are absent
    does it take the pointer the mirror holds, [0] when the mirror entry
    has none. *)
Theorem pointer_recovery_gated_by_used_sets (E : env) (prefix key : string)
    (w : world) :
  files w !! index_path prefix key = None ->
  (is_Some (files w !! video_used_path prefix) \/
   is_Some (files w !! image_used_path prefix) ->
   load_last_index E prefix key w = (Ok 0, w)) /\
  (forall r,
     files w !! video_used_path prefix = None ->
     files w !! image_used_path prefix = None ->
     e_remote E (clock w) prefix = Some r ->
     (key = "caption" ->
      fst (load_last_index E prefix key w) = Ok (default 0 (r_caption_idx r))) /\
     (key = "image" ->
      fst (load_last_index E prefix key w) = Ok (default 0 (r_image_idx r)))).
Proof.
  intros Habs. split.
  - intros Hused. rewrite load_last_index_absent by done.
    rewrite restore_present by done. simpl.
    unfold read_file, mbind, M_bind, bind, mret, M_ret, ret. by rewrite Habs.
  - intros r Hv Hi Hr. rewrite load_last_index_absent by done.
    rewrite (restore_absent E prefix w r Hv Hi Hr). simpl.
    unfold read_file, mbind, M_bind, bind, mret, M_ret, ret. cbn [files fst].
    split; intros ->.
    + rewrite materialize_caption. destruct (r_caption_idx r); [done |].
      by rewrite Habs.
    + rewrite materialize_index. destruct (r_image_idx r); [done |].
      by rewrite Habs.
Qed.

Lemma pointer_recovery_gated_by_used_sets_witness :
  let E := Examples.with_mirror in
  let w := Examples.world_of {[ "acct_image_used.json" := FUsed [] ]} in
  (is_Some (files w !! video_used_path "acct") \/
   is_Some (files w !! image_used_path "acct") ->
   load_last_index E "acct" "caption" w = (Ok 0, w)) /\
  (forall r,
     files w !! video_used_path "acct" = None ->
     files w !! image_used_path "acct" = None ->
     e_remote E (clock w) "acct" = Some r ->
     ("caption" = "caption" ->
      fst (load_last_index E "acct" "caption" w) = Ok (default 0 (r_caption_idx r))) /\
     ("caption" = "image" ->
      fst (load_last_index E "acct" "caption" w) = Ok (default 0 (r_image_idx r)))).
Proof.
  intros E w.
  apply (pointer_recovery_gated_by_used_sets E "acct" "caption" w).
  reflexivity.
Defined.
